(** * AioRepositor: schema interpretation and query generation

    A shallow embedding of the Python sources [schema_parser.py],
    [dc_factory.py], [db_connection.py] and [repo_factory.py], and the
    properties of the specification that were checked against it.

    Modelling conventions.
    - A Python [str] is a list of characters ([list ascii]).  The embedding
      covers ASCII text: whitespace, word characters and case mapping are
      those of Python on code points below 128.
    - A Python [dict] whose iteration order is observable (a schema, a table
      definition, a record's field mapping, keyword arguments) is an
      association list in insertion order, written with [dict_set].
    - The repository cache [RepositoryFactory._instances] is only ever
      looked up by key and is a [gmap].
    - Code that can raise returns a [result]; code that talks to the SQL
      engine runs in a state-and-exception monad over the connection state
      and the list of requests sent to the engine. *)

From Stdlib Require Import List Ascii String ZArith Lia Bool.
From stdpp Require Import base list gmap strings.
Import ListNotations.

Abbreviation str := (list ascii).

Definition lit (s : string) : str := list_ascii_of_string s.
Arguments lit s%_string.

(** ** Exceptions *)

Inductive exn : Type :=
  | ValueError (msg : str)
  | IndexError
  | KeyError (key : str)
  | TypeError (msg : str)
  | EngineError.

Inductive result (A : Type) : Type :=
  | Ok (a : A)
  | Raise (e : exn).
Arguments Ok {A} a.
Arguments Raise {A} e.

(** ** Values *)

(** The values a record field or a query parameter holds.  A float is
    carried by its bit pattern and never inspected. *)
Inductive PyValue : Type :=
  | VNone
  | VInt (z : Z)
  | VStr (s : str)
  | VBool (b : bool)
  | VBytes (b : str)
  | VFloat (bits : Z).

Definition is_none (v : PyValue) : bool :=
  match v with
  | VNone => true
  | _ => false
  end.

(** [bool(v)] *)
Definition truthy (v : PyValue) : bool :=
  match v with
  | VNone => false
  | VInt z => negb (z =? 0)%Z
  | VStr s => match s with [] => false | _ :: _ => true end
  | VBool b => b
  | VBytes b => match b with [] => false | _ :: _ => true end
  | VFloat bits => negb ((bits =? 0)%Z || (bits =? 2 ^ 63)%Z)
  end.

(** ** The Python string primitives the sources use *)

Module Py.

Definition ascii_eqb (a b : ascii) : bool := Ascii.eqb a b.

Fixpoint str_eqb (s t : str) : bool :=
  match s, t with
  | [], [] => true
  | a :: s', b :: t' => ascii_eqb a b && str_eqb s' t'
  | _, _ => false
  end.

(** [x in xs] for a list or a set of strings. *)
Definition mem (x : str) (xs : list str) : bool := existsb (str_eqb x) xs.

(** [c.isspace()] *)
Definition isspace (c : ascii) : bool :=
  let n := nat_of_ascii c in
  ((9 <=? n) && (n <=? 13)) || ((28 <=? n) && (n <=? 32)).

Definition isupper (c : ascii) : bool :=
  let n := nat_of_ascii c in (65 <=? n) && (n <=? 90).

Definition islower (c : ascii) : bool :=
  let n := nat_of_ascii c in (97 <=? n) && (n <=? 122).

Definition isdigit (c : ascii) : bool :=
  let n := nat_of_ascii c in (48 <=? n) && (n <=? 57).

(** The class [\w] of [re]. *)
Definition isword (c : ascii) : bool :=
  isupper c || islower c || isdigit c || ascii_eqb c "_".

Definition upper_char (c : ascii) : ascii :=
  if islower c then ascii_of_nat (nat_of_ascii c - 32) else c.

(** [s.upper()] *)
Definition upper (s : str) : str := map upper_char s.

Arguments ascii_eqb a b : simpl never.
Arguments isspace c : simpl never.
Arguments isupper c : simpl never.
Arguments islower c : simpl never.
Arguments isdigit c : simpl never.
Arguments isword c : simpl never.
Arguments upper_char c : simpl never.

Fixpoint drop_while (p : ascii -> bool) (s : str) : str :=
  match s with
  | [] => []
  | c :: s' => if p c then drop_while p s' else s
  end.

Fixpoint take_while (p : ascii -> bool) (s : str) : str :=
  match s with
  | [] => []
  | c :: s' => if p c then c :: take_while p s' else []
  end.

Definition lstrip (s : str) : str := drop_while isspace s.
Definition rstrip (s : str) : str := rev (drop_while isspace (rev s)).

(** [s.strip()] *)
Definition strip (s : str) : str := rstrip (lstrip s).

(** [s.startswith(p)] *)
Fixpoint startswith (p s : str) : bool :=
  match p, s with
  | [], _ => true
  | a :: p', b :: s' => ascii_eqb a b && startswith p' s'
  | _ :: _, [] => false
  end.

(** [s.split()]: the maximal runs of non-whitespace characters. *)
Fixpoint split_ws (s : str) : list str :=
  match s with
  | [] => []
  | c :: s' =>
      if isspace c then split_ws s'
      else
        match s' with
        | [] => [[c]]
        | d :: _ =>
            if isspace d then [c] :: split_ws s'
            else
              match split_ws s' with
              | w :: ws => (c :: w) :: ws
              | [] => [[c]]
              end
        end
  end.

(** [s.split(None, 1)]: the first token and, when something other than
    whitespace follows it, the remainder from its first non-blank
    character on. *)
Definition split_ws1 (s : str) : list str :=
  let s1 := lstrip s in
  match s1 with
  | [] => []
  | _ :: _ =>
      let tok := take_while (fun c => negb (isspace c)) s1 in
      let rest := lstrip (drop_while (fun c => negb (isspace c)) s1) in
      match rest with
      | [] => [tok]
      | _ :: _ => [tok; rest]
      end
  end.

(** [s.split(c)[0]]: the text before the first occurrence of [c]. *)
Definition before_first (c : ascii) (s : str) : str :=
  take_while (fun d => negb (ascii_eqb d c)) s.

(** [s.find(c)] for a single character, [-1] when absent. *)
Fixpoint find_from (c : ascii) (s : str) (i : Z) : Z :=
  match s with
  | [] => (-1)%Z
  | d :: s' => if ascii_eqb d c then i else find_from c s' (i + 1)%Z
  end.

Definition find (c : ascii) (s : str) : Z := find_from c s 0%Z.

(** [s[:n]] and [s[n:]] for [n >= 0]. *)
Definition slice_to (n : Z) (s : str) : str := firstn (Z.to_nat n) s.
Definition slice_from (n : Z) (s : str) : str := skipn (Z.to_nat n) s.

(** [sep.join(xs)] *)
Fixpoint join (sep : str) (xs : list str) : str :=
  match xs with
  | [] => []
  | [x] => x
  | x :: xs' => x ++ sep ++ join sep xs'
  end.

(** [d[k] = v] on an insertion-ordered dict. *)
Fixpoint dict_set {V : Type} (k : str) (v : V) (d : list (str * V)) : list (str * V) :=
  match d with
  | [] => [(k, v)]
  | (k', v') :: d' =>
      if str_eqb k' k then (k', v) :: d' else (k', v') :: dict_set k v d'
  end.

(** [d.get(k)] *)
Fixpoint dict_get {V : Type} (k : str) (d : list (str * V)) : option V :=
  match d with
  | [] => None
  | (k', v) :: d' => if str_eqb k' k then Some v else dict_get k d'
  end.

(** [{k: v for (k, v) in items}] *)
Definition dict_of_items {V : Type} (items : list (str * V)) : list (str * V) :=
  fold_left (fun d kv => dict_set (fst kv) (snd kv) d) items [].

End Py.

(** ** Schemas *)

(** A table definition maps member names to member definitions, a schema maps
    table names to table definitions; both in insertion order. *)
Abbreviation Table := (list (str * str)).
Abbreviation Schema := (list (str * Table)).

(** ** schema_parser.py: SchemaValidator *)

Module SchemaValidator.
Import Py.

Definition default_sql_types : list str :=
  [lit "INTEGER"; lit "TEXT"; lit "REAL"; lit "BLOB"; lit "BOOLEAN";
   lit "DECIMAL"; lit "TIMESTAMP"].

(** [default_sql_types if not sql_types else sql_types] *)
Definition required_sql_types (sql_types : option (list str)) : list str :=
  match sql_types with
  | None => default_sql_types
  | Some [] => default_sql_types
  | Some ts => ts
  end.

Definition constraint_keywords : list str :=
  [lit "PRIMARY"; lit "FOREIGN"; lit "CHECK"; lit "UNIQUE"].

(** The test on [column_name] at the head of the inner loop. *)
Definition is_constraint_name (column_name : str) : bool :=
  startswith (lit "PRIMARY KEY") column_name
  || startswith (lit "FOREIGN KEY") column_name
  || startswith (lit "CHECK") column_name
  || startswith (lit "UNIQUE") column_name.

Definition invalid_type_msg (base_sql_type table column_name : str) : str :=
  lit "Invalid SQL type '" ++ base_sql_type ++ lit "' in table '" ++ table
  ++ lit "', column '" ++ column_name ++ lit "'".

(** The body of the inner loop for one member. *)
Definition validate_column (required : list str) (table : str)
    (column_name column_type : str) : result unit :=
  if is_constraint_name column_name then Ok tt
  else
    match split_ws column_type with
    | [] => Raise IndexError
    | tok :: _ =>
        let base_sql_type := upper tok in
        if mem base_sql_type constraint_keywords then Ok tt
        else
          let base_sql_type := before_first "(" base_sql_type in
          if mem base_sql_type required then Ok tt
          else Raise (ValueError (invalid_type_msg base_sql_type table column_name))
    end.

Fixpoint validate_columns (required : list str) (table : str) (columns : Table)
    : result unit :=
  match columns with
  | [] => Ok tt
  | (column_name, column_type) :: rest =>
      match validate_column required table column_name column_type with
      | Ok _ => validate_columns required table rest
      | Raise e => Raise e
      end
  end.

Fixpoint validate_tables (required : list str) (schema : Schema) : result unit :=
  match schema with
  | [] => Ok tt
  | (table, columns) :: rest =>
      match validate_columns required table columns with
      | Ok _ => validate_tables required rest
      | Raise e => Raise e
      end
  end.

Definition validate (schema : Schema) (sql_types : option (list str)) : result bool :=
  match validate_tables (required_sql_types sql_types) schema with
  | Ok _ => Ok true
  | Raise e => Raise e
  end.

End SchemaValidator.

(** ** schema_parser.py: SchemaParser *)

Module SchemaParser.
Import Py.

Definition nl : ascii := "010"%char.

(** [col_name.startswith(("PRIMARY KEY", "UNIQUE", "CHECK", "FOREIGN KEY"))] *)
Definition is_constraint (col_name : str) : bool :=
  startswith (lit "PRIMARY KEY") col_name
  || startswith (lit "UNIQUE") col_name
  || startswith (lit "CHECK") col_name
  || startswith (lit "FOREIGN KEY") col_name.

(** [f"{col_name} {col_type}"] *)
Definition render_member (col_name col_type : str) : str :=
  col_name ++ lit " " ++ col_type.

Definition index_sql (table_name col_name : str) : str :=
  lit "CREATE INDEX IF NOT EXISTS idx_" ++ table_name ++ lit "_" ++ col_name
  ++ lit " ON " ++ table_name ++ lit " (" ++ col_name ++ lit ");".

(** [idxs and col_name in idxs] *)
Definition hinted (idxs : option (list str)) (col_name : str) : bool :=
  match idxs with
  | None => false
  | Some l => mem col_name l
  end.

(** The four lists the loop over one table's members fills. *)
Record TableAcc : Type := {
  column_defs : list str;
  constraints : list str;
  indexes : list str;
  fields_for_dataclass : list str
}.

Definition empty_acc : TableAcc :=
  {| column_defs := []; constraints := []; indexes := []; fields_for_dataclass := [] |}.

(** One iteration of the loop over [columns.items()]. *)
Definition member_step (table_name : str) (idxs : option (list str))
    (acc : TableAcc) (member : str * str) : TableAcc :=
  let '(col_name, col_type) := member in
  let acc1 :=
    if is_constraint col_name then
      {| column_defs := column_defs acc;
         constraints := constraints acc ++ [render_member col_name col_type];
         indexes := indexes acc;
         fields_for_dataclass := fields_for_dataclass acc |}
    else
      {| column_defs := column_defs acc ++ [render_member col_name col_type];
         constraints := constraints acc;
         indexes := indexes acc;
         fields_for_dataclass := fields_for_dataclass acc ++ [col_name] |} in
  if hinted idxs col_name then
    {| column_defs := column_defs acc1;
       constraints := constraints acc1;
       indexes := indexes acc1 ++ [index_sql table_name col_name];
       fields_for_dataclass := fields_for_dataclass acc1 |}
  else acc1.

Definition scan_table (table_name : str) (idxs : option (list str)) (columns : Table)
    : TableAcc :=
  fold_left (member_step table_name idxs) columns empty_acc.

Definition create_table_sql (table_name : str) (all_defs : list str) : str :=
  lit "CREATE TABLE IF NOT EXISTS " ++ table_name ++ lit " (" ++ [nl] ++ lit "    "
  ++ join (lit "," ++ [nl] ++ lit "    ") all_defs ++ [nl] ++ lit ");".

(** One iteration of the loop over [schema.items()]: the statements and
    the field mapping built so far, extended by one table. *)
Definition table_step (idxs : option (list str))
    (acc : list str * list (str * list str)) (entry : str * Table)
    : list str * list (str * list str) :=
  let '(sql_statements, dataclass_fields) := acc in
  let '(table_name, columns) := entry in
  let t := scan_table table_name idxs columns in
  let all_defs := column_defs t ++ constraints t in
  ((sql_statements ++ [create_table_sql table_name all_defs]) ++ indexes t,
   dict_set table_name (fields_for_dataclass t) dataclass_fields).

Definition generate_sql (schema : Schema) (idxs : option (list str))
    : str * list (str * list str) :=
  let '(sql_statements, dataclass_fields) :=
    fold_left (table_step idxs) schema ([], []) in
  (join [nl; nl] sql_statements, dataclass_fields).

End SchemaParser.

(** ** schema_parser.py: SqlStrToDict *)

Module SqlStrToDict.
Import Py.

(** Case-insensitive match of a literal at the head of [s]. *)
Definition startswith_ci (p s : str) : bool := startswith (upper p) (upper s).

(** The shortest prefix of [s] that ends in [");"], with what follows it. *)
Fixpoint until_close (s : str) : option (str * str) :=
  match s with
  | [] => None
  | c :: s' =>
      match s' with
      | d :: s'' =>
          if ascii_eqb c ")" && ascii_eqb d ";" then Some ([c; d], s'')
          else
            match until_close s' with
            | Some (m, r) => Some (c :: m, r)
            | None => None
            end
      | [] => None
      end
  end.

(** [re.findall(r'CREATE TABLE.*?\);', s, re.DOTALL | re.IGNORECASE)]:
    the leftmost match, then the matches of the text after it.  [fuel]
    bounds the number of positions visited. *)
Fixpoint findall_create (fuel : nat) (s : str) : list str :=
  match fuel with
  | O => []
  | S fuel' =>
      match s with
      | [] => []
      | _ :: s' =>
          if startswith_ci (lit "CREATE TABLE") s then
            match until_close (skipn 12 s) with
            | Some (m, rest) => (firstn 12 s ++ m) :: findall_create fuel' rest
            | None => findall_create fuel' s'
            end
          else findall_create fuel' s'
      end
  end.

Definition _split_statements (schema_str : str) : list str :=
  findall_create (length schema_str) schema_str.

(** A match of [kw\s+(\w+)\s*\(] at the head of [s]: group 1. *)
Definition match_name_at (kw s : str) : option str :=
  if startswith_ci kw s then
    let r := skipn (length kw) s in
    match r with
    | c :: _ =>
        if isspace c then
          let r1 := drop_while isspace r in
          match take_while isword r1 with
          | [] => None
          | name =>
              match drop_while isspace (drop_while isword r1) with
              | d :: _ => if ascii_eqb d "(" then Some name else None
              | [] => None
              end
          end
        else None
    | [] => None
    end
  else None.

(** [re.search(kw + r'\s+(\w+)\s*\(', s, re.IGNORECASE)]: leftmost match. *)
Fixpoint search_name (kw s : str) : option str :=
  match match_name_at kw s with
  | Some name => Some name
  | None =>
      match s with
      | [] => None
      | _ :: s' => search_name kw s'
      end
  end.

Definition _extract_table_name (statement : str) : result str :=
  match search_name (lit "CREATE TABLE IF NOT EXISTS") statement with
  | Some name => Ok name
  | None =>
      match search_name (lit "CREATE TABLE") statement with
      | Some name => Ok name
      | None => Raise (ValueError (lit "Table name not found in statement."))
      end
  end.

(** The text of [s] before its last [")"]. *)
Fixpoint upto_last_close (s : str) : option str :=
  match s with
  | [] => None
  | c :: s' =>
      match upto_last_close s' with
      | Some m => Some (c :: m)
      | None => if ascii_eqb c ")" then Some [] else None
      end
  end.

(** The search of [_extract_columns] (an opening parenthesis, any text,
    greedily, a closing parenthesis, with DOTALL): group 1, from the
    first ["("] to the last [")"]. *)
Definition search_parens (s : str) : option str :=
  match drop_while (fun c => negb (ascii_eqb c "(")) s with
  | [] => None
  | _ :: after => upto_last_close after
  end.

(** The [while] loop of [_split_columns], from the character at hand on. *)
Fixpoint split_loop (rest : str) (columns : list str) (parens : Z) (current_col : str)
    : list str * str :=
  match rest with
  | [] => (columns, current_col)
  | char :: rest' =>
      if ascii_eqb char "," && (parens =? 0)%Z then
        split_loop rest' (columns ++ [strip current_col]) parens []
      else
        let parens' :=
          if ascii_eqb char "(" then (parens + 1)%Z
          else if ascii_eqb char ")" then (parens - 1)%Z
          else parens in
        split_loop rest' columns parens' (current_col ++ [char])
  end.

Definition _split_columns (columns_str : str) : list str :=
  let '(columns, current_col) := split_loop columns_str [] 0%Z [] in
  match strip current_col with
  | [] => columns
  | _ :: _ => columns ++ [strip current_col]
  end.

Definition _parse_column (column_str : str) : result (str * str) :=
  match split_ws1 column_str with
  | [column_name; column_def] => Ok (strip column_name, strip column_def)
  | _ =>
      Raise (ValueError (lit "Invalid column definition: '" ++ column_str ++ lit "'"))
  end.

Definition _parse_constraint (constraint_str : str) : result (str * str) :=
  let constraint_str := strip constraint_str in
  if startswith (lit "FOREIGN KEY") (upper constraint_str) then
    let key_end := find ")" constraint_str in
    let key := slice_to (key_end + 1) constraint_str in
    let value := strip (slice_from (key_end + 1) constraint_str) in
    Ok (strip key, strip value)
  else if startswith (lit "PRIMARY KEY") (upper constraint_str) then
    let key_end := find ")" constraint_str in
    if negb (key_end =? -1)%Z then
      let key := lit "PRIMARY KEY" in
      let value := strip (slice_from 11 constraint_str) in
      Ok (strip key, strip value)
    else
      match split_ws1 constraint_str with
      | [key; value] => Ok (strip key, strip value)
      | _ => Raise (ValueError (lit "not enough values to unpack"))
      end
  else
    match split_ws constraint_str with
    | [] => Raise IndexError
    | key :: rest => Ok (strip key, strip (join (lit " ") rest))
    end.

(** The loop of [_extract_columns] over the split members. *)
Fixpoint columns_loop (columns_list : list str) (columns : Table) : result Table :=
  match columns_list with
  | [] => Ok columns
  | col :: rest =>
      let col := strip col in
      match col with
      | [] => columns_loop rest columns
      | _ :: _ =>
          let parsed :=
            if startswith (lit "FOREIGN KEY") (upper col)
               || startswith (lit "PRIMARY KEY") (upper col)
            then _parse_constraint col
            else _parse_column col in
          match parsed with
          | Ok (key, value) => columns_loop rest (dict_set key value columns)
          | Raise e => Raise e
          end
      end
  end.

Definition _extract_columns (statement : str) : result Table :=
  match search_parens statement with
  | None => Raise (ValueError (lit "Column definitions not found."))
  | Some columns_str => columns_loop (_split_columns columns_str) []
  end.

(** The loop of [parse] over the statements. *)
Fixpoint parse_loop (statements : list str) (tables : Schema) : result Schema :=
  match statements with
  | [] => Ok tables
  | stmt :: rest =>
      match _extract_table_name stmt with
      | Raise e => Raise e
      | Ok table_name =>
          match _extract_columns stmt with
          | Raise e => Raise e
          | Ok columns => parse_loop rest (dict_set table_name columns tables)
          end
      end
  end.

Definition parse (schema_str : str) : result Schema :=
  parse_loop (_split_statements schema_str) [].

End SqlStrToDict.

(** ** dc_factory.py: RepoDataClass *)

Module RepoDataClass.
Import Py.

(** The host types of [type_map]. *)
Inductive HostType : Type := PyInt | PyStr | PyFloat | PyBytes | PyBool.

Definition type_map : list (str * HostType) :=
  [(lit "INTEGER", PyInt); (lit "TEXT", PyStr); (lit "REAL", PyFloat);
   (lit "BLOB", PyBytes); (lit "BOOLEAN", PyBool); (lit "DECIMAL", PyFloat);
   (lit "TIMESTAMP", PyStr)].

(** A field's type and its [field(default=...)] value. *)
Definition field_type (field_name : str) : HostType * PyValue :=
  if str_eqb field_name (lit "id") then (PyInt, VNone)
  else
    (match dict_get (upper field_name) type_map with
     | Some t => t
     | None => PyStr
     end, VNone).

Definition lower_char (c : ascii) : ascii :=
  if isupper c then ascii_of_nat (nat_of_ascii c + 32) else c.

(** [s.capitalize()] *)
Definition capitalize (s : str) : str :=
  match s with
  | [] => []
  | c :: s' => upper_char c :: map lower_char s'
  end.

Definition keywords : list str :=
  [lit "False"; lit "None"; lit "True"; lit "and"; lit "as"; lit "assert";
   lit "async"; lit "await"; lit "break"; lit "class"; lit "continue";
   lit "def"; lit "del"; lit "elif"; lit "else"; lit "except"; lit "finally";
   lit "for"; lit "from"; lit "global"; lit "if"; lit "import"; lit "in";
   lit "is"; lit "lambda"; lit "nonlocal"; lit "not"; lit "or"; lit "pass";
   lit "raise"; lit "return"; lit "try"; lit "while"; lit "with"; lit "yield"].

(** [s.isidentifier()] *)
Definition isidentifier (s : str) : bool :=
  match s with
  | [] => false
  | c :: s' => negb (isdigit c) && isword c && forallb isword s'
  end.

(** What [make_dataclass] builds: the class name and, per field, its name,
    type and default. *)
Record DataClass : Type := {
  dc_name : str;
  dc_fields : list (str * (HostType * PyValue))
}.

(** [make_dataclass(name, fields)], which refuses a field name that is
    not an identifier or is a keyword. *)
Definition make_dataclass (name : str) (fields : list (str * (HostType * PyValue)))
    : result DataClass :=
  match List.find (fun f => negb (isidentifier (fst f))) fields with
  | Some f => Raise (TypeError (lit "Field names must be valid identifiers: " ++ fst f))
  | None =>
      match List.find (fun f => mem (fst f) keywords) fields with
      | Some f => Raise (TypeError (lit "Field names must not be keywords: " ++ fst f))
      | None => Ok {| dc_name := name; dc_fields := fields |}
      end
  end.

(** [RepoDataClass.__call__] *)
Definition call (table_name : str) (_fields : list str) : result DataClass :=
  let prepared_fields := dict_of_items (map (fun key => (key, field_type key)) _fields) in
  make_dataclass (capitalize table_name ++ lit "RepoData") prepared_fields.

End RepoDataClass.

(** ** db_connection.py: DatabaseConnection *)

Module DatabaseConnection.
Import Py.

(** Connection handles, numbered in the order the engine opened them. *)
Definition Handle := nat.

(** What the engine reports after a request. *)
Record Cursor : Type := {
  lastrowid : option Z;
  rowcount : Z;
  fetched : list (list PyValue);
  description : list str
}.

(** The requests the code sends to the SQL engine. *)
Inductive Request : Type :=
  | Connect (db_path : str)
  | Execute (h : Handle) (sql : str) (params : list (str * PyValue))
  | FetchAll (h : Handle)
  | FetchOne (h : Handle)
  | Commit (h : Handle)
  | Rollback (h : Handle)
  | Close (h : Handle).

(** The engine is external: given the requests sent so far and a new
    request it answers with a cursor, or raises ([None]). *)
Definition Engine : Type := list Request -> Request -> option Cursor.

(** The singleton's attributes. *)
Record Manager : Type := {
  db_path : str;
  conn : option Handle;
  has_foreign_keys : bool
}.

(** The process state the repositories act on. *)
Record World : Type := {
  manager : Manager;
  opened : nat;
  sent : list Request
}.

(** [sub in s] *)
Fixpoint contains (sub s : str) : bool :=
  startswith sub s
  || match s with
     | [] => false
     | _ :: s' => contains sub s'
     end.

Definition _detect_foreign_keys (schema : Schema) : bool :=
  existsb (fun entry =>
    existsb (fun member => contains (lit "FOREIGN KEY") (fst member)) (snd entry))
    schema.

(** [DatabaseConnection.__new__]: the instance is built on the first call
    only. *)
Definition new (instance : option Manager) (path : str) (schema : Schema) : Manager :=
  match instance with
  | Some m => m
  | None =>
      {| db_path := path; conn := None;
         has_foreign_keys := _detect_foreign_keys schema |}
  end.

Definition M (A : Type) : Type := World -> result A * World.

Definition ret {A : Type} (a : A) : M A := fun w => (Ok a, w).

Definition raise {A : Type} (e : exn) : M A := fun w => (Raise e, w).

Definition bind {A B : Type} (m : M A) (k : A -> M B) : M B :=
  fun w =>
    match m w with
    | (Ok a, w') => k a w'
    | (Raise e, w') => (Raise e, w')
    end.

(** [try: m except Exception as e: handler] *)
Definition try_except {A : Type} (m : M A) (handler : exn -> M A) : M A :=
  fun w =>
    match m w with
    | (Ok a, w') => (Ok a, w')
    | (Raise e, w') => handler e w'
    end.

Definition set_conn (c : option Handle) : M unit :=
  fun w =>
    (Ok tt,
     {| manager := {| db_path := db_path (manager w); conn := c;
                      has_foreign_keys := has_foreign_keys (manager w) |};
        opened := opened w; sent := sent w |}).

Definition get_manager : M Manager := fun w => (Ok (manager w), w).

Section Engine.
Variable engine : Engine.

(** Send one request; the engine's refusal is an exception. *)
Definition request (r : Request) : M Cursor :=
  fun w =>
    let w' := {| manager := manager w; opened := opened w; sent := sent w ++ [r] |} in
    match engine (sent w) r with
    | Some c => (Ok c, w')
    | None => (Raise EngineError, w')
    end.

(** [aiosqlite.connect(db_path)]: a new handle. *)
Definition connect (path : str) : M Handle :=
  fun w =>
    match request (Connect path) w with
    | (Ok _, w') =>
        (Ok (opened w'),
         {| manager := manager w'; opened := S (opened w'); sent := sent w' |})
    | (Raise e, w') => (Raise e, w')
    end.

Definition __aenter__ : M Handle :=
  bind get_manager (fun m =>
    match conn m with
    | Some h => ret h
    | None =>
        bind (connect (db_path m)) (fun h =>
        bind (set_conn (Some h)) (fun _ =>
        bind (if has_foreign_keys m
              then bind (request (Execute h (lit "PRAGMA foreign_keys = ON;") []))
                        (fun _ => ret tt)
              else ret tt) (fun _ =>
        ret h)))
    end).

Definition __aexit__ : M unit :=
  bind get_manager (fun m =>
    match conn m with
    | Some h => bind (request (Close h)) (fun _ => set_conn None)
    | None => ret tt
    end).

(** [async with manager as conn: body]: [__aexit__] runs whether the
    body returned or raised, and an exception of its own replaces the
    body's outcome. *)
Definition async_with {A : Type} (body : Handle -> M A) : M A :=
  bind __aenter__ (fun h w =>
    match body h w with
    | (r, w1) =>
        match __aexit__ w1 with
        | (Ok _, w2) => (r, w2)
        | (Raise e, w2) => (Raise e, w2)
        end
    end).

End Engine.

Definition initial_world (m : Manager) : World :=
  {| manager := m; opened := 0; sent := [] |}.

End DatabaseConnection.

(** ** repo_factory.py: the generated repository *)

Module GeneratedRepository.
Import Py DatabaseConnection.

(** Keyword arguments, and a record seen through [dc_dict()]: field names
    with their values, in order. *)
Abbreviation Kwargs := (list (str * PyValue)).
Abbreviation Rec := (list (str * PyValue)).

(** The pair [_execute] returns: fetched rows with the cursor, the cursor
    alone, or [(None, None)]. *)
Inductive ExecResult : Type :=
  | Rows (rows : list (list PyValue)) (cursor : Cursor)
  | Cur (cursor : Cursor)
  | Nothing.

Section Repo.
Variable engine : Engine.
Variable table_name : str.

Definition when (b : bool) (m : M Cursor) : M unit :=
  if b then bind m (fun _ => ret tt) else ret tt.

(** The [try] block inside the connection scope of [_execute], with its
    [except] handler. *)
Definition execute_body (query : str) (params : Kwargs)
    (transaction commit fetch_all fetch_one : bool) (conn : Handle) : M ExecResult :=
  try_except
    (bind (when transaction
             (request engine (Execute conn (lit "BEGIN TRANSACTION;") []))) (fun _ =>
     bind (request engine (Execute conn query params)) (fun cursor =>
     if fetch_all then
       bind (request engine (FetchAll conn)) (fun r => ret (Rows (fetched r) cursor))
     else if fetch_one then
       bind (request engine (FetchOne conn)) (fun r => ret (Rows (fetched r) cursor))
     else
       bind (when commit (request engine (Commit conn))) (fun _ =>
       ret (Cur cursor)))))
    (fun _ =>
       bind (when transaction (request engine (Rollback conn))) (fun _ =>
       ret Nothing)).

Definition _execute (query : str) (params : Kwargs)
    (transaction commit fetch_all fetch_one : bool) : M ExecResult :=
  async_with engine (execute_body query params transaction commit fetch_all fetch_one).

(** [dc_to_insertion_query] *)
Definition kept_fields (data : Rec) : Rec :=
  dict_of_items
    (List.filter (fun kv => negb (is_none (snd kv)) || negb (str_eqb (fst kv) (lit "id")))
       data).

Definition dc_to_insertion_query (data : Rec) : str :=
  let _data_dict := kept_fields data in
  let _keys := map fst _data_dict in
  let _cols := join (lit ", ") _keys in
  let _values := join (lit ", ") (map (fun key => lit ":" ++ key) _keys) in
  lit "INSERT OR REPLACE INTO " ++ table_name ++ lit " (" ++ _cols
  ++ lit ") VALUES (" ++ _values ++ lit ")".

Definition has_field (name : str) (data : Rec) : bool :=
  existsb (fun kv => str_eqb (fst kv) name) data.

Definition value_of_rowid (r : option Z) : PyValue :=
  match r with
  | Some z => VInt z
  | None => VNone
  end.

(** [id_check]: the value returned ([None] when there is no cursor) and
    the record after the back-fill of its [id]. *)
Definition id_check (res : ExecResult) (data : Rec) : option bool * Rec :=
  match res with
  | Cur cursor =>
      let data' :=
        if has_field (lit "id") data
           && match dict_get (lit "id") data with
              | Some v => is_none v
              | None => false
              end
        then dict_set (lit "id") (value_of_rowid (lastrowid cursor)) data
        else data in
      (Some (match lastrowid cursor with Some _ => true | None => false end), data')
  | _ => (None, data)
  end.

(** [query_conditions] *)
Definition conditions (kwargs : Kwargs) : str :=
  join (lit " AND ") (map (fun kv => fst kv ++ lit " = :" ++ fst kv) kwargs).

Definition query_conditions (select select_batch delete : bool) (kwargs : Kwargs)
    : result str :=
  let _conditions := conditions kwargs in
  if select then
    Ok (lit "SELECT * FROM " ++ table_name ++ lit " WHERE " ++ _conditions ++ lit " LIMIT 1")
  else if select_batch then
    let batch_conditions :=
      match kwargs with
      | [] => lit "1=1"
      | _ :: _ => _conditions
      end in
    Ok (lit "SELECT * FROM " ++ table_name ++ lit " WHERE " ++ batch_conditions)
  else if delete then
    Ok (lit "DELETE FROM " ++ table_name ++ lit " WHERE " ++ _conditions)
  else Raise (ValueError (lit "Wrong query conditions")).

Definition flag_names : list str := [lit "select"; lit "select_batch"; lit "delete"].

(** [self.query_conditions(mode=True, **kwargs)]: a filter named like
    the mode is a duplicate keyword, a filter named like another flag
    binds that flag, and the other filters reach the builder. *)
Definition call_query_conditions (mode : str) (kwargs : Kwargs) : result str :=
  if has_field mode kwargs then
    Raise (TypeError (lit "got multiple values for keyword argument '" ++ mode ++ lit "'"))
  else
    let flag name :=
      str_eqb name mode
      || match dict_get name kwargs with
         | Some v => truthy v
         | None => false
         end in
    query_conditions (flag (lit "select")) (flag (lit "select_batch")) (flag (lit "delete"))
      (List.filter (fun kv => negb (mem (fst kv) flag_names)) kwargs).

(** [save_single]: the value returned and the record after the call. *)
Definition save_single (data : Rec) : M (option bool * Rec) :=
  let query := dc_to_insertion_query data in
  try_except
    (bind (_execute query data false true false false) (fun res =>
     ret (id_check res data)))
    (fun _ => ret (Some false, data)).

(** The [for] loop of [save_many].  The back-fill of [id_check] acts on
    the caller's record and its returned value is dropped. *)
Fixpoint save_many_loop (data_list : list Rec) : M unit :=
  match data_list with
  | [] => ret tt
  | data :: rest =>
      let query := dc_to_insertion_query data in
      bind (_execute query data true true false false) (fun res =>
      let _ := id_check res data in
      save_many_loop rest)
  end.

Definition save_many (data_list : list Rec) : M bool :=
  match data_list with
  | [] => ret false
  | _ :: _ =>
      try_except
        (bind (save_many_loop data_list) (fun _ => ret true))
        (fun _ => ret false)
  end.

Definition delete (kwargs : Kwargs) : M bool :=
  match call_query_conditions (lit "delete") kwargs with
  | Raise e => raise e
  | Ok query =>
      try_except
        (bind (_execute query kwargs true true false false) (fun res =>
         match res with
         | Cur cursor => ret (0 <? rowcount cursor)%Z
         | _ => ret false
         end))
        (fun _ => ret false)
  end.

End Repo.

End GeneratedRepository.

(** ** repo_factory.py: RepositoryFactory *)

Module RepositoryFactory.
Import Py.

(** A generated repository object: its identity and what it closes over. *)
Record Repository : Type := {
  repo_ident : nat;
  repo_table_name : str;
  repo_schema_fields : Table;
  RepoData : RepoDataClass.DataClass
}.

(** The class attribute [_instances], and the number of repository objects
    built so far. *)
Record Factory : Type := {
  _instances : gmap str Repository;
  built : nat
}.

Definition empty_factory : Factory := {| _instances := ∅; built := 0 |}.

Definition create_repository (table_name : str) (schema_fields : Table)
    (_fields : list str) (f : Factory) : result Repository * Factory :=
  let key := table_name in
  match _instances f !! key with
  | Some r => (Ok r, f)
  | None =>
      match RepoDataClass.call table_name _fields with
      | Raise e => (Raise e, f)
      | Ok dc =>
          let r := {| repo_ident := built f; repo_table_name := table_name;
                      repo_schema_fields := schema_fields; RepoData := dc |} in
          (Ok r, {| _instances := <[key := r]> (_instances f); built := S (built f) |})
      end
  end.

(** The loop of [create_repositories]. *)
Fixpoint create_loop (schema : Schema) (dataclass_fields : list (str * list str))
    (repositories : list (str * Repository)) (f : Factory)
    : result (list (str * Repository)) * Factory :=
  match schema with
  | [] => (Ok repositories, f)
  | (table_name, schema_fields) :: rest =>
      match dict_get table_name dataclass_fields with
      | None => (Raise (KeyError table_name), f)
      | Some _fields =>
          match create_repository table_name schema_fields _fields f with
          | (Raise e, f') => (Raise e, f')
          | (Ok r, f') =>
              create_loop rest dataclass_fields (dict_set table_name r repositories) f'
          end
      end
  end.

Definition create_repositories (schema : Schema)
    (dataclass_fields : list (str * list str)) (f : Factory)
    : result (list (str * Repository)) * Factory :=
  create_loop schema dataclass_fields [] f.

End RepositoryFactory.

(** ** repo_factory.py: loading records *)

Module Loading.
Import Py DatabaseConnection GeneratedRepository RepoDataClass.

(** Calling the record type with keyword arguments: the generated
    [__init__] takes every field as a keyword with its default and refuses
    any other keyword. *)
Definition instantiate (dc : DataClass) (kwargs : Kwargs) : result Rec :=
  match List.find (fun kv => negb (existsb (fun f => str_eqb (fst f) (fst kv)) (dc_fields dc)))
          kwargs with
  | Some kv =>
      Raise (TypeError (lit "__init__() got an unexpected keyword argument '"
                        ++ fst kv ++ lit "'"))
  | None =>
      Ok (map (fun f =>
                 (fst f,
                  match dict_get (fst f) kwargs with
                  | Some v => v
                  | None => snd (snd f)
                  end))
            (dc_fields dc))
  end.

Section Repo.
Variable engine : Engine.
Variable table_name : str.
Variable schema_fields : Table.
Variable RepoData : DataClass.

(** [result_converter]: the record type called with the keywords
    [dict(zip(schema_fields.keys(), result))]. *)
Definition result_converter (row : list PyValue) : result Rec :=
  instantiate RepoData (dict_of_items (combine (map fst schema_fields) row)).

(** [[self.result_converter(result) for result in results]] *)
Fixpoint convert_all (rows : list (list PyValue)) : result (list Rec) :=
  match rows with
  | [] => Ok []
  | row :: rest =>
      match result_converter row with
      | Raise e => Raise e
      | Ok r =>
          match convert_all rest with
          | Raise e => Raise e
          | Ok rs => Ok (r :: rs)
          end
      end
  end.

Definition lift {A : Type} (r : result A) : M A :=
  match r with
  | Ok a => ret a
  | Raise e => raise e
  end.

(** [load_single]: a record, or [None]. *)
Definition load_single (kwargs : Kwargs) : M (option Rec) :=
  match call_query_conditions table_name (lit "select") kwargs with
  | Raise e => raise e
  | Ok query =>
      try_except
        (bind (_execute engine query kwargs false false false true) (fun res =>
         match res with
         | Rows (row :: _) _ =>
             match row with
             | [] => ret None
             | _ :: _ => bind (lift (result_converter row)) (fun r => ret (Some r))
             end
         | _ => ret None
         end))
        (fun _ => ret None)
  end.

(** [load_many]: a list of records. *)
Definition load_many (kwargs : Kwargs) : M (list Rec) :=
  match call_query_conditions table_name (lit "select_batch") kwargs with
  | Raise e => raise e
  | Ok query =>
      try_except
        (bind (_execute engine query kwargs false false true false) (fun res =>
         match res with
         | Rows (row :: rows) _ => lift (convert_all (row :: rows))
         | _ => ret []
         end))
        (fun _ => ret [])
  end.

End Repo.

End Loading.

(** * Vocabulary of the properties *)

(** ** Requests sent to the engine *)

Module Requests.
Import Py DatabaseConnection GeneratedRepository.

(** [emits P m]: running [m] only appends requests that satisfy [P]. *)
Definition emits {A : Type} (P : Request -> Prop) (m : M A) : Prop :=
forall w, exists l, sent (snd (m w)) = sent w ++ l /\ Forall P l.

(** [keeps_manager m]: running [m] leaves the connection manager alone. *)
Definition keeps_manager {A : Type} (m : M A) : Prop :=
forall w, manager (snd (m w)) = manager w.

(** What a connection scope sends besides its body's requests. *)
Definition scope_request (r : Request) : Prop :=
match r with
| Connect _ => True
| Close _ => True
| Execute _ sql params => sql = lit "PRAGMA foreign_keys = ON;" /\ params = []
| _ => False
end.

(** What [_execute] may send for a given statement. *)
Definition execute_request (query : str) (params : Kwargs) (transaction : bool)
(r : Request) : Prop :=
match r with
| Execute _ sql ps =>
(sql = lit "PRAGMA foreign_keys = ON;" /\ ps = [])
\/ (transaction = true /\ sql = lit "BEGIN TRANSACTION;" /\ ps = [])
\/ (sql = query /\ ps = params)
| _ => True
end.

End Requests.

(** ** Record types *)

Module RecordTypes.
Import Py RepoDataClass.

(** The base type of a column declaration: its first token, without a
parenthesized suffix, in upper case. *)
Definition declared_base_type (column_type : str) : str :=
before_first "(" (upper (hd [] (split_ws column_type))).

(** The typing the specification describes: a field's host type follows
the SQL type its column declares, [id] apart. *)
Definition declared_field_type (field_name column_type : str) : HostType * PyValue :=
if str_eqb field_name (lit "id") then (PyInt, VNone)
else
(match dict_get (declared_base_type column_type) type_map with
 | Some t => t
 | None => PyStr
 end, VNone).

(** A products table with a REAL price. *)
Definition products_schema : Schema :=
[(lit "products",
[(lit "id", lit "INTEGER PRIMARY KEY AUTOINCREMENT");
 (lit "name", lit "TEXT NOT NULL");
 (lit "price", lit "REAL")])].

End RecordTypes.

(** ** The repository cache *)

Module Cache.
Import Py RepositoryFactory.

(** A sequence of [create_repository] calls, results dropped. *)
Fixpoint run_requests (reqs : list (str * Table * list str)) (f : Factory) : Factory :=
match reqs with
| [] => f
| (table_name, schema_fields, _fields) :: rest =>
run_requests rest (snd (create_repository table_name schema_fields _fields f))
end.

End Cache.

(** ** Engines and operations *)

Module Operations.
Import Py DatabaseConnection GeneratedRepository.

Definition plain_cursor : Cursor :=
{| lastrowid := Some 1%Z; rowcount := 1; fetched := []; description := [] |}.

(** An engine that refuses exactly the requests [bad] selects. *)
Definition refusing (bad : Request -> bool) : Engine :=
fun _ r => if bad r then None else Some plain_cursor.

(** The engine accepts everything but, possibly, a statement of the
caller: connecting, closing, the PRAGMA, BEGIN, commit, rollback and
fetches go through. *)
Definition refuses_only_statements (engine : Engine) : Prop :=
forall hist r,
engine hist r = None ->
exists h sql params,
r = Execute h sql params
/\ sql <> lit "BEGIN TRANSACTION;"
/\ sql <> lit "PRAGMA foreign_keys = ON;".

(** A manager for a database file, not connected yet. *)
Definition fresh_manager : Manager :=
{| db_path := lit "hive/hive_1.db"; conn := None; has_foreign_keys := false |}.



(** An engine with a NOT NULL column [name]: it refuses an INSERT that
binds [name] to null. *)
Definition binds_name_to_null (r : Request) : bool :=
match r with
| Execute _ sql params =>
startswith (lit "INSERT") sql
&& match dict_get (lit "name") params with
 | Some VNone => true
 | _ => false
 end
| _ => false
end.


End Operations.

Module Control.
Import Py DatabaseConnection.

(** The requests that are not a statement of the caller. *)
Definition is_control (r : Request) : Prop :=
match r with
| Execute _ sql _ => sql = lit "BEGIN TRANSACTION;" \/ sql = lit "PRAGMA foreign_keys = ON;"
| _ => True
end.

End Control.

Module Batches.
Import Py DatabaseConnection GeneratedRepository.

(** Two records for a table [users(id, name NOT NULL)]: the first has no
name. *)
Definition nameless : Rec := [(lit "id", VNone); (lit "name", VNone)].
Definition bob : Rec := [(lit "id", VNone); (lit "name", VStr (lit "Bob"))].

End Batches.

(** ** Validation *)

Module Validation.
Import Py SchemaValidator.

(** The members of a schema in iteration order, each with its table. *)
Definition members (schema : Schema) : list (str * str * str) :=
flat_map (fun entry => map (fun member => (fst entry, fst member, snd member)) (snd entry))
schema.

(** The base type as the specification extracts it from the first token of
a definition: the parenthesized suffix stripped, then upper case. *)
Definition spec_base_type (tok : str) : str := upper (before_first "(" tok).

(** A member the validator lets pass: a constraint by its name, or a column
whose first token is one of the four keywords or has a recognized base
type. *)
Definition accepted (required : list str) (m : str * str * str) : bool :=
let '(_, column_name, column_type) := m in
is_constraint_name column_name
|| match split_ws column_type with
 | [] => false
 | tok :: _ =>
 mem (upper tok) constraint_keywords || mem (spec_base_type tok) required
 end.

(** The two loops of [validate] as one pass over the members. *)
Fixpoint validate_members (required : list str) (ms : list (str * str * str))
: result unit :=
match ms with
| [] => Ok tt
| (table, column_name, column_type) :: rest =>
match validate_column required table column_name column_type with
| Ok _ => validate_members required rest
| Raise e => Raise e
end
end.

(** C5 as the specification words it: the first data column whose base
type is not recognized makes [validate] fail with an error that names
it. *)
Definition fails_on_first_mismatch (schema : Schema) (sql_types : option (list str)) : Prop :=
forall pre table column_name column_type post tok rest,
members schema = pre ++ (table, column_name, column_type) :: post ->
forallb (accepted (required_sql_types sql_types)) pre = true ->
is_constraint_name column_name = false ->
split_ws column_type = tok :: rest ->
mem (spec_base_type tok) (required_sql_types sql_types) = false ->
validate schema sql_types
= Raise (ValueError (invalid_type_msg (spec_base_type tok) table column_name)).

(** The base type token of a definition, as [validate] computes it last. *)
Definition base_type_token (column_type : str) : option str :=
match split_ws column_type with
| [] => None
| tok :: _ => Some (before_first "(" (upper tok))
end.

(** C10 as the specification words it: [validate] raises exactly when some
data column has a base type token outside the recognized set and
outside the four keywords. *)
Definition raises_iff_unrecognized (schema : Schema) (sql_types : option (list str)) : Prop :=
(exists e, validate schema sql_types = Raise e)
<-> exists table column_name column_type base,
In (table, column_name, column_type) (members schema)
/\ is_constraint_name column_name = false
/\ base_type_token column_type = Some base
/\ mem base (required_sql_types sql_types) = false
/\ mem base constraint_keywords = false.

(** A data column that makes [validate] raise: its definition has no token,
or its first token is none of the four keywords and its base type is
not recognized. *)
Definition offending (required : list str) (m : str * str * str) : Prop :=
let '(_, column_name, column_type) := m in
is_constraint_name column_name = false
/\ (split_ws column_type = []
\/ exists tok rest,
 split_ws column_type = tok :: rest
 /\ mem (upper tok) constraint_keywords = false
 /\ mem (before_first "(" (upper tok)) required = false).

End Validation.

(** ** Splitting a table body *)

Module Splitting.
Import Py.

(** The paren depth after one more character. *)
Definition step_depth (d : Z) (c : ascii) : Z :=
if ascii_eqb c "(" then (d + 1)%Z
else if ascii_eqb c ")" then (d - 1)%Z
else d.

(** The paren depth after a text, from depth [d]. *)
Definition depth_after (d : Z) (s : str) : Z := fold_left step_depth s d.

(** The paren depth in front of position [i] of a body. *)
Definition depth_at (body : str) (i : nat) : Z := depth_after 0 (firstn i body).

(** Position [i] holds a top-level comma. *)
Definition top_level_comma (body : str) (i : nat) : bool :=
ascii_eqb (nth i body " "%char) "," && (depth_at body i =? 0)%Z.

(** The positions of the top-level commas, ascending. *)
Definition top_commas (body : str) : list nat :=
List.filter (top_level_comma body) (seq 0 (length body)).

(** The texts between the given positions of [s], whose first character has
position [offset]; the characters at the positions are dropped. *)
Fixpoint cut_at (offset : nat) (positions : list nat) (s : str) : list str :=
match positions with
| [] => [s]
| p :: rest => firstn (p - offset) s :: cut_at (S p) rest (skipn (S (p - offset)) s)
end.

(** The member splitting the specification describes: the body is cut at
its top-level commas, every piece is stripped, and a blank last piece is
left out. *)
Definition split_top_level (body : str) : list str :=
let pieces := cut_at 0 (top_commas body) body in
match strip (List.last pieces []) with
| [] => map strip (removelast pieces)
| _ :: _ => map strip pieces
end.

(** The raw pieces the loop of [_split_columns] walks through, from depth
[d] with [current] collected so far. *)
Fixpoint pieces_from (d : Z) (current : str) (s : str) : list str :=
match s with
| [] => [current]
| c :: s' =>
if ascii_eqb c "," && (d =? 0)%Z then current :: pieces_from d [] s'
else pieces_from (step_depth d c) (current ++ [c]) s'
end.

(** The positions of the top-level commas of [s], whose first character has
position [i] and depth [d]. *)
Fixpoint commas_from (d : Z) (i : nat) (s : str) : list nat :=
match s with
| [] => []
| c :: s' =>
if ascii_eqb c "," && (d =? 0)%Z then i :: commas_from d (S i) s'
else commas_from (step_depth d c) (S i) s'
end.

(** [current] put in front of the first piece. *)
Definition prepend (current : str) (pieces : list str) : list str :=
match pieces with
| [] => [current]
| p :: rest => (current ++ p) :: rest
end.

(** A clause is closed: read from depth 0 it has no comma at depth 0 and
ends at depth 0. *)
Fixpoint closed_from (d : Z) (s : str) : bool :=
match s with
| [] => (d =? 0)%Z
| c :: s' =>
negb (ascii_eqb c "," && (d =? 0)%Z) && closed_from (step_depth d c) s'
end.

Definition closed (clause : str) : bool := closed_from 0 clause.

(** The body of the product reviews table of the sources. *)
Definition reviews_body : str :=
lit "id INTEGER PRIMARY KEY, rating INTEGER CHECK(rating >= 1 AND rating <= 5), price DECIMAL(10, 2) NOT NULL".

End Splitting.

(** ** Rendering a schema and parsing it back *)

Module RoundTrip.
Import Py SchemaParser SqlStrToDict Splitting.

(** The data columns of a table, in order: the members the generator does
not take for constraints. *)
Definition data_columns (table : Table) : list str :=
List.filter (fun name => negb (is_constraint name)) (map fst table).

Definition data_column_lists (schema : Schema) : list (str * list str) :=
map (fun entry => (fst entry, data_columns (snd entry))) schema.

(** The tables of two schemas have the same data-column sets. *)
Definition same_data_columns (a b : Schema) : Prop :=
(forall t, dict_get t a = None <-> dict_get t b = None)
/\ forall t ca cb,
 dict_get t a = Some ca -> dict_get t b = Some cb ->
 forall c, In c (data_columns ca) <-> In c (data_columns cb).

(** C7 as the specification words it. *)
Definition round_trips (schema : Schema) (idxs : option (list str)) : Prop :=
exists parsed,
parse (fst (generate_sql schema idxs)) = Ok parsed
/\ same_data_columns schema parsed.

(** The text holds [");"]. *)
Definition has_close (s : str) : bool :=
match until_close s with
| Some _ => true
| None => false
end.

(** The text holds [p] somewhere, letter case ignored. *)
Fixpoint occurs_ci (p s : str) : bool :=
startswith_ci p s
|| match s with
 | [] => false
 | _ :: s' => occurs_ci p s'
 end.

Definition blank (s : str) : bool := forallb isspace s.

Definition nonempty (s : str) : bool :=
match s with
| [] => false
| _ :: _ => true
end.

(** The clause splits into a first token and a remainder. *)
Definition two_parts (s : str) : bool :=
match split_ws1 s with
| [_; _] => true
| _ => false
end.

Fixpoint distinct (names : list str) : bool :=
match names with
| [] => true
| n :: rest => negb (mem n rest) && distinct rest
end.

(** A member the parser reads back as the generator wrote it.  Its clause
[name definition] has balanced parentheses around every comma and no
[");"].  A data column has a name without whitespace and a definition
that is not blank, and its clause does not begin with FOREIGN KEY or
PRIMARY KEY in any letter case.  A FOREIGN KEY or PRIMARY KEY
constraint has a closing parenthesis; any other constraint has at
least two whitespace-separated parts. *)
Definition member_ok (m : str * str) : bool :=
let '(name, definition) := m in
let clause := render_member name definition in
closed clause
&& negb (has_close clause)
&& if is_constraint name then
 if startswith (lit "FOREIGN KEY") name || startswith (lit "PRIMARY KEY") name
 then existsb (fun c => ascii_eqb c ")") clause
 else two_parts (strip clause)
 else
 nonempty name
 && forallb (fun c => negb (isspace c)) name
 && negb (blank definition)
 && negb (startswith_ci (lit "FOREIGN KEY") clause)
 && negb (startswith_ci (lit "PRIMARY KEY") clause).

(** A table the parser reads back: its name is a word, its members are
distinct and well formed, and no index statement generated for it
holds the text CREATE TABLE. *)
Definition table_ok (idxs : option (list str)) (entry : str * Table) : bool :=
let '(table_name, columns) := entry in
nonempty table_name
&& forallb isword table_name
&& distinct (map fst columns)
&& forallb member_ok columns
&& forallb (fun name =>
 negb (hinted idxs name)
 || negb (occurs_ci (lit "CREATE TABLE") (index_sql table_name name)))
 (map fst columns).

Definition renderable (schema : Schema) (idxs : option (list str)) : bool :=
distinct (map fst schema) && forallb (table_ok idxs) schema.

(** A schema with a comma in a default value. *)
Definition contacts_schema : Schema :=
[(lit "contacts",
[(lit "id", lit "INTEGER PRIMARY KEY AUTOINCREMENT");
 (lit "address", lit "TEXT DEFAULT 'Unknown, N/A'")])].

(** The orders and order items tables of the tests. *)
Definition orders_schema : Schema :=
[(lit "orders",
[(lit "id", lit "INTEGER PRIMARY KEY AUTOINCREMENT");
 (lit "customer_id", lit "INTEGER");
 (lit "total_amount", lit "DECIMAL(10, 2) NOT NULL");
 (lit "status", lit "TEXT DEFAULT 'pending'");
 (lit "FOREIGN KEY(customer_id)", lit "REFERENCES customers(id) ON DELETE CASCADE")]);
 (lit "order_items",
[(lit "order_id", lit "INTEGER");
 (lit "product_id", lit "INTEGER");
 (lit "quantity", lit "INTEGER CHECK(quantity > 0)");
 (lit "PRIMARY KEY", lit "(order_id, product_id)");
 (lit "FOREIGN KEY(order_id)", lit "REFERENCES orders(id) ON DELETE CASCADE")])].

(** The members of the table [order_items]. *)
Definition order_items_fields : Table :=
[(lit "order_id", lit "INTEGER");
 (lit "product_id", lit "INTEGER");
 (lit "quantity", lit "INTEGER CHECK(quantity > 0)");
 (lit "PRIMARY KEY", lit "(order_id, product_id)");
 (lit "FOREIGN KEY(order_id)", lit "REFERENCES orders(id) ON DELETE CASCADE")].

End RoundTrip.

(** ** The statements of a script *)

Module Script.
Import Py SchemaParser SqlStrToDict RoundTrip.

Definition is_data (m : str * str) : bool := negb (is_constraint (fst m)).

Definition render (m : str * str) : str := render_member (fst m) (snd m).

(** The clauses of a table statement: data columns, then constraints. *)
Definition clauses (columns : Table) : list str :=
map render (List.filter is_data columns)
++ map render (List.filter (fun m => is_constraint (fst m)) columns).

Definition index_statements (idxs : option (list str)) (table_name : str)
(columns : Table) : list str :=
map (index_sql table_name) (List.filter (hinted idxs) (map fst columns)).

(** The statements generated for one table, and for a schema. *)
Definition table_statements (idxs : option (list str)) (entry : str * Table) : list str :=
create_table_sql (fst entry) (clauses (snd entry))
:: index_statements idxs (fst entry) (snd entry).

Definition statements (idxs : option (list str)) (schema : Schema) : list str :=
flat_map (table_statements idxs) schema.

(** The texts of a list, each after a blank line. *)
Definition after_blank_lines (xs : list str) : str :=
flat_map (fun x => [nl; nl] ++ x) xs.

(** What the statement search is to find in a list of statements. *)
Definition table_statements_of (xs : list str) : list str :=
List.filter (startswith_ci (lit "CREATE TABLE")) xs.

(** A text the statement search passes over, or a table statement: the
words CREATE TABLE, a text without [");"], and [");"]. *)
Definition statement_ok (x : str) : Prop :=
occurs_ci (lit "CREATE TABLE") x = false
\/ exists q, x = lit "CREATE TABLE" ++ q ++ lit ");" /\ has_close q = false.

End Script.

Module Closing.
Import Py.

(** The text ends with [")"]; the text starts with [";"]. *)
Definition ends_close (s : str) : bool :=
match rev s with
| c :: _ => ascii_eqb c ")"
| [] => false
end.

Definition starts_semi (s : str) : bool :=
match s with
| c :: _ => ascii_eqb c ";"
| [] => false
end.

End Closing.

Module Bodies.
Import Py SchemaParser.

(** The separator between two clauses of a table statement, and the text
between the parentheses of the statement. *)
Definition clause_sep : str := lit "," ++ [nl] ++ lit "    ".

Definition table_body (all_defs : list str) : str :=
[nl] ++ lit "    " ++ join clause_sep all_defs ++ [nl].

End Bodies.

Module Pieces.
Import Py SchemaParser Bodies.

(** The blanks in front of a clause in a table statement. *)
Definition clause_lead : str := [nl] ++ lit "    ".

(** The raw pieces of a body: every clause after its leading blanks, the
last one with the trailing blanks as well. *)
Fixpoint spaced (lead : str) (all_defs : list str) (trail : str) : list str :=
match all_defs with
| [] => [lead ++ trail]
| [r] => [lead ++ r ++ trail]
| r :: rest => (lead ++ r) :: spaced clause_lead rest trail
end.

End Pieces.

Module Members.
Import Py SqlStrToDict.

(** The branch of [_extract_columns] taken for one stripped member. *)
Definition classify (col : str) : result (str * str) :=
if startswith (lit "FOREIGN KEY") (upper col)
 || startswith (lit "PRIMARY KEY") (upper col)
then _parse_constraint col
else _parse_column col.

End Members.

(** ** Shapes of what the parser returns *)

Module Shapes.
Import Py SqlStrToDict RoundTrip.

(** A statement as the statement search returns it: it begins with CREATE
TABLE in some letter case, ends with [");"] and holds no other [");"]
after its first twelve characters. *)
Definition table_statement (x : str) : Prop :=
startswith_ci (lit "CREATE TABLE") x = true
/\ exists q, x = firstn 12 x ++ q ++ lit ");" /\ has_close q = false.

(** A member whose name and definition carry no white space around them. *)
Definition stripped (m : str * str) : Prop :=
strip (fst m) = fst m /\ strip (snd m) = snd m.

(** A parsed table: a name of word characters, members under distinct
names, each stripped. *)
Definition table_shape (entry : str * Table) : Prop :=
fst entry <> [] /\ forallb isword (fst entry) = true
/\ List.NoDup (map fst (snd entry)) /\ Forall stripped (snd entry).

End Shapes.

(** ** The requests of one execution *)

Module Traces.
Import Py DatabaseConnection GeneratedRepository.

(** An engine that accepts every request. *)
Definition accepts_all (engine : Engine) : Prop :=
forall hist r, exists c, engine hist r = Some c.

(** The engine refuses the statement whenever it is sent. *)
Definition refuses_statement (engine : Engine) (query : str) (params : Kwargs) : Prop :=
forall hist h, engine hist (Execute h query params) = None.

Definition pragma (h : Handle) : Request :=
Execute h (lit "PRAGMA foreign_keys = ON;") [].

(** The handle a connection scope works on, and what entering the scope
sends: nothing when a handle is held, else the connection and, for a
schema with foreign keys, the PRAGMA. *)
Definition entering (w : World) : Handle * list Request :=
match conn (manager w) with
| Some h => (h, [])
| None =>
(opened w,
 Connect (db_path (manager w))
 :: (if has_foreign_keys (manager w) then [pragma (opened w)] else []))
end.

Definition beginning (transaction : bool) (h : Handle) : list Request :=
if transaction then [Execute h (lit "BEGIN TRANSACTION;") []] else [].

(** What follows an accepted statement. *)
Definition finishing (commit fetch_all fetch_one : bool) (h : Handle) : list Request :=
if fetch_all then [FetchAll h]
else if fetch_one then [FetchOne h]
else if commit then [Commit h] else [].

(** What follows a refused statement. *)
Definition undoing (transaction : bool) (h : Handle) : list Request :=
if transaction then [Rollback h] else [].

Definition is_rows (res : ExecResult) : bool :=
match res with
| Rows _ _ => true
| _ => false
end.

Definition cursor_of (res : ExecResult) : option Cursor :=
match res with
| Rows _ c => Some c
| Cur c => Some c
| Nothing => None
end.

End Traces.

(** ** Engines and worlds for the examples *)

Module Examples.
Import Py DatabaseConnection GeneratedRepository Operations Traces.

(** An engine that refuses the INSERT statements. *)
Definition rejects_inserts (r : Request) : bool :=
match r with
| Execute _ sql _ => startswith (lit "INSERT") sql
| _ => false
end.

(** An engine that refuses the PRAGMA. *)
Definition rejects_pragma (r : Request) : bool :=
match r with
| Execute _ sql _ => str_eqb sql (lit "PRAGMA foreign_keys = ON;")
| _ => false
end.

(** A manager for a schema with foreign keys. *)
Definition keyed_manager : Manager :=
{| db_path := lit "hive/hive_1.db"; conn := None; has_foreign_keys := true |}.

Definition alice : Rec := [(lit "id", VNone); (lit "name", VStr (lit "Alice"))].

(** An engine that accepts everything and answers every fetch with
[rows]. *)
Definition serving (rows : list (list PyValue)) : Engine :=
fun _ r =>
match r with
| FetchAll _ | FetchOne _ =>
Some {| lastrowid := None; rowcount := -1; fetched := rows; description := [] |}
| _ => Some plain_cursor
end.

(** A table [users] and its record type. *)
Definition users_fields : Table :=
[(lit "id", lit "INTEGER PRIMARY KEY"); (lit "name", lit "TEXT NOT NULL")].

Definition users_record : RepoDataClass.DataClass :=
{| RepoDataClass.dc_name := lit "UsersRepoData";
 RepoDataClass.dc_fields :=
 [(lit "id", (RepoDataClass.PyInt, VNone)); (lit "name", (RepoDataClass.PyStr, VNone))] |}.

End Examples.

(** ** Filters *)

Module Filters.
Import Py DatabaseConnection GeneratedRepository.

(** No filter is named like a mode flag of [query_conditions]. *)
Definition plain_filters (kwargs : Kwargs) : bool :=
forallb (fun kv => negb (mem (fst kv) flag_names)) kwargs.

(** The condition text of a batch selection. *)
Definition batch_conditions (kwargs : Kwargs) : str :=
match kwargs with
| [] => lit "1=1"
| _ :: _ => conditions kwargs
end.

Definition or_empty {A : Type} (r : result (list A)) : list A :=
match r with
| Ok l => l
| Raise _ => []
end.

Definition or_none {A : Type} (r : result A) : option A :=
match r with
| Ok a => Some a
| Raise _ => None
end.

End Filters.

(** ** The life of a connection handle *)

Module Lifetime.
Import Py DatabaseConnection GeneratedRepository Loading.

(** The operations of a repository. *)
Inductive Operation : Type :=
| SaveSingle (data : Rec)
| SaveMany (data_list : list Rec)
| LoadSingle (kwargs : Kwargs)
| LoadMany (kwargs : Kwargs)
| Delete (kwargs : Kwargs).

(** The world an operation leaves, whether it returned or raised. *)
Definition after (engine : Engine) (table_name : str) (schema_fields : Table)
(RepoData : RepoDataClass.DataClass) (op : Operation) (w : World) : World :=
match op with
| SaveSingle data => snd (save_single engine table_name data w)
| SaveMany data_list => snd (save_many engine table_name data_list w)
| LoadSingle kwargs => snd (load_single engine table_name schema_fields RepoData kwargs w)
| LoadMany kwargs => snd (load_many engine table_name schema_fields RepoData kwargs w)
| Delete kwargs => snd (delete engine table_name kwargs w)
end.








End Lifetime.

(** * Properties *)

(** ** Strings and dicts *)

Section PyFacts.
Import Py.

Lemma str_eqb_eq (s t : str) : str_eqb s t = true <-> s = t.
Proof.
  revert t; induction s as [|a s IH]; intros [|b t]; simpl; split;
    try congruence; try discriminate.
  - intros H. apply andb_prop in H as [Hab Hst].
    apply Ascii.eqb_eq in Hab. apply IH in Hst. congruence.
  - intros H. injection H as -> ->. apply andb_true_intro. split.
    + apply Ascii.eqb_refl.
    + now apply IH.
Qed.

Lemma str_eqb_refl (s : str) : str_eqb s s = true.
Proof. now apply str_eqb_eq. Qed.

Lemma str_eqb_neq (s t : str) : str_eqb s t = false <-> s <> t.
Proof.
  split.
  - intros H E. apply str_eqb_eq in E. congruence.
  - intros H. destruct (str_eqb s t) eqn:E; [|reflexivity].
    apply str_eqb_eq in E. contradiction.
Qed.

Lemma mem_In (x : str) (xs : list str) : mem x xs = true <-> In x xs.
Proof.
  unfold mem. rewrite existsb_exists. split.
  - intros (y & Hy & E). apply str_eqb_eq in E. now subst.
  - intros H. exists x. split; [assumption | apply str_eqb_refl].
Qed.

Lemma dict_set_fresh {V : Type} (k : str) (v : V) (d : list (str * V)) :
  ~ In k (map fst d) -> dict_set k v d = d ++ [(k, v)].
Proof.
  induction d as [|[k' v'] d IH]; simpl; intros H; [reflexivity|].
  destruct (str_eqb k' k) eqn:E.
  - apply str_eqb_eq in E. subst. tauto.
  - rewrite IH; [reflexivity | tauto].
Qed.

Lemma fold_dict_set_fresh {V : Type} (items d : list (str * V)) :
  List.NoDup (map fst (d ++ items)) ->
  fold_left (fun d kv => dict_set (fst kv) (snd kv) d) items d = d ++ items.
Proof.
  revert d; induction items as [|[k v] items IH]; intros d H; simpl.
  - now rewrite app_nil_r.
  - rewrite dict_set_fresh.
    + rewrite IH; rewrite <- app_assoc; [reflexivity | exact H].
    + rewrite map_app in H. simpl in H. apply List.NoDup_remove_2 in H.
      intros Hin. apply H. apply in_or_app. now left.
Qed.

(** Building a dict from items with distinct keys keeps the items. *)
Lemma dict_of_items_nodup {V : Type} (items : list (str * V)) :
  List.NoDup (map fst items) -> dict_of_items items = items.
Proof. intros H. unfold dict_of_items. now rewrite fold_dict_set_fresh. Qed.

Lemma NoDup_map_fst_filter {V : Type} (p : str * V -> bool) (l : list (str * V)) :
  List.NoDup (map fst l) -> List.NoDup (map fst (List.filter p l)).
Proof.
  induction l as [|x l IH]; simpl; intros H; [constructor|].
  apply List.NoDup_cons_iff in H as [Hx Hl].
  destruct (p x); simpl; [|now apply IH].
  apply List.NoDup_cons_iff. split; [|now apply IH].
  intros Hin. apply Hx. apply in_map_iff in Hin as (y & Hy & Hin).
  apply filter_In in Hin as [Hin _]. apply in_map_iff. now exists y.
Qed.

End PyFacts.

(** ** The requests a computation sends *)

Section MonadFacts.
Import Py DatabaseConnection GeneratedRepository Requests.
Variable engine : Engine.

Lemma emits_ret {A : Type} (P : Request -> Prop) (a : A) : emits P (ret a).
Proof. intros w. exists []. simpl. now rewrite app_nil_r. Qed.

Lemma emits_raise {A : Type} (P : Request -> Prop) (e : exn) : emits P (@raise A e).
Proof. intros w. exists []. simpl. now rewrite app_nil_r. Qed.

Lemma emits_request (P : Request -> Prop) (r : Request) :
  P r -> emits P (request engine r).
Proof.
  intros H w. exists [r]. split; [|now repeat constructor].
  unfold request. now destruct (engine (sent w) r).
Qed.

Lemma emits_bind {A B : Type} (P : Request -> Prop) (m : M A) (k : A -> M B) :
  emits P m -> (forall a, emits P (k a)) -> emits P (bind m k).
Proof.
  intros Hm Hk w. unfold bind. destruct (Hm w) as (l1 & E1 & F1).
  destruct (m w) as [[a|e] w1]; simpl in *.
  - destruct (Hk a w1) as (l2 & E2 & F2). exists (l1 ++ l2). split.
    + now rewrite E2, E1, <- app_assoc.
    + now apply Forall_app.
  - now exists l1.
Qed.

Lemma emits_try_except {A : Type} (P : Request -> Prop) (m : M A) (k : exn -> M A) :
  emits P m -> (forall e, emits P (k e)) -> emits P (try_except m k).
Proof.
  intros Hm Hk w. unfold try_except. destruct (Hm w) as (l1 & E1 & F1).
  destruct (m w) as [[a|e] w1]; simpl in *.
  - now exists l1.
  - destruct (Hk e w1) as (l2 & E2 & F2). exists (l1 ++ l2). split.
    + now rewrite E2, E1, <- app_assoc.
    + now apply Forall_app.
Qed.

Lemma emits_when (P : Request -> Prop) (b : bool) (r : Request) :
  P r -> emits P (when b (request engine r)).
Proof.
  intros H. destruct b; simpl; [|apply emits_ret].
  apply emits_bind; [now apply emits_request | intros; apply emits_ret].
Qed.

Lemma emits_set_conn (P : Request -> Prop) (c : option Handle) : emits P (set_conn c).
Proof. intros w. exists []. simpl. now rewrite app_nil_r. Qed.

Lemma emits_get_manager (P : Request -> Prop) : emits P get_manager.
Proof. intros w. exists []. simpl. now rewrite app_nil_r. Qed.

Lemma emits_connect (P : Request -> Prop) (path : str) :
  P (Connect path) -> emits P (connect engine path).
Proof.
  intros H w. destruct (emits_request P _ H w) as (l & E & F).
  exists l. split; [|assumption]. unfold connect.
  destruct (request engine (Connect path) w) as [[c|e] w1]; simpl in *; assumption.
Qed.

Lemma emits_aenter (P : Request -> Prop) :
  (forall r, scope_request r -> P r) -> emits P (__aenter__ engine).
Proof.
  intros H. unfold __aenter__. apply emits_bind; [apply emits_get_manager|].
  intros m. destruct (conn m); [apply emits_ret|].
  apply emits_bind; [apply emits_connect, H; exact I|]. intros h.
  apply emits_bind; [apply emits_set_conn|]. intros _.
  apply emits_bind; [|intros; apply emits_ret].
  destruct (has_foreign_keys m); [|apply emits_ret].
  apply emits_bind; [|intros; apply emits_ret].
  apply emits_request, H. simpl. auto.
Qed.

Lemma emits_aexit (P : Request -> Prop) :
  (forall r, scope_request r -> P r) -> emits P (__aexit__ engine).
Proof.
  intros H. unfold __aexit__. apply emits_bind; [apply emits_get_manager|].
  intros m. destruct (conn m); [|apply emits_ret].
  apply emits_bind; [apply emits_request, H; exact I|].
  intros; apply emits_set_conn.
Qed.

Lemma emits_async_with {A : Type} (P : Request -> Prop) (body : Handle -> M A) :
  (forall r, scope_request r -> P r) ->
  (forall h, emits P (body h)) -> emits P (async_with engine body).
Proof.
  intros H Hb. unfold async_with. apply emits_bind; [now apply emits_aenter|].
  intros h w. destruct (Hb h w) as (l1 & E1 & F1).
  destruct (body h w) as [r w1]; simpl in *.
  destruct (emits_aexit P H w1) as (l2 & E2 & F2).
  exists (l1 ++ l2). split; [|now apply Forall_app].
  destruct (__aexit__ engine w1) as [[u|e] w2]; simpl in *;
    now rewrite E2, E1, <- app_assoc.
Qed.

Lemma emits_execute_body (query : str) (params : Kwargs)
    (transaction commit fetch_all fetch_one : bool) (h : Handle) :
  emits (execute_request query params transaction)
    (execute_body engine query params transaction commit fetch_all fetch_one h).
Proof.
  unfold execute_body. apply emits_try_except.
  - apply emits_bind.
    { destruct transaction; simpl; [|apply emits_ret].
      apply emits_bind; [|intros; apply emits_ret].
      apply emits_request. simpl. auto. }
    intros _. apply emits_bind; [apply emits_request; simpl; auto|].
    intros c. destruct fetch_all.
    { apply emits_bind; [now apply emits_request | intros; apply emits_ret]. }
    destruct fetch_one.
    { apply emits_bind; [now apply emits_request | intros; apply emits_ret]. }
    apply emits_bind; [|intros; apply emits_ret].
    apply emits_when. exact I.
  - intros e. apply emits_bind; [|intros; apply emits_ret].
    apply emits_when. exact I.
Qed.

Lemma emits_execute (query : str) (params : Kwargs)
    (transaction commit fetch_all fetch_one : bool) :
  emits (execute_request query params transaction)
    (_execute engine query params transaction commit fetch_all fetch_one).
Proof.
  unfold _execute. apply emits_async_with.
  - intros [] Hr; simpl in *; auto; contradiction.
  - intros h. apply emits_execute_body.
Qed.

End MonadFacts.

(** ** The statement of save_single *)

Section InsertionQuery.
Import Py DatabaseConnection GeneratedRepository Requests.

Lemma kept_iff (k : str) (v : PyValue) :
  negb (is_none v) || negb (str_eqb k (lit "id")) = true <-> v <> VNone \/ k <> lit "id".
Proof.
  rewrite orb_true_iff, !negb_true_iff, str_eqb_neq.
  destruct v; simpl; intuition congruence.
Qed.

Lemma kept_fields_filter (data : Rec) :
  List.NoDup (map fst data) ->
  kept_fields data =
  List.filter (fun kv => negb (is_none (snd kv)) || negb (str_eqb (fst kv) (lit "id"))) data.
Proof.
  intros H. unfold kept_fields. apply dict_of_items_nodup.
  now apply NoDup_map_fst_filter.
Qed.

Lemma sublist_map_fst_filter {V : Type} (p : str * V -> bool) (l : list (str * V)) :
  sublist (map fst (List.filter p l)) (map fst l).
Proof.
  induction l as [|x l IH]; simpl; [constructor|].
  destruct (p x); simpl; now constructor.
Qed.

Lemma save_single_requests (engine : Engine) (table_name : str) (data : Rec) (w : World)
    (h : Handle) (sql : str) (params : Kwargs) :
  In (Execute h sql params) (sent (snd (save_single engine table_name data w))) ->
  In (Execute h sql params) (sent w)
  \/ (sql = lit "PRAGMA foreign_keys = ON;" /\ params = [])
  \/ (sql = dc_to_insertion_query table_name data /\ params = data).
Proof.
  assert (E : emits (execute_request (dc_to_insertion_query table_name data) data false)
                (save_single engine table_name data)).
  { unfold save_single. apply emits_try_except.
    - apply emits_bind; [now apply emits_execute | intros; apply emits_ret].
    - intros; apply emits_ret. }
  destruct (E w) as (l & -> & F). rewrite in_app_iff. intros [H|H]; [now left|right].
  rewrite List.Forall_forall in F. apply F in H. simpl in H.
  destruct H as [H|[H|H]]; [now left | | now right].
  destruct H as [H _]. discriminate.
Qed.

End InsertionQuery.
(** ** Record types *)

Section RecordTypeFacts.
Import Py SchemaParser RepoDataClass RepositoryFactory RecordTypes.

(** The record type of a repository does not depend on the declarations of
    its table. *)
Lemma create_repository_ignores_declarations (table_name : str)
    (schema_fields schema_fields' : Table) (_fields : list str) (f : Factory) :
  match fst (create_repository table_name schema_fields _fields f),
        fst (create_repository table_name schema_fields' _fields f) with
  | Ok r, Ok r' => RepoData r = RepoData r'
  | Raise e, Raise e' => e = e'
  | _, _ => False
  end.
Proof.
  unfold create_repository.
  destruct (_instances f !! table_name); simpl; [reflexivity|].
  destruct (call table_name _fields); simpl; reflexivity.
Qed.

(** C3.  On the schema [products(id INTEGER PRIMARY KEY AUTOINCREMENT, name
    TEXT NOT NULL, price REAL)] the generated record type has the fields
    [id], [name] and [price], all defaulting to null, [id] an integer; but
    [price] is typed as a string although its column declares REAL, for
    which the mapping of the specification gives float: [field_type] looks
    the field's name up in the type map, not the declared SQL type, and
    the type of [price] stays a string whatever its column declares. *)
Theorem price_field_typed_by_name :
  (exists r f,
     create_repositories products_schema (snd (generate_sql products_schema None))
       empty_factory = (Ok [(lit "products", r)], f)
     /\ dc_fields (RepoData r) =
          [(lit "id", (PyInt, VNone)); (lit "name", (PyStr, VNone));
           (lit "price", (PyStr, VNone))])
  /\ field_type (lit "price") = (PyStr, VNone)
  /\ declared_field_type (lit "price") (lit "REAL") = (PyFloat, VNone)
  /\ (forall column_type : str,
        exists r f,
          create_repository (lit "products")
            [(lit "id", lit "INTEGER"); (lit "price", column_type)]
            [lit "id"; lit "price"] empty_factory = (Ok r, f)
          /\ dc_fields (RepoData r) =
               [(lit "id", (PyInt, VNone)); (lit "price", (PyStr, VNone))]).
Proof.
  split.
  { eexists. eexists. split; [vm_compute; reflexivity | reflexivity]. }
  repeat split.
  intros column_type. eexists. eexists. split; reflexivity.
Qed.

End RecordTypeFacts.

(** ** The repository cache *)

Section CacheFacts.
Import Py RepositoryFactory Cache.

Lemma create_repository_keeps (table_name k : str) (schema_fields : Table)
    (_fields : list str) (f : Factory) (r : Repository) :
  _instances f !! k = Some r ->
  _instances (snd (create_repository table_name schema_fields _fields f)) !! k = Some r.
Proof.
  intros H. unfold create_repository.
  destruct (_instances f !! table_name) eqn:E; simpl; [exact H|].
  destruct (RepoDataClass.call table_name _fields); simpl; [|exact H].
  rewrite lookup_insert_ne; [exact H|]. intros ->. congruence.
Qed.

Lemma run_requests_keeps (reqs : list (str * Table * list str)) (k : str)
    (f : Factory) (r : Repository) :
  _instances f !! k = Some r -> _instances (run_requests reqs f) !! k = Some r.
Proof.
  revert f; induction reqs as [|[[t sf] fl] reqs IH]; intros f H; simpl; [exact H|].
  apply IH. now apply create_repository_keeps.
Qed.

Lemma create_repository_stores (table_name : str) (schema_fields : Table)
    (_fields : list str) (f f1 : Factory) (r : Repository) :
  create_repository table_name schema_fields _fields f = (Ok r, f1) ->
  _instances f1 !! table_name = Some r.
Proof.
  unfold create_repository.
  destruct (_instances f !! table_name) eqn:E.
  - intros [= <- <-]. exact E.
  - destruct (RepoDataClass.call table_name _fields); [|discriminate].
    intros [= <- <-]. simpl. apply lookup_insert_eq.
Qed.

(** C8.  Once a repository was created for a table name, every later
    request for that name returns that same instance and leaves the cache
    as it is, whatever schema fields and field list the later request
    supplies and whatever other repositories were requested in between:
    nothing in the factory removes an entry. *)
Theorem create_repository_idempotent (table_name : str)
    (schema_fields schema_fields' : Table) (_fields _fields' : list str)
    (f f1 : Factory) (r : Repository) (between : list (str * Table * list str)) :
  create_repository table_name schema_fields _fields f = (Ok r, f1) ->
  create_repository table_name schema_fields' _fields' (run_requests between f1)
  = (Ok r, run_requests between f1).
Proof.
  intros H. apply create_repository_stores in H.
  apply (run_requests_keeps between) in H.
  unfold create_repository. now rewrite H.
Qed.

Lemma create_repository_idempotent_witness :
  let users := [(lit "id", lit "INTEGER"); (lit "name", lit "TEXT")] in
  let other := [(lit "id", lit "INTEGER"); (lit "email", lit "TEXT"); (lit "age", lit "REAL")] in
  let first := create_repository (lit "users") users [lit "id"; lit "name"] empty_factory in
  let between := [(lit "orders", [(lit "id", lit "INTEGER")], [lit "id"])] in
  exists r,
    first = (Ok r, snd first)
    /\ create_repository (lit "users") other [lit "id"; lit "email"; lit "age"]
         (run_requests between (snd first))
       = (Ok r, run_requests between (snd first)).
Proof.
  intros users other first between.
  assert (H : exists r, first = (Ok r, snd first)) by (eexists; reflexivity).
  destruct H as [r H]. exists r. split; [exact H|].
  exact (create_repository_idempotent (lit "users") users other [lit "id"; lit "name"]
           [lit "id"; lit "email"; lit "age"] empty_factory (snd first) r between H).
Defined.

End CacheFacts.
(** ** Connection scopes *)

Section ScopeFacts.
Import Py DatabaseConnection GeneratedRepository Requests Operations.
Variable engine : Engine.

Lemma keeps_ret {A : Type} (a : A) : keeps_manager (ret a).
Proof. intros w. reflexivity. Qed.

Lemma keeps_request (r : Request) : keeps_manager (request engine r).
Proof. intros w. unfold request. now destruct (engine (sent w) r). Qed.

Lemma keeps_bind {A B : Type} (m : M A) (k : A -> M B) :
  keeps_manager m -> (forall a, keeps_manager (k a)) -> keeps_manager (bind m k).
Proof.
  intros Hm Hk w. unfold bind. specialize (Hm w).
  destruct (m w) as [[a|e] w1]; simpl in *; [|exact Hm].
  now rewrite Hk.
Qed.

Lemma keeps_try_except {A : Type} (m : M A) (k : exn -> M A) :
  keeps_manager m -> (forall e, keeps_manager (k e)) -> keeps_manager (try_except m k).
Proof.
  intros Hm Hk w. unfold try_except. specialize (Hm w).
  destruct (m w) as [[a|e] w1]; simpl in *; [exact Hm|].
  now rewrite Hk.
Qed.

Lemma keeps_when (b : bool) (r : Request) : keeps_manager (when b (request engine r)).
Proof.
  destruct b; simpl; [|apply keeps_ret].
  apply keeps_bind; [apply keeps_request | intros; apply keeps_ret].
Qed.

Lemma keeps_execute_body (query : str) (params : Kwargs)
    (transaction commit fetch_all fetch_one : bool) (h : Handle) :
  keeps_manager (execute_body engine query params transaction commit fetch_all fetch_one h).
Proof.
  unfold execute_body. apply keeps_try_except.
  - apply keeps_bind; [apply keeps_when|]. intros _.
    apply keeps_bind; [apply keeps_request|]. intros c.
    destruct fetch_all.
    { apply keeps_bind; [apply keeps_request | intros; apply keeps_ret]. }
    destruct fetch_one.
    { apply keeps_bind; [apply keeps_request | intros; apply keeps_ret]. }
    apply keeps_bind; [apply keeps_when | intros; apply keeps_ret].
  - intros e. apply keeps_bind; [apply keeps_when | intros; apply keeps_ret].
Qed.

(** A scope entry that returns leaves its handle in the manager. *)
Lemma aenter_ok (w wa : World) (h : Handle) :
  __aenter__ engine w = (Ok h, wa) -> conn (manager wa) = Some h.
Proof.
  unfold __aenter__, bind, get_manager, connect, set_conn, request, ret.
  destruct (conn (manager w)) eqn:Ec.
  - intros [= <- <-]. exact Ec.
  - destruct (engine (sent w) (Connect (db_path (manager w)))); [|discriminate].
    destruct (has_foreign_keys (manager w)); simpl.
    + destruct (engine _ _); [|discriminate]. now intros [= <- <-].
    + now intros [= <- <-].
Qed.

(** A scope exit that returns has closed the handle it found. *)
Lemma aexit_ok (w w' : World) (h : Handle) (u : unit) :
  conn (manager w) = Some h ->
  __aexit__ engine w = (Ok u, w') ->
  conn (manager w') = None /\ sent w' = sent w ++ [Close h].
Proof.
  unfold __aexit__, bind, get_manager, set_conn, request. intros ->.
  destruct (engine (sent w) (Close h)); [|discriminate].
  intros [= <- <-]. simpl. auto.
Qed.

(** A scope entry without a handle starts by connecting. *)
Lemma aenter_connects (w : World) :
  conn (manager w) = None ->
  exists l, sent (snd (__aenter__ engine w)) = sent w ++ Connect (db_path (manager w)) :: l.
Proof.
  unfold __aenter__, bind, get_manager, connect, set_conn, request, ret. intros ->.
  destruct (engine (sent w) (Connect (db_path (manager w)))); simpl; [|now exists []].
  destruct (has_foreign_keys (manager w)); simpl; [|now exists []].
  destruct (engine _ _); simpl; rewrite <- app_assoc; simpl; eauto.
Qed.

Lemma async_with_ok {A : Type} (body : Handle -> M A) (w w' : World) (r : A) :
  (forall h, keeps_manager (body h)) ->
  async_with engine body w = (Ok r, w') ->
  conn (manager w') = None /\ exists h l, sent w' = l ++ [Close h].
Proof.
  intros Hk. unfold async_with, bind.
  destruct (__aenter__ engine w) as [[h|e] wa] eqn:Ea; [|discriminate].
  apply aenter_ok in Ea. specialize (Hk h wa).
  destruct (body h wa) as [rb w1]; simpl in Hk.
  destruct (__aexit__ engine w1) as [[u|e] w2] eqn:Ex; [|discriminate].
  intros [= -> <-]. apply (aexit_ok _ _ h) in Ex; [|now rewrite Hk].
  destruct Ex as [Hc Hs]. split; [exact Hc|]. eauto.
Qed.

(** An execution that returns has closed its handle on scope exit (the
    last request it sent is the [Close] of a handle) and has reset the
    manager's handle to none, so the next scope starts by connecting
    again. *)
Lemma execute_returns_closed (query : str) (params : Kwargs)
    (transaction commit fetch_all fetch_one : bool) (w w' : World) (res : ExecResult) :
  _execute engine query params transaction commit fetch_all fetch_one w = (Ok res, w') ->
  conn (manager w') = None
  /\ (exists h l, sent w' = l ++ [Close h])
  /\ (exists l, sent (snd (__aenter__ engine w')) =
                sent w' ++ Connect (db_path (manager w')) :: l).
Proof.
  intros H. unfold _execute in H. apply async_with_ok in H.
  - destruct H as [Hc Hs]. repeat split; [exact Hc | exact Hs |].
    now apply aenter_connects.
  - intros h. apply keeps_execute_body.
Qed.

End ScopeFacts.

Section ScopeExamples.
Import Py DatabaseConnection GeneratedRepository Requests Operations.


End ScopeExamples.
(** ** Operations on an engine that refuses statements only *)

Section AcceptFacts.
Import Py DatabaseConnection GeneratedRepository Requests Operations Control.
Variable engine : Engine.
Hypothesis Hacc : refuses_only_statements engine.

Lemma accept (hist : list Request) (r : Request) :
  is_control r -> exists c, engine hist r = Some c.
Proof.
  intros Hr. destruct (engine hist r) as [c|] eqn:E; [now exists c|].
  apply Hacc in E as (h & sql & params & -> & Hb & Hp). simpl in Hr. tauto.
Qed.

Lemma request_accept (r : Request) (w : World) :
  is_control r ->
  exists c, request engine r w =
            (Ok c, {| manager := manager w; opened := opened w; sent := sent w ++ [r] |}).
Proof.
  intros Hr. destruct (accept (sent w) r Hr) as [c Hc]. exists c.
  unfold request. now rewrite Hc.
Qed.

Lemma when_accept (b : bool) (r : Request) (w : World) :
  is_control r ->
  exists l, when b (request engine r) w =
            (Ok tt, {| manager := manager w; opened := opened w; sent := sent w ++ l |}).
Proof.
  intros Hr. destruct b; simpl.
  - destruct (request_accept r w Hr) as [c Hc]. exists [r].
    unfold bind. now rewrite Hc.
  - exists []. rewrite app_nil_r. now destruct w.
Qed.

Lemma aenter_accept (w : World) :
  exists h wa l, __aenter__ engine w = (Ok h, wa) /\ sent wa = sent w ++ l.
Proof.
  unfold __aenter__, bind, get_manager, connect, set_conn, ret.
  destruct (conn (manager w)) eqn:Ec.
  - exists h, w, []. now rewrite app_nil_r.
  - destruct (request_accept (Connect (db_path (manager w))) w I) as [c ->].
    destruct (has_foreign_keys (manager w)); simpl.
    + match goal with
      | |- context [request engine ?r ?w0] =>
          destruct (request_accept r w0) as [c' ->]; [simpl; auto|];
          simpl; eexists (opened w), _, [Connect (db_path (manager w)); r]
      end.
      split; [reflexivity|]. simpl. now rewrite <- app_assoc.
    + eexists (opened w), _, [Connect (db_path (manager w))].
      split; reflexivity.
Qed.

Lemma aexit_accept (w : World) :
  exists w' l, __aexit__ engine w = (Ok tt, w') /\ sent w' = sent w ++ l.
Proof.
  unfold __aexit__, bind, get_manager, set_conn, ret.
  destruct (conn (manager w)) eqn:Ec.
  - destruct (request_accept (Close h) w I) as [c ->]. simpl.
    eexists _, [Close h]. split; reflexivity.
  - exists w, []. now rewrite app_nil_r.
Qed.

Lemma execute_body_accept (query : str) (params : Kwargs)
    (transaction commit fetch_all fetch_one : bool) (h : Handle) (w : World) :
  exists res w1 l1 l2,
    execute_body engine query params transaction commit fetch_all fetch_one h w
    = (Ok res, w1)
    /\ sent w1 = sent w ++ l1 ++ Execute h query params :: l2.
Proof.
  unfold execute_body, try_except, bind.
  destruct (when_accept transaction (Execute h (lit "BEGIN TRANSACTION;") []) w)
    as [l1 ->]; [simpl; auto|].
  unfold request at 1. simpl.
  destruct (engine (sent w ++ l1) (Execute h query params)) as [c|].
  - destruct fetch_all; [|destruct fetch_one].
    + match goal with
      | |- context [request engine ?r ?w0] =>
          destruct (request_accept r w0 I) as [c' ->];
          simpl; eexists (Rows (fetched c') c), _, l1, [r]
      end.
      split; [reflexivity|]. simpl. now rewrite <- !app_assoc.
    + match goal with
      | |- context [request engine ?r ?w0] =>
          destruct (request_accept r w0 I) as [c' ->];
          simpl; eexists (Rows (fetched c') c), _, l1, [r]
      end.
      split; [reflexivity|]. simpl. now rewrite <- !app_assoc.
    + match goal with
      | |- context [when commit (request engine ?r) ?w0] =>
          destruct (when_accept commit r w0 I) as [l2 ->]
      end.
      simpl. eexists (Cur c), _, l1, l2.
      split; [reflexivity|]. simpl. now rewrite <- !app_assoc.
  - match goal with
    | |- context [when transaction (request engine ?r) ?w0] =>
        destruct (when_accept transaction r w0 I) as [l2 ->]
    end.
    simpl. eexists Nothing, _, l1, l2.
    split; [reflexivity|]. simpl. now rewrite <- !app_assoc.
Qed.

(** On such an engine [_execute] never raises and the statement reaches
    the engine. *)
Lemma execute_accept (query : str) (params : Kwargs)
    (transaction commit fetch_all fetch_one : bool) (w : World) :
  exists res w' h l1 l2,
    _execute engine query params transaction commit fetch_all fetch_one w = (Ok res, w')
    /\ sent w' = sent w ++ l1 ++ Execute h query params :: l2.
Proof.
  unfold _execute, async_with, bind.
  destruct (aenter_accept w) as (h & wa & la & -> & Ha).
  destruct (execute_body_accept query params transaction commit fetch_all fetch_one h wa)
    as (res & w1 & l1 & l2 & -> & H1).
  destruct (aexit_accept w1) as (w2 & lx & -> & Hx).
  exists res, w2, h, (la ++ l1), (l2 ++ lx). split; [reflexivity|].
  rewrite Hx, H1, Ha. rewrite <- !app_assoc. simpl. now rewrite <- ?app_assoc.
Qed.

End AcceptFacts.
(** ** delete and save_many *)

Section DeleteFacts.
Import Py DatabaseConnection GeneratedRepository Requests Operations Control.





Lemma refusing_only_statements (bad : Request -> bool) :
  (forall r, bad r = true -> ~ is_control r) -> refuses_only_statements (refusing bad).
Proof.
  intros Hbad hist r. unfold refusing. destruct (bad r) eqn:E; [|discriminate].
  intros _. apply Hbad in E. destruct r; simpl in E; try (exfalso; now apply E).
  exists h, sql, params. repeat split; intros ->; apply E; auto.
Qed.




End DeleteFacts.

Section SaveManyFacts.
Import Py DatabaseConnection GeneratedRepository Requests Operations Control Batches.

(** On an engine that refuses statements only, the loop of [save_many]
    runs to its end whatever statements fail, and every record's INSERT
    reaches the engine. *)
Lemma save_many_loop_accept (engine : Engine) (table_name : str) (data_list : list Rec)
    (w : World) :
  refuses_only_statements engine ->
  exists w' l,
    save_many_loop engine table_name data_list w = (Ok tt, w')
    /\ sent w' = sent w ++ l
    /\ forall data, In data data_list ->
         exists h, In (Execute h (dc_to_insertion_query table_name data) data) l.
Proof.
  intros Hacc. revert w; induction data_list as [|data rest IH]; intros w; simpl.
  - exists w, []. rewrite app_nil_r. repeat split. intros data [].
  - unfold bind.
    destruct (execute_accept engine Hacc (dc_to_insertion_query table_name data) data
                true true false false w) as (res & w1 & h & l1 & l2 & -> & Hs).
    destruct (IH w1) as (w' & l & -> & Hs' & Hall).
    exists w', ((l1 ++ Execute h (dc_to_insertion_query table_name data) data :: l2) ++ l).
    split; [reflexivity|]. split.
    + rewrite Hs', Hs. now rewrite <- !app_assoc.
    + intros d [<-|Hd].
      * exists h. rewrite !in_app_iff. simpl. auto.
      * destruct (Hall d Hd) as [h' Hin]. exists h'. rewrite in_app_iff. auto.
Qed.

Lemma save_many_absorbs_failures (engine : Engine) (table_name : str) (data_list : list Rec)
    (w : World) :
  refuses_only_statements engine ->
  data_list <> [] ->
  fst (save_many engine table_name data_list w) = Ok true
  /\ forall data, In data data_list ->
       exists h, In (Execute h (dc_to_insertion_query table_name data) data)
                    (sent (snd (save_many engine table_name data_list w))).
Proof.
  intros Hacc Hne. destruct data_list as [|d rest]; [contradiction|].
  unfold save_many, try_except, bind.
  destruct (save_many_loop_accept engine table_name (d :: rest) w Hacc)
    as (w' & l & -> & Hs & Hall).
  simpl. split; [reflexivity|]. intros data Hin.
  destruct (Hall data Hin) as [h Hh]. exists h. rewrite Hs, in_app_iff. auto.
Qed.

(** C2.  On a table [users] whose engine refuses a null [name],
    [save_many] of a nameless record followed by a valid one does not stop
    at the failure and does not report it: the first INSERT is refused and
    rolled back in a transaction of its own, the second record is then
    inserted and committed in another transaction on a new connection, and
    the call returns [True]. *)
Theorem save_many_continues_after_failure :
  let engine := refusing binds_name_to_null in
  let out := save_many engine (lit "users") [nameless; bob] (initial_world fresh_manager) in
  engine [] (Execute 0 (dc_to_insertion_query (lit "users") nameless) nameless) = None
  /\ fst out = Ok true
  /\ sent (snd out) =
       [Connect (lit "hive/hive_1.db");
        Execute 0 (lit "BEGIN TRANSACTION;") [];
        Execute 0 (lit "INSERT OR REPLACE INTO users (name) VALUES (:name)") nameless;
        Rollback 0;
        Close 0;
        Connect (lit "hive/hive_1.db");
        Execute 1 (lit "BEGIN TRANSACTION;") [];
        Execute 1 (lit "INSERT OR REPLACE INTO users (name) VALUES (:name)") bob;
        Commit 1;
        Close 1].
Proof. repeat split. Qed.

End SaveManyFacts.
(** ** The validator *)

Section ValidatorFacts.
Import Py SchemaValidator Validation.

Lemma upper_char_paren (c : ascii) :
  ascii_eqb (upper_char c) "(" = ascii_eqb c "(".
Proof. destruct c as [[] [] [] [] [] [] [] []]; reflexivity. Qed.

(** Stripping the suffix and upper-casing commute. *)
Lemma before_first_upper (s : str) :
  before_first "(" (upper s) = upper (before_first "(" s).
Proof.
  unfold before_first, upper. induction s as [|c s IH]; simpl; [reflexivity|].
  rewrite upper_char_paren. destruct (ascii_eqb c "("); simpl; [reflexivity|].
  now rewrite IH.
Qed.

Lemma validate_tables_members (required : list str) (schema : Schema) :
  validate_tables required schema = validate_members required (members schema).
Proof.
  induction schema as [|[table columns] rest IH]; simpl; [reflexivity|].
  unfold members in *. simpl. rewrite IH. clear IH.
  induction columns as [|[c d] columns IHc]; simpl; [reflexivity|].
  destruct (validate_column required table c d); [exact IHc | reflexivity].
Qed.

Lemma validate_column_accepted (required : list str) (table c d : str) :
  validate_column required table c d = Ok tt <-> accepted required (table, c, d) = true.
Proof.
  unfold validate_column, accepted, spec_base_type.
  destruct (is_constraint_name c); cbn [orb]; [split; reflexivity|].
  destruct (split_ws d) as [|tok rest]; [split; discriminate|].
  destruct (mem (upper tok) constraint_keywords); cbn [orb]; [split; reflexivity|].
  rewrite before_first_upper.
  destruct (mem _ required); split; congruence.
Qed.

Lemma validate_column_unit (required : list str) (table c d : str) (u : unit) :
  validate_column required table c d = Ok u ->
  accepted required (table, c, d) = true.
Proof. destruct u. apply validate_column_accepted. Qed.

Lemma validate_members_ok (required : list str) (ms : list (str * str * str)) :
  validate_members required ms = Ok tt <-> forallb (accepted required) ms = true.
Proof.
  induction ms as [|[[t c] d] ms IH]; [split; reflexivity|].
  cbn [validate_members forallb]. rewrite andb_true_iff, <- IH.
  destruct (validate_column required t c d) as [[]|e] eqn:E.
  - apply validate_column_accepted in E. rewrite E. intuition.
  - split; [discriminate|]. intros [H _].
    apply validate_column_accepted in H. congruence.
Qed.

(** The pass stops at the first member that is refused. *)
Lemma validate_members_first (required : list str) (pre post : list (str * str * str))
    (t c d : str) (e : exn) :
  forallb (accepted required) pre = true ->
  validate_column required t c d = Raise e ->
  validate_members required (pre ++ (t, c, d) :: post) = Raise e.
Proof.
  induction pre as [|[[t' c'] d'] pre IH]; cbn [forallb app validate_members];
    intros Hpre Hm.
  - now rewrite Hm.
  - apply andb_true_iff in Hpre as [Ha Hpre].
    apply validate_column_accepted in Ha. rewrite Ha. now apply IH.
Qed.

Lemma validate_column_raises (required : list str) (t c d : str) :
  (exists e, validate_column required t c d = Raise e) <-> offending required (t, c, d).
Proof.
  unfold validate_column, offending.
  destruct (is_constraint_name c).
  { split; [intros [e H]; discriminate | intros [H _]; discriminate]. }
  destruct (split_ws d) as [|tok rest].
  { split; eauto. }
  destruct (mem (upper tok) constraint_keywords) eqn:Ek.
  { split; [intros [e H]; discriminate|].
    intros [_ [H|(tok' & rest' & E & H & _)]]; [discriminate|].
    injection E as <- <-. congruence. }
  destruct (mem (before_first "(" (upper tok)) required) eqn:Em.
  { split; [intros [e H]; discriminate|].
    intros [_ [H|(tok' & rest' & E & _ & H)]]; [discriminate|].
    injection E as <- <-. congruence. }
  split; [|eauto]. intros _. split; [reflexivity|]. right.
  exists tok, rest. auto.
Qed.

Lemma validate_members_raises (required : list str) (ms : list (str * str * str)) :
  (exists e, validate_members required ms = Raise e) <-> Exists (offending required) ms.
Proof.
  induction ms as [|[[t c] d] ms IH]; cbn [validate_members].
  - split; [intros [e H]; discriminate | intros H; inversion H].
  - rewrite List.Exists_cons, <- IH, <- validate_column_raises.
    destruct (validate_column required t c d) as [[]|e].
    + split; [auto | intros [[e H]|H]; [discriminate | exact H]].
    + split; eauto.
Qed.

Lemma validate_result (schema : Schema) (sql_types : option (list str)) :
  validate schema sql_types
  = match validate_members (required_sql_types sql_types) (members schema) with
    | Ok _ => Ok true
    | Raise e => Raise e
    end.
Proof. unfold validate. now rewrite validate_tables_members. Qed.

(** C5, amended.  [validate] succeeds exactly when every member is a
    constraint by its name, or a column whose first token upper-cases to
    PRIMARY, FOREIGN, CHECK or UNIQUE (these are skipped), or a column whose
    base type (first token, suffix stripped, upper case) is recognized.  It
    fails fast: the first column, in iteration order, whose first token is
    none of the four keywords and whose base type is not recognized makes
    it raise the error that names the type, the table and the column.  A
    column declared [FOO] is rejected, the same column declared
    [DECIMAL(10,2)] is accepted. *)
Theorem validate_fails_fast (schema : Schema) (sql_types : option (list str)) :
  (validate schema sql_types = Ok true
   <-> forallb (accepted (required_sql_types sql_types)) (members schema) = true)
  /\ (forall pre table column_name column_type post tok rest,
        members schema = pre ++ (table, column_name, column_type) :: post ->
        forallb (accepted (required_sql_types sql_types)) pre = true ->
        is_constraint_name column_name = false ->
        split_ws column_type = tok :: rest ->
        mem (upper tok) constraint_keywords = false ->
        mem (spec_base_type tok) (required_sql_types sql_types) = false ->
        validate schema sql_types
        = Raise (ValueError (invalid_type_msg (spec_base_type tok) table column_name)))
  /\ validate [(lit "t", [(lit "id", lit "INTEGER"); (lit "a", lit "FOO")])] None
     = Raise (ValueError (lit "Invalid SQL type 'FOO' in table 't', column 'a'"))
  /\ validate [(lit "t", [(lit "id", lit "INTEGER"); (lit "a", lit "DECIMAL(10,2)")])] None
     = Ok true.
Proof.
  split; [|split; [|split; reflexivity]].
  - rewrite validate_result, <- validate_members_ok.
    destruct (validate_members _ _) as [[]|e]; split; congruence.
  - intros pre t c d post tok rest Hm Hpre Hc Hd Hk Hb.
    rewrite validate_result, Hm.
    rewrite (validate_members_first _ pre post t c d
               (ValueError (invalid_type_msg (spec_base_type tok) t c))); auto.
    unfold validate_column, spec_base_type in *.
    rewrite Hc, Hd, Hk, before_first_upper, Hb. reflexivity.
Qed.

(** C5 as stated fails: a column declared [UNIQUE] has a base type outside
    the recognized set, yet [validate] returns [True]. *)
Lemma unique_column_not_rejected :
  ~ fails_on_first_mismatch [(lit "t", [(lit "a", lit "UNIQUE")])] None.
Proof.
  intros H.
  specialize (H [] (lit "t") (lit "a") (lit "UNIQUE") [] (lit "UNIQUE") []
                eq_refl eq_refl eq_refl eq_refl eq_refl).
  vm_compute in H. discriminate.
Qed.

(** C10, amended.  A member whose first token upper-cases to PRIMARY,
    FOREIGN, CHECK or UNIQUE is never refused, whatever its name; and
    [validate] raises exactly when some member with a data-column name has
    a definition without any token, or a first token that does not
    upper-case to one of the four keywords and whose upper-cased text
    before the first parenthesis is not recognized. *)
Theorem validate_raises_iff_offending (schema : Schema) (sql_types : option (list str)) :
  (forall table column_name column_type tok rest,
     split_ws column_type = tok :: rest ->
     mem (upper tok) constraint_keywords = true ->
     validate_column (required_sql_types sql_types) table column_name column_type = Ok tt)
  /\ ((exists e, validate schema sql_types = Raise e)
      <-> Exists (offending (required_sql_types sql_types)) (members schema)).
Proof.
  split.
  - intros t c d tok rest Hd Hk. unfold validate_column. rewrite Hd, Hk.
    now destruct (is_constraint_name c).
  - rewrite <- validate_members_raises, validate_result.
    destruct (validate_members _ _) as [[]|e]; split; intros [e' H];
      try discriminate; eauto.
Qed.

(** C10 as stated fails: the column [quantity CHECK(quantity > 0)] has the
    base type token [CHECK], one of the four keywords, yet [validate]
    raises, because the keyword test is made on the whole first token
    before the suffix is stripped. *)
Lemma check_suffix_column_raises :
  ~ raises_iff_unrecognized
      [(lit "order_items", [(lit "quantity", lit "CHECK(quantity > 0)")])] None.
Proof.
  intros [H _].
  destruct H as (t & c & d & b & Hin & _ & Hb & _ & Hk).
  - eexists. vm_compute. reflexivity.
  - destruct Hin as [E|[]]. injection E as <- <- <-.
    vm_compute in Hb. injection Hb as <-. vm_compute in Hk. discriminate.
Qed.

End ValidatorFacts.
(** ** Member splitting *)

Section SplitFacts.
Import Py SqlStrToDict Splitting.

Lemma cut_at_nonempty (offset : nat) (positions : list nat) (s : str) :
  cut_at offset positions s <> [].
Proof. destruct positions; discriminate. Qed.

Lemma prepend_nil (pieces : list str) : pieces <> [] -> prepend [] pieces = pieces.
Proof. destruct pieces; [contradiction | reflexivity]. Qed.

Lemma commas_from_ge (d : Z) (i : nat) (s : str) :
  Forall (fun p => i <= p) (commas_from d i s).
Proof.
  revert d i; induction s as [|c s IH]; intros d i; simpl; [constructor|].
  destruct (ascii_eqb c "," && (d =? 0)%Z).
  - constructor; [lia|]. eapply List.Forall_impl; [|apply IH]. simpl. lia.
  - eapply List.Forall_impl; [|apply IH]. simpl. lia.
Qed.

Lemma cut_at_cons (i : nat) (positions : list nat) (c : ascii) (s : str) :
  Forall (fun p => S i <= p) positions ->
  cut_at i positions (c :: s) = prepend [c] (cut_at (S i) positions s).
Proof.
  intros H. destruct positions as [|p rest]; simpl; [reflexivity|].
  inversion H as [|? ? Hp _]; subst.
  replace (p - i) with (S (p - S i)) by lia. reflexivity.
Qed.

Lemma prepend_prepend (a b : str) (pieces : list str) :
  pieces <> [] -> prepend a (prepend b pieces) = prepend (a ++ b) pieces.
Proof.
  destruct pieces as [|p rest]; [contradiction|]. intros _. simpl.
  now rewrite <- app_assoc.
Qed.

(** The loop's pieces are the cuts at the commas it finds. *)
Lemma pieces_from_cut (d : Z) (i : nat) (current s : str) :
  pieces_from d current s = prepend current (cut_at i (commas_from d i s) s).
Proof.
  revert d i current; induction s as [|c s IH]; intros d i current; simpl.
  - now rewrite app_nil_r.
  - destruct (ascii_eqb c "," && (d =? 0)%Z) eqn:E; simpl.
    + rewrite Nat.sub_diag. simpl. rewrite app_nil_r. f_equal.
      rewrite (IH d (S i) []). apply prepend_nil, cut_at_nonempty.
    + rewrite (IH (step_depth d c) (S i) (current ++ [c])).
      rewrite cut_at_cons by apply commas_from_ge.
      rewrite prepend_prepend by apply cut_at_nonempty. reflexivity.
Qed.

Lemma step_depth_comma (d : Z) (c : ascii) :
  ascii_eqb c "," = true -> step_depth d c = d.
Proof.
  intros H. apply Ascii.eqb_eq in H. subst. reflexivity.
Qed.

Lemma depth_after_snoc (d : Z) (s : str) (c : ascii) :
  depth_after d (s ++ [c]) = step_depth (depth_after d s) c.
Proof. unfold depth_after. now rewrite fold_left_app. Qed.

(** The commas the loop finds are the top-level commas. *)
Lemma commas_from_filter (pre s : str) :
  commas_from (depth_after 0 pre) (length pre) s
  = List.filter (top_level_comma (pre ++ s)) (seq (length pre) (length s)).
Proof.
  revert pre; induction s as [|c s IH]; intros pre; simpl; [reflexivity|].
  assert (Hc : top_level_comma (pre ++ c :: s) (length pre)
               = ascii_eqb c "," && (depth_after 0 pre =? 0)%Z).
  { unfold top_level_comma, depth_at.
    rewrite app_nth2, Nat.sub_diag by lia. simpl.
    rewrite firstn_app, Nat.sub_diag, firstn_all. simpl. now rewrite app_nil_r. }
  rewrite Hc. specialize (IH (pre ++ [c])).
  rewrite <- app_assoc, length_app, Nat.add_1_r in IH. simpl in IH.
  rewrite depth_after_snoc in IH.
  destruct (ascii_eqb c "," && (depth_after 0 pre =? 0)%Z) eqn:E.
  - f_equal. rewrite <- IH. apply andb_prop in E as [E _].
    now rewrite step_depth_comma.
  - exact IH.
Qed.

Lemma pieces_top_commas (s : str) :
  pieces_from 0 [] s = cut_at 0 (top_commas s) s.
Proof.
  rewrite (pieces_from_cut 0 0 [] s), prepend_nil by apply cut_at_nonempty.
  pose proof (commas_from_filter [] s) as H. cbn [app length] in H.
  unfold top_commas. now rewrite <- H.
Qed.

(** The loop of [_split_columns] in terms of its pieces. *)
Lemma split_loop_pieces (rest : str) (columns : list str) (parens : Z) (current : str) :
  split_loop rest columns parens current
  = (columns ++ map strip (removelast (pieces_from parens current rest)),
     List.last (pieces_from parens current rest) []).
Proof.
  revert columns parens current; induction rest as [|c rest IH];
    intros columns parens current.
  - simpl. now rewrite app_nil_r.
  - cbn [split_loop pieces_from].
    destruct (ascii_eqb c "," && (parens =? 0)%Z).
    + rewrite IH.
      assert (Hne : pieces_from parens [] rest <> []) by (destruct rest; simpl;
        [discriminate | destruct (_ && _); [discriminate|];
         rewrite (pieces_from_cut _ 0); destruct (cut_at _ _ _); discriminate]).
      destruct (pieces_from parens [] rest) as [|p ps] eqn:Ep; [contradiction|].
      cbn [removelast List.last map]. now rewrite <- app_assoc.
    + unfold step_depth in *. rewrite IH. reflexivity.
Qed.

Lemma split_columns_pieces (s : str) :
  _split_columns s =
  match strip (List.last (pieces_from 0 [] s) []) with
  | [] => map strip (removelast (pieces_from 0 [] s))
  | _ :: _ => map strip (pieces_from 0 [] s)
  end.
Proof.
  unfold _split_columns. rewrite split_loop_pieces. simpl.
  destruct (strip (List.last (pieces_from 0 [] s) [])) eqn:E; [reflexivity|].
  rewrite <- E.
  assert (Hne : pieces_from 0 [] s <> []).
  { rewrite pieces_top_commas. apply cut_at_nonempty. }
  rewrite (app_removelast_last [] Hne) at 3.
  now rewrite map_app.
Qed.

(** X1.  [_split_columns] cuts a table body at its top-level commas only: a
    comma separates two members exactly when the paren depth in front of
    it, the number of ["("] minus the number of [")"] read so far, is zero;
    the pieces are stripped, and a blank last piece is left out.  So
    [CHECK(rating >= 1 AND rating <= 5)] and [DECIMAL(10, 2)] stay whole
    inside their members. *)
Theorem split_columns_top_level (columns_str : str) :
  _split_columns columns_str = split_top_level columns_str
  /\ _split_columns reviews_body =
       [lit "id INTEGER PRIMARY KEY";
        lit "rating INTEGER CHECK(rating >= 1 AND rating <= 5)";
        lit "price DECIMAL(10, 2) NOT NULL"].
Proof.
  split; [|reflexivity].
  rewrite split_columns_pieces. unfold split_top_level.
  now rewrite pieces_top_commas.
Qed.

End SplitFacts.
(** ** Characters, prefixes and stripping *)

Section StringFacts.
Import Py.

Lemma isword_not_space (c : ascii) : isword c = true -> isspace c = false.
Proof. destruct c as [[] [] [] [] [] [] [] []]; vm_compute; congruence. Qed.

Lemma isword_not_open (c : ascii) : isword c = true -> ascii_eqb c "(" = false.
Proof. destruct c as [[] [] [] [] [] [] [] []]; vm_compute; congruence. Qed.

Lemma isspace_plain (c : ascii) :
  isspace c = true ->
  ascii_eqb c "(" = false /\ ascii_eqb c ")" = false /\ ascii_eqb c "," = false
  /\ ascii_eqb c ";" = false.
Proof. destruct c as [[] [] [] [] [] [] [] []]; vm_compute; intuition congruence. Qed.

Lemma ascii_eqb_eq (a b : ascii) : ascii_eqb a b = true <-> a = b.
Proof. apply Ascii.eqb_eq. Qed.

Lemma forallb_app_iff {A : Type} (p : A -> bool) (a b : list A) :
  forallb p (a ++ b) = true <-> forallb p a = true /\ forallb p b = true.
Proof. rewrite List.forallb_app, andb_true_iff. reflexivity. Qed.

Lemma startswith_app (p a b : str) :
  startswith p a = true -> startswith p (a ++ b) = true.
Proof.
  revert a; induction p as [|x p IH]; intros [|y a]; simpl; try congruence.
  intros H. apply andb_prop in H as [H1 H2]. rewrite H1. simpl. now apply IH.
Qed.

Lemma startswith_self (p s : str) : startswith p (p ++ s) = true.
Proof.
  induction p as [|x p IH]; simpl; [reflexivity|].
  unfold ascii_eqb. now rewrite Ascii.eqb_refl.
Qed.

Lemma drop_while_all (p : ascii -> bool) (a b : str) :
  forallb p a = true -> drop_while p (a ++ b) = drop_while p b.
Proof.
  induction a as [|c a IH]; simpl; [reflexivity|].
  intros H. apply andb_prop in H as [H1 H2]. rewrite H1. now apply IH.
Qed.

Lemma drop_while_stop (p : ascii -> bool) (c : ascii) (s : str) :
  p c = false -> drop_while p (c :: s) = c :: s.
Proof. intros H. simpl. now rewrite H. Qed.

Lemma take_while_all (p : ascii -> bool) (a b : str) :
  forallb p a = true -> take_while p (a ++ b) = a ++ take_while p b.
Proof.
  induction a as [|c a IH]; simpl; [reflexivity|].
  intros H. apply andb_prop in H as [H1 H2]. rewrite H1. f_equal. now apply IH.
Qed.

Lemma take_while_stop (p : ascii -> bool) (c : ascii) (s : str) :
  p c = false -> take_while p (c :: s) = [].
Proof. intros H. simpl. now rewrite H. Qed.

Lemma drop_while_nil_iff (p : ascii -> bool) (s : str) :
  drop_while p s = [] <-> forallb p s = true.
Proof.
  induction s as [|c s IH]; simpl; [tauto|].
  destruct (p c); simpl; [exact IH|]. split; discriminate.
Qed.

Lemma drop_while_keep (p : ascii -> bool) (a b : str) :
  forallb p a = false -> drop_while p (a ++ b) = drop_while p a ++ b.
Proof.
  induction a as [|c a IH]; simpl; [discriminate|].
  destruct (p c); simpl; [exact IH | reflexivity].
Qed.

Lemma forallb_rev {A : Type} (p : A -> bool) (l : list A) :
  forallb p (rev l) = forallb p l.
Proof.
  induction l as [|x l IH]; simpl; [reflexivity|].
  rewrite List.forallb_app, IH. simpl. rewrite andb_true_r. apply andb_comm.
Qed.

(** Trailing blanks go, the rest stays. *)
Lemma rstrip_blank (a b : str) : forallb isspace b = true -> rstrip (a ++ b) = rstrip a.
Proof.
  intros H. unfold rstrip. rewrite rev_app_distr, drop_while_all; [reflexivity|].
  now rewrite forallb_rev.
Qed.

Lemma rstrip_keep (a b : str) :
  forallb isspace b = false -> rstrip (a ++ b) = a ++ rstrip b.
Proof.
  intros H. unfold rstrip. rewrite rev_app_distr, drop_while_keep.
  - now rewrite rev_app_distr, rev_involutive.
  - now rewrite forallb_rev.
Qed.

Lemma rstrip_last (a : str) (c : ascii) : isspace c = false -> rstrip (a ++ [c]) = a ++ [c].
Proof.
  intros H. rewrite rstrip_keep; [|simpl; now rewrite H].
  unfold rstrip. simpl. now rewrite H.
Qed.

Lemma rstrip_nil_iff (s : str) : rstrip s = [] <-> forallb isspace s = true.
Proof.
  unfold rstrip. rewrite <- (forallb_rev isspace s), <- drop_while_nil_iff.
  split; intros H.
  - apply (f_equal (@rev ascii)) in H. now rewrite rev_involutive in H.
  - now rewrite H.
Qed.

Lemma lstrip_blank (a b : str) : forallb isspace a = true -> lstrip (a ++ b) = lstrip b.
Proof. apply drop_while_all. Qed.

Lemma lstrip_head (c : ascii) (s : str) : isspace c = false -> lstrip (c :: s) = c :: s.
Proof. apply drop_while_stop. Qed.

Lemma strip_blank_l (a s : str) : forallb isspace a = true -> strip (a ++ s) = strip s.
Proof. intros H. unfold strip. now rewrite lstrip_blank. Qed.

Lemma lstrip_suffix (s : str) : exists a, forallb isspace a = true /\ s = a ++ lstrip s.
Proof.
  unfold lstrip. induction s as [|c s (a & Ha & E)]; simpl.
  - now exists [].
  - destruct (isspace c) eqn:Ec.
    + exists (c :: a). simpl. rewrite Ec, Ha. split; [reflexivity|].
      f_equal. exact E.
    + now exists [].
Qed.

Lemma lstrip_blank_tail (s b : str) :
  forallb isspace b = true -> forallb isspace s = false -> lstrip (s ++ b) = lstrip s ++ b.
Proof. intros _ H. now apply drop_while_keep. Qed.

Lemma strip_blank_r (s b : str) : forallb isspace b = true -> strip (s ++ b) = strip s.
Proof.
  intros H. unfold strip. destruct (forallb isspace s) eqn:Es.
  - assert (Hl : lstrip (s ++ b) = []).
    { apply drop_while_nil_iff. apply forallb_app_iff. auto. }
    assert (Hs : lstrip s = []) by now apply drop_while_nil_iff.
    now rewrite Hl, Hs.
  - rewrite lstrip_blank_tail by assumption. now apply rstrip_blank.
Qed.

(** A text that starts and ends with a non-blank character is its own
    strip. *)
Lemma strip_fixed (c d : ascii) (s : str) :
  isspace c = false -> isspace d = false -> strip (c :: s ++ [d]) = c :: s ++ [d].
Proof.
  intros Hc Hd. unfold strip. rewrite lstrip_head by assumption.
  exact (rstrip_last (c :: s) d Hd).
Qed.

Lemma strip_no_space (s : str) :
  forallb (fun c => negb (isspace c)) s = true -> strip s = s.
Proof.
  destruct s as [|c s]; [reflexivity|]. intros H.
  assert (Hc : isspace c = false).
  { simpl in H. apply andb_prop in H as [H _]. now apply negb_true_iff. }
  destruct (@exists_last _ (c :: s)) as (a & d & E); [discriminate|].
  assert (Hd : isspace d = false).
  { rewrite E in H. apply forallb_app_iff in H as [_ H]. simpl in H.
    apply andb_prop in H as [H _]. now apply negb_true_iff. }
  destruct a as [|c' a]; simpl in E; injection E as -> ->.
  - unfold strip, lstrip, rstrip. simpl. rewrite Hd. simpl. now rewrite Hd.
  - now apply strip_fixed.
Qed.

End StringFacts.
(** ** The generated script *)

Section GenerateFacts.
Import Py SchemaParser SqlStrToDict RoundTrip Script.

Lemma scan_table_acc (table_name : str) (idxs : option (list str)) (columns : Table)
    (acc : TableAcc) :
  fold_left (member_step table_name idxs) columns acc =
  {| column_defs := column_defs acc ++ map render (List.filter is_data columns);
     constraints := constraints acc
                    ++ map render (List.filter (fun m => is_constraint (fst m)) columns);
     indexes := indexes acc ++ index_statements idxs table_name columns;
     fields_for_dataclass := fields_for_dataclass acc ++ data_columns columns |}.
Proof.
  revert acc; induction columns as [|[n d] columns IH]; intros acc.
  - simpl. unfold index_statements, data_columns. simpl. rewrite !app_nil_r.
    now destruct acc.
  - cbn [fold_left]. rewrite IH. clear IH.
    unfold member_step, index_statements, data_columns, is_data, render.
    cbn [map List.filter fst snd].
    destruct (is_constraint n), (hinted idxs n); cbn [negb map column_defs constraints
      indexes fields_for_dataclass]; rewrite <- ?app_assoc; reflexivity.
Qed.

Lemma scan_table_spec (table_name : str) (idxs : option (list str)) (columns : Table) :
  column_defs (scan_table table_name idxs columns)
    ++ constraints (scan_table table_name idxs columns) = clauses columns
  /\ indexes (scan_table table_name idxs columns)
     = index_statements idxs table_name columns
  /\ fields_for_dataclass (scan_table table_name idxs columns) = data_columns columns.
Proof. unfold scan_table. rewrite scan_table_acc. simpl. auto. Qed.

Lemma table_steps (idxs : option (list str)) (schema : Schema)
    (acc : list str * list (str * list str)) :
  fst (fold_left (table_step idxs) schema acc) = fst acc ++ statements idxs schema.
Proof.
  revert acc; induction schema as [|[t columns] schema IH]; intros [stmts fields].
  - simpl. now rewrite app_nil_r.
  - cbn [fold_left]. rewrite IH. unfold table_step.
    destruct (scan_table_spec t idxs columns) as (-> & -> & _).
    unfold statements. cbn [flat_map fst]. unfold table_statements. cbn [fst snd].
    rewrite <- !app_assoc. reflexivity.
Qed.

(** The script is the statements of the tables, in order, a blank line
    between two of them. *)
Lemma generate_sql_statements (schema : Schema) (idxs : option (list str)) :
  fst (generate_sql schema idxs) = join [nl; nl] (statements idxs schema).
Proof.
  unfold generate_sql.
  pose proof (table_steps idxs schema ([], [])) as H.
  destruct (fold_left (table_step idxs) schema ([], [])) as [stmts fields].
  simpl in *. now subst.
Qed.

Lemma join_cons (sep x : str) (xs : list str) :
  join sep (x :: xs) = x ++ flat_map (fun y => sep ++ y) xs.
Proof.
  revert x; induction xs as [|y xs IH]; intros x; simpl.
  - now rewrite app_nil_r.
  - specialize (IH y). simpl in IH. rewrite <- app_assoc. f_equal. f_equal. exact IH.
Qed.

End GenerateFacts.
(** ** Statement extraction *)

Section FindallFacts.
Import Py SchemaParser SqlStrToDict RoundTrip Script Closing.

Lemma until_close_cons2 (c d : ascii) (s : str) :
  until_close (c :: d :: s)
  = if ascii_eqb c ")" && ascii_eqb d ";" then Some ([c; d], s)
    else match until_close (d :: s) with
         | Some (m, r) => Some (c :: m, r)
         | None => None
         end.
Proof. reflexivity. Qed.

Lemma has_close_cons2 (c d : ascii) (s : str) :
  has_close (c :: d :: s)
  = (ascii_eqb c ")" && ascii_eqb d ";") || has_close (d :: s).
Proof.
  unfold has_close. rewrite until_close_cons2.
  destruct (ascii_eqb c ")" && ascii_eqb d ";"); [reflexivity|].
  cbn [orb]. now destruct (until_close (d :: s)) as [[m r]|].
Qed.

Lemma has_close_single (c : ascii) : has_close [c] = false.
Proof. reflexivity. Qed.

Lemma ends_close_cons (c d : ascii) (s : str) :
  ends_close (c :: d :: s) = ends_close (d :: s).
Proof.
  unfold ends_close. cbn [rev].
  destruct (rev s ++ [d]) as [|x l] eqn:E.
  - destruct (rev s); discriminate.
  - reflexivity.
Qed.

(** Where [");"] can be in a concatenation. *)
Lemma has_close_app (a b : str) :
  has_close (a ++ b) = has_close a || has_close b || (ends_close a && starts_semi b).
Proof.
  induction a as [|c a IH]; [cbn; now rewrite orb_false_r|].
  destruct a as [|d a].
  - cbn [app]. destruct b as [|e b].
    { unfold starts_semi. now rewrite andb_false_r. }
    rewrite has_close_cons2, has_close_single. cbn.
    destruct (ascii_eqb c ")"), (ascii_eqb e ";"), (has_close (e :: b)); reflexivity.
  - cbn [app] in *. rewrite !has_close_cons2, IH, ends_close_cons.
    now rewrite !orb_assoc.
Qed.

Lemma has_close_app_false (a b : str) :
  has_close a = false -> has_close b = false ->
  ends_close a && starts_semi b = false ->
  has_close (a ++ b) = false.
Proof. intros Ha Hb Hab. now rewrite has_close_app, Ha, Hb, Hab. Qed.

Lemma until_close_app (q rest : str) :
  has_close q = false ->
  until_close (q ++ ")"%char :: ";"%char :: rest) = Some (q ++ [")"%char; ";"%char], rest).
Proof.
  induction q as [|c q IH]; intros H; [reflexivity|].
  destruct q as [|d q].
  - cbn [app]. rewrite until_close_cons2.
    change (ascii_eqb ")" ";") with false. now rewrite andb_false_r.
  - rewrite has_close_cons2 in H. apply orb_false_elim in H as [H1 H2].
    specialize (IH H2). cbn [app] in *. rewrite until_close_cons2, H1.
    now rewrite IH.
Qed.

Lemma until_close_length (s m r : str) :
  until_close s = Some (m, r) -> length r < length s.
Proof.
  revert m r; induction s as [|c s IH]; intros m r; [discriminate|].
  destruct s as [|d s]; [discriminate|]. rewrite until_close_cons2.
  destruct (ascii_eqb c ")" && ascii_eqb d ";").
  - intros [= <- <-]. simpl. lia.
  - destruct (until_close (d :: s)) as [[m' r']|] eqn:E; [|discriminate].
    intros [= <- <-]. specialize (IH _ _ eq_refl). simpl in *. lia.
Qed.

(** Enough fuel is enough. *)
Lemma findall_fuel (f1 f2 : nat) (s : str) :
  length s <= f1 -> length s <= f2 -> findall_create f1 s = findall_create f2 s.
Proof.
  revert f2 s; induction f1 as [|f1 IH]; intros f2 s H1 H2.
  - destruct s; [|simpl in H1; lia]. now destruct f2.
  - destruct s as [|c s]; [now destruct f2|].
    destruct f2 as [|f2]; [simpl in H2; lia|].
    cbn [findall_create]. simpl in H1, H2.
    destruct (startswith_ci (lit "CREATE TABLE") (c :: s)); [|apply IH; lia].
    destruct (until_close (skipn 12 (c :: s))) as [[m r]|] eqn:E; [|apply IH; lia].
    f_equal. apply until_close_length in E.
    pose proof (List.length_skipn 12 (c :: s)) as Hl. cbn [length] in Hl.
    apply IH; lia.
Qed.

Lemma findall_skip (fuel : nat) (c : ascii) (s : str) :
  startswith_ci (lit "CREATE TABLE") (c :: s) = false ->
  length (c :: s) <= fuel ->
  findall_create fuel (c :: s) = findall_create (length s) s.
Proof.
  intros H Hf. destruct fuel as [|fuel]; [simpl in Hf; lia|].
  cbn [findall_create]. rewrite H. simpl in Hf. apply findall_fuel; lia.
Qed.

Lemma startswith_app_false (p a b : str) (c : ascii) :
  forallb (fun x => negb (ascii_eqb x c)) p = true ->
  startswith p a = false -> startswith p (a ++ c :: b) = false.
Proof.
  revert a; induction p as [|x p IH]; intros a Hp H; [discriminate|].
  simpl in Hp. apply andb_prop in Hp as [Hx Hp]. apply negb_true_iff in Hx.
  destruct a as [|y a]; simpl in *.
  - now rewrite Hx.
  - destruct (ascii_eqb x y); [|reflexivity]. simpl in *. now apply IH.
Qed.

Lemma startswith_ci_newline (a b : str) :
  startswith_ci (lit "CREATE TABLE") a = false ->
  startswith_ci (lit "CREATE TABLE") (a ++ nl :: b) = false.
Proof.
  unfold startswith_ci, upper. rewrite map_app. cbn [map].
  apply startswith_app_false. reflexivity.
Qed.

(** The search passes over a text without CREATE TABLE. *)
Lemma findall_pass (x rest : str) (fuel : nat) :
  occurs_ci (lit "CREATE TABLE") x = false ->
  (rest = [] \/ exists b, rest = nl :: b) ->
  length (x ++ rest) <= fuel ->
  findall_create fuel (x ++ rest) = findall_create (length rest) rest.
Proof.
  revert fuel; induction x as [|c x IH]; intros fuel Hx Hr Hf.
  - apply findall_fuel; simpl in *; lia.
  - cbn [occurs_ci] in Hx. apply orb_false_elim in Hx as [H1 H2].
    cbn [app]. rewrite findall_skip; [apply IH; auto | | exact Hf].
    destruct Hr as [->|[b ->]].
    + now rewrite app_nil_r.
    + now apply (startswith_ci_newline (c :: x) b).
Qed.

Lemma findall_step (fuel : nat) (c : ascii) (s : str) :
  findall_create (S fuel) (c :: s)
  = if startswith_ci (lit "CREATE TABLE") (c :: s) then
      match until_close (skipn 12 (c :: s)) with
      | Some (m, rest) => (firstn 12 (c :: s) ++ m) :: findall_create fuel rest
      | None => findall_create fuel s
      end
    else findall_create fuel s.
Proof. reflexivity. Qed.

(** At a table statement the search takes it whole. *)
Lemma findall_take (q rest : str) (fuel : nat) :
  has_close q = false ->
  length ((lit "CREATE TABLE" ++ q ++ lit ");") ++ rest) <= fuel ->
  findall_create fuel ((lit "CREATE TABLE" ++ q ++ lit ");") ++ rest)
  = (lit "CREATE TABLE" ++ q ++ lit ");") :: findall_create (length rest) rest.
Proof.
  intros Hq Hf.
  assert (Hs : (lit "CREATE TABLE" ++ q ++ lit ");") ++ rest
               = "C"%char :: (lit "REATE TABLE" ++ q ++ ")"%char :: ";"%char :: rest)).
  { rewrite <- !app_assoc. reflexivity. }
  rewrite Hs in *. destruct fuel as [|fuel]; [simpl in Hf; lia|].
  rewrite findall_step.
  change (startswith_ci (lit "CREATE TABLE") _) with true. cbn iota.
  change (skipn 12 _) with (q ++ ")"%char :: ";"%char :: rest).
  rewrite (until_close_app q rest Hq).
  change (firstn 12 _) with (lit "CREATE TABLE").
  change (lit ");") with [")"%char; ";"%char]. f_equal.
  cbn [length] in Hf. rewrite !length_app in Hf. cbn [length] in Hf.
  apply findall_fuel; lia.
Qed.

Lemma after_blank_lines_shape (xs : list str) :
  after_blank_lines xs = [] \/ exists b, after_blank_lines xs = nl :: b.
Proof. destruct xs as [|x xs]; [now left | right]. simpl. eauto. Qed.

Lemma table_statement_head (q : str) :
  startswith_ci (lit "CREATE TABLE") (lit "CREATE TABLE" ++ q ++ lit ");") = true.
Proof. reflexivity. Qed.

Lemma occurs_head (p x : str) : occurs_ci p x = false -> startswith_ci p x = false.
Proof. destruct x; cbn [occurs_ci]; intros H; now apply orb_false_elim in H as [H _]. Qed.

Lemma findall_statements (x : str) (xs : list str) (fuel : nat) :
  Forall statement_ok (x :: xs) ->
  length (x ++ after_blank_lines xs) <= fuel ->
  findall_create fuel (x ++ after_blank_lines xs) = table_statements_of (x :: xs).
Proof.
  revert x fuel; induction xs as [|y xs IH]; intros x fuel Hok Hf.
  - inversion Hok as [|? ? Hx _]; subst. cbn [after_blank_lines flat_map] in *.
    unfold table_statements_of. cbn [List.filter].
    destruct Hx as [Hx|(q & -> & Hq)].
    + rewrite findall_pass by auto. now rewrite (occurs_head _ _ Hx).
    + rewrite findall_take by assumption. now rewrite table_statement_head.
  - inversion Hok as [|? ? Hx Hrest]; subst.
    assert (Hnext : findall_create (length (after_blank_lines (y :: xs)))
                      (after_blank_lines (y :: xs)) = table_statements_of (y :: xs)).
    { cbn [after_blank_lines flat_map app].
      rewrite findall_skip; [|reflexivity|apply Nat.le_refl].
      rewrite findall_skip; [|reflexivity|apply Nat.le_refl].
      apply IH; [assumption | apply Nat.le_refl]. }
    unfold table_statements_of in *. cbn [List.filter].
    destruct Hx as [Hx|(q & -> & Hq)].
    + rewrite findall_pass; [| assumption | apply after_blank_lines_shape | assumption].
      now rewrite (occurs_head _ _ Hx).
    + rewrite findall_take by assumption. rewrite table_statement_head.
      f_equal. exact Hnext.
Qed.

(** The statement search on a script finds its table statements. *)
Lemma split_statements_script (xs : list str) :
  Forall statement_ok xs ->
  _split_statements (join [nl; nl] xs) = table_statements_of xs.
Proof.
  intros H. unfold _split_statements. destruct xs as [|x xs]; [reflexivity|].
  rewrite join_cons. now apply findall_statements.
Qed.

End FindallFacts.
(** ** One table statement *)

Section StatementFacts.
Import Py SchemaParser SqlStrToDict RoundTrip Script Closing Bodies.

Lemma create_table_sql_shape (table_name : str) (all_defs : list str) :
  create_table_sql table_name all_defs
  = lit "CREATE TABLE IF NOT EXISTS " ++ table_name ++ lit " ("
    ++ table_body all_defs ++ lit ");".
Proof.
  unfold create_table_sql, table_body, clause_sep.
  now rewrite <- !app_assoc.
Qed.

Lemma has_close_word (s : str) : forallb isword s = true -> has_close s = false.
Proof.
  induction s as [|c s IH]; [reflexivity|]. intros H.
  cbn [forallb] in H. apply andb_prop in H as [Hc Hs].
  destruct s as [|d s]; [reflexivity|].
  rewrite has_close_cons2, (IH Hs).
  assert (E : ascii_eqb c ")" = false).
  { destruct c as [[] [] [] [] [] [] [] []]; vm_compute in Hc |- *; congruence. }
  now rewrite E.
Qed.

Lemma has_close_join (all_defs : list str) :
  Forall (fun r => has_close r = false) all_defs ->
  has_close (join clause_sep all_defs) = false.
Proof.
  induction all_defs as [|r rs IH]; intros H; [reflexivity|].
  inversion H as [|? ? Hr Hrs]; subst. destruct rs as [|r' rs]; [exact Hr|].
  change (join clause_sep (r :: r' :: rs))
    with (r ++ clause_sep ++ join clause_sep (r' :: rs)).
  apply has_close_app_false; [exact Hr | |].
  - apply has_close_app_false; [reflexivity | now apply IH | reflexivity].
  - rewrite andb_false_iff. right. reflexivity.
Qed.

(** A table statement is the words CREATE TABLE, a text without [");"],
    and [");"]. *)
Lemma create_table_sql_ok (table_name : str) (all_defs : list str) :
  forallb isword table_name = true ->
  Forall (fun r => has_close r = false) all_defs ->
  statement_ok (create_table_sql table_name all_defs).
Proof.
  intros Ht Hd. right.
  exists (lit " IF NOT EXISTS " ++ table_name ++ lit " (" ++ table_body all_defs).
  split.
  - rewrite create_table_sql_shape. rewrite <- !app_assoc. reflexivity.
  - apply has_close_app_false; [reflexivity | | reflexivity].
    apply has_close_app_false; [now apply has_close_word | |].
    + apply has_close_app_false; [reflexivity | | reflexivity].
      unfold table_body.
      apply has_close_app_false; [reflexivity | | reflexivity].
      apply has_close_app_false; [reflexivity | | reflexivity].
      apply has_close_app_false; [now apply has_close_join | reflexivity |].
      rewrite andb_false_iff. right. reflexivity.
    + rewrite andb_false_iff. right. reflexivity.
Qed.

Lemma word_head (table_name : str) :
  RoundTrip.nonempty table_name = true -> forallb isword table_name = true ->
  exists c rest, table_name = c :: rest /\ isspace c = false.
Proof.
  destruct table_name as [|c rest]; [discriminate|]. intros _ H.
  cbn [forallb] in H. apply andb_prop in H as [Hc _].
  exists c, rest. split; [reflexivity | now apply isword_not_space].
Qed.

(** The name search finds the table name. *)
Lemma extract_table_name_statement (table_name : str) (all_defs : list str) :
  RoundTrip.nonempty table_name = true -> forallb isword table_name = true ->
  _extract_table_name (create_table_sql table_name all_defs) = Ok table_name.
Proof.
  intros Hne Hw. rewrite create_table_sql_shape.
  set (tail := table_body all_defs ++ lit ");").
  unfold _extract_table_name.
  assert (H : match_name_at (lit "CREATE TABLE IF NOT EXISTS")
                (lit "CREATE TABLE IF NOT EXISTS " ++ table_name ++ lit " (" ++ tail)
              = Some table_name).
  { unfold match_name_at.
    change (startswith_ci _ _) with true. cbn iota.
    change (skipn _ _) with (" "%char :: table_name ++ lit " (" ++ tail).
    change (isspace " ") with true. cbn iota.
    change (drop_while isspace (" "%char :: table_name ++ lit " (" ++ tail))
      with (drop_while isspace (table_name ++ lit " (" ++ tail)).
    destruct (word_head table_name Hne Hw) as (c & rest & -> & Hc).
    cbn [app]. rewrite (drop_while_stop isspace c _ Hc).
    change (c :: rest ++ lit " (" ++ tail) with ((c :: rest) ++ lit " (" ++ tail).
    rewrite (take_while_all isword (c :: rest)) by assumption.
    rewrite (drop_while_all isword (c :: rest)) by assumption.
    change (take_while isword (lit " (" ++ tail)) with (@nil ascii).
    rewrite app_nil_r. reflexivity. }
  destruct (lit "CREATE TABLE IF NOT EXISTS " ++ table_name ++ lit " (" ++ tail)
    as [|c s] eqn:E; [discriminate|].
  cbn [search_name]. now rewrite H.
Qed.

Lemma upto_last_close_app (a : str) :
  upto_last_close (a ++ lit ");") = Some a.
Proof.
  induction a as [|c a IH]; [reflexivity|].
  cbn [app upto_last_close]. now rewrite IH.
Qed.

(** The body search finds the text between the outer parentheses. *)
Lemma search_parens_statement (table_name : str) (all_defs : list str) :
  forallb isword table_name = true ->
  search_parens (create_table_sql table_name all_defs) = Some (table_body all_defs).
Proof.
  intros Hw. rewrite create_table_sql_shape. unfold search_parens.
  change (lit "CREATE TABLE IF NOT EXISTS " ++ table_name ++ lit " ("
          ++ table_body all_defs ++ lit ");")
    with (lit "CREATE TABLE IF NOT EXISTS "
          ++ (table_name ++ " "%char :: "("%char :: table_body all_defs ++ lit ");")).
  rewrite drop_while_all by reflexivity.
  rewrite drop_while_all.
  - change (drop_while _ (" "%char :: "("%char :: ?x)) with ("("%char :: x).
    cbn [drop_while]. change (negb (ascii_eqb " " "(")) with true.
    change (negb (ascii_eqb "(" "(")) with false. cbn iota.
    apply upto_last_close_app.
  - clear -Hw. induction table_name as [|c t IH]; [reflexivity|].
    cbn [forallb] in *. apply andb_prop in Hw as [Hc Ht].
    rewrite (isword_not_open c Hc). now rewrite IH.
Qed.

End StatementFacts.
(** ** Splitting the body of a generated statement *)

Section BodyFacts.
Import Py SchemaParser SqlStrToDict Splitting RoundTrip Script Bodies Pieces.

Lemma pieces_from_closed (d : Z) (current r rest : str) :
  closed_from d r = true ->
  pieces_from d current (r ++ rest) = pieces_from 0 (current ++ r) rest.
Proof.
  revert d current; induction r as [|c r IH]; intros d current H.
  - cbn [closed_from] in H. apply Z.eqb_eq in H. subst. now rewrite app_nil_r.
  - cbn [closed_from] in H. apply andb_prop in H as [H1 H2].
    apply negb_true_iff in H1. cbn [app pieces_from]. rewrite H1.
    rewrite (IH _ _ H2), <- app_assoc. reflexivity.
Qed.

Lemma closed_from_blank (d : Z) (ws : str) :
  forallb isspace ws = true -> closed_from d ws = (d =? 0)%Z.
Proof.
  revert d; induction ws as [|c ws IH]; intros d H; [reflexivity|].
  cbn [forallb] in H. apply andb_prop in H as [Hc Hws].
  destruct (isspace_plain c Hc) as (Ho & Hcl & Hco & _).
  cbn [closed_from]. unfold step_depth. rewrite Ho, Hcl, Hco. cbn. now apply IH.
Qed.

Lemma pieces_from_blank (current ws rest : str) :
  forallb isspace ws = true ->
  pieces_from 0 current (ws ++ rest) = pieces_from 0 (current ++ ws) rest.
Proof. intros H. apply pieces_from_closed. now rewrite closed_from_blank. Qed.

Lemma pieces_from_end (current : str) : pieces_from 0 current [] = [current].
Proof. reflexivity. Qed.

(** The pieces of a list of closed clauses joined by the separator. *)
Lemma pieces_join (lead : str) (all_defs : list str) (trail : str) :
  Forall (fun r => closed r = true) all_defs ->
  forallb isspace trail = true ->
  pieces_from 0 lead (join clause_sep all_defs ++ trail) = spaced lead all_defs trail.
Proof.
  intros H Ht. revert lead; induction H as [|r rs Hr Hrs IH]; intros lead.
  - cbn [join app spaced]. rewrite <- (app_nil_r trail) at 1.
    now rewrite pieces_from_blank.
  - destruct rs as [|r' rs].
    + cbn [join spaced]. rewrite (pieces_from_closed 0 lead r trail Hr).
      rewrite <- (app_nil_r trail) at 1. rewrite pieces_from_blank by assumption.
      now rewrite <- app_assoc.
    + change (join clause_sep (r :: r' :: rs))
        with (r ++ clause_sep ++ join clause_sep (r' :: rs)).
      rewrite <- !app_assoc. rewrite (pieces_from_closed 0 lead r _ Hr).
      change (clause_sep ++ join clause_sep (r' :: rs) ++ trail)
        with (","%char :: clause_lead ++ join clause_sep (r' :: rs) ++ trail).
      cbn [pieces_from]. change (ascii_eqb "," "," && (0 =? 0)%Z) with true. cbn iota.
      rewrite pieces_from_blank by reflexivity.
      cbn [spaced]. f_equal. apply IH.
Qed.

Lemma spaced_strip (lead : str) (all_defs : list str) (trail : str) :
  all_defs <> [] ->
  forallb isspace lead = true -> forallb isspace trail = true ->
  map strip (spaced lead all_defs trail) = map strip all_defs.
Proof.
  intros Hne Hl Ht. revert lead Hl; induction all_defs as [|r rs IH]; intros lead Hl;
    [contradiction|].
  destruct rs as [|r' rs].
  - cbn [spaced map]. rewrite strip_blank_l by assumption.
    now rewrite strip_blank_r.
  - cbn [spaced map]. rewrite strip_blank_l by assumption. f_equal.
    apply IH; [discriminate | reflexivity].
Qed.

Lemma spaced_last (lead : str) (all_defs : list str) (trail : str) :
  all_defs <> [] ->
  forallb isspace lead = true -> forallb isspace trail = true ->
  strip (List.last (spaced lead all_defs trail) []) = strip (List.last all_defs []).
Proof.
  intros Hne Hl Ht. revert lead Hl; induction all_defs as [|r rs IH]; intros lead Hl;
    [contradiction|].
  destruct rs as [|r' rs].
  - cbn [spaced List.last]. rewrite strip_blank_l by assumption.
    now rewrite strip_blank_r.
  - change (spaced lead (r :: r' :: rs) trail)
      with ((lead ++ r) :: spaced clause_lead (r' :: rs) trail).
    change (List.last (r :: r' :: rs) []) with (List.last (r' :: rs) []).
    assert (Hs : spaced clause_lead (r' :: rs) trail <> []) by (destruct rs; discriminate).
    destruct (spaced clause_lead (r' :: rs) trail) as [|p ps] eqn:E; [contradiction|].
    change (List.last ((lead ++ r) :: p :: ps) []) with (List.last (p :: ps) []).
    rewrite <- E. apply IH; [discriminate | reflexivity].
Qed.

(** The member splitting gives back the clauses of a generated statement,
    stripped. *)
Lemma split_columns_body (all_defs : list str) :
  Forall (fun r => closed r = true) all_defs ->
  Forall (fun r => strip r <> []) all_defs ->
  _split_columns (table_body all_defs) = map strip all_defs.
Proof.
  intros Hc Hn. rewrite split_columns_pieces.
  assert (Hp : pieces_from 0 [] (table_body all_defs) = spaced clause_lead all_defs [nl]).
  { unfold table_body.
    change ([nl] ++ lit "    " ++ join clause_sep all_defs ++ [nl])
      with (clause_lead ++ join clause_sep all_defs ++ [nl]).
    rewrite pieces_from_blank by reflexivity. now apply pieces_join. }
  rewrite Hp. destruct all_defs as [|r rs]; [reflexivity|].
  rewrite spaced_last by (try discriminate; reflexivity).
  assert (Hl : strip (List.last (r :: rs) []) <> []).
  { rewrite List.Forall_forall in Hn. apply Hn.
    destruct (@exists_last _ (r :: rs)) as (a & x & E); [discriminate|].
    rewrite E, last_last. apply in_or_app. right. now left. }
  destruct (strip (List.last (r :: rs) [])); [contradiction|].
  apply spaced_strip; [discriminate | reflexivity | reflexivity].
Qed.

End BodyFacts.
(** ** Parsing one member back *)

Section MemberFacts.
Import Py SchemaParser SqlStrToDict RoundTrip Script Members.

Lemma columns_loop_step (col : str) (rest : list str) (columns : Table) :
  columns_loop (col :: rest) columns
  = match strip col with
    | [] => columns_loop rest columns
    | _ :: _ =>
        match classify (strip col) with
        | Ok (key, value) => columns_loop rest (dict_set key value columns)
        | Raise e => Raise e
        end
    end.
Proof. cbn [columns_loop]. unfold classify. now destruct (strip col). Qed.

Lemma drop_while_idem (p : ascii -> bool) (s : str) :
  drop_while p (drop_while p s) = drop_while p s.
Proof.
  induction s as [|c s IH]; [reflexivity|]. cbn [drop_while].
  destruct (p c) eqn:E; [exact IH|]. cbn [drop_while]. now rewrite E.
Qed.

Lemma rstrip_idem (s : str) : rstrip (rstrip s) = rstrip s.
Proof. unfold rstrip. now rewrite rev_involutive, drop_while_idem. Qed.

Lemma rstrip_head (c : ascii) (s : str) :
  isspace c = false -> exists t, rstrip (c :: s) = c :: t.
Proof.
  intros Hc. destruct (forallb isspace s) eqn:E.
  - exists []. change (c :: s) with ([c] ++ s). rewrite rstrip_blank by assumption.
    exact (rstrip_last [] c Hc).
  - exists (rstrip s). change (c :: s) with ([c] ++ s). now rewrite rstrip_keep.
Qed.

Lemma strip_idem (s : str) : strip (strip s) = strip s.
Proof.
  unfold strip. destruct (lstrip s) as [|c t] eqn:E; [reflexivity|].
  assert (Hc : isspace c = false).
  { unfold lstrip in E. clear -E. induction s as [|d s IH]; [discriminate|].
    cbn [drop_while] in E. destruct (isspace d) eqn:Ed; [now apply IH|].
    now injection E as <- _. }
  destruct (rstrip_head c t Hc) as [u Hu]. rewrite Hu.
  rewrite lstrip_head by assumption. rewrite <- Hu. apply rstrip_idem.
Qed.

Lemma rstrip_suffix (s : str) : exists b, forallb isspace b = true /\ s = rstrip s ++ b.
Proof.
  unfold rstrip. destruct (lstrip_suffix (rev s)) as (a & Ha & E).
  exists (rev a). split; [now rewrite forallb_rev|].
  unfold lstrip in E. rewrite <- rev_app_distr, <- E. now rewrite rev_involutive.
Qed.

Lemma rstrip_blank_iff (s : str) : forallb isspace (rstrip s) = forallb isspace s.
Proof.
  destruct (rstrip_suffix s) as (b & Hb & E). rewrite E at 2.
  rewrite List.forallb_app, Hb. now rewrite andb_true_r.
Qed.

(** A text that begins with a non-blank character keeps it when stripped,
    and is its strip followed by blanks. *)
Lemma strip_head_suffix (c : ascii) (s : str) :
  isspace c = false ->
  exists b, forallb isspace b = true /\ c :: s = strip (c :: s) ++ b.
Proof.
  intros Hc. unfold strip. rewrite lstrip_head by assumption. apply rstrip_suffix.
Qed.

(** Stripping keeps a prefix that begins and ends with a non-blank. *)
Lemma strip_prefix (c d : ascii) (p s : str) :
  isspace c = false -> isspace d = false ->
  exists x, strip ((c :: p ++ [d]) ++ s) = (c :: p ++ [d]) ++ x.
Proof.
  intros Hc Hd. unfold strip. cbn [app]. rewrite lstrip_head by assumption.
  change (c :: (p ++ [d]) ++ s) with ((c :: p ++ [d]) ++ s).
  destruct (forallb isspace s) eqn:E.
  - exists []. rewrite rstrip_blank by assumption. rewrite app_nil_r.
    exact (rstrip_last (c :: p) d Hd).
  - exists (rstrip s). now rewrite rstrip_keep.
Qed.

Lemma startswith_split (p s : str) :
  startswith p s = true -> exists s2, s = p ++ s2.
Proof.
  revert s; induction p as [|x p IH]; intros s H; [now exists s|].
  destruct s as [|y s]; [discriminate|]. cbn [startswith] in H.
  apply andb_prop in H as [H1 H2]. apply ascii_eqb_eq in H1. subst.
  destruct (IH _ H2) as [s2 ->]. now exists s2.
Qed.

Lemma upper_app (a b : str) : upper (a ++ b) = upper a ++ upper b.
Proof. apply map_app. Qed.

Lemma take_while_forall (p : ascii -> bool) (s : str) :
  forallb p (take_while p s) = true.
Proof.
  induction s as [|c s IH]; [reflexivity|]. cbn [take_while].
  destruct (p c) eqn:E; [|reflexivity]. cbn [forallb]. now rewrite E.
Qed.

Lemma find_from_spec (x : ascii) (s : str) (i : Z) :
  existsb (fun c => ascii_eqb c x) s = true ->
  exists a b,
    s = a ++ x :: b
    /\ forallb (fun c => negb (ascii_eqb c x)) a = true
    /\ find_from x s i = (i + Z.of_nat (length a))%Z.
Proof.
  revert i; induction s as [|c s IH]; intros i H; [discriminate|].
  cbn [existsb find_from] in *. destruct (ascii_eqb c x) eqn:E.
  - apply ascii_eqb_eq in E. subst. exists [], s. repeat split. simpl. lia.
  - destruct (IH (i + 1)%Z H) as (a & b & -> & Ha & Hf).
    exists (c :: a), b. repeat split.
    + cbn [forallb]. now rewrite E, Ha.
    + rewrite Hf. cbn [length]. lia.
Qed.

Lemma slice_to_prefix (a b : str) (x : ascii) :
  slice_to (Z.of_nat (length a) + 1) (a ++ x :: b) = a ++ [x].
Proof.
  unfold slice_to. replace (Z.to_nat (Z.of_nat (length a) + 1)) with (length a + 1) by lia.
  rewrite firstn_app. replace (length a + 1 - length a) with 1 by lia.
  rewrite firstn_all2 by lia. reflexivity.
Qed.

Lemma existsb_blank (b : str) :
  forallb isspace b = true -> existsb (fun c => ascii_eqb c ")") b = false.
Proof.
  induction b as [|c b IH]; [reflexivity|]. cbn [forallb existsb]. intros H.
  apply andb_prop in H as [Hc Hb]. destruct (isspace_plain c Hc) as (_ & -> & _).
  now apply IH.
Qed.

(** The first token and the rest of a clause [name definition]. *)
Lemma split_ws1_two (c : ascii) (name rd : str) :
  forallb (fun x => negb (isspace x)) (c :: name) = true ->
  lstrip rd <> [] ->
  split_ws1 ((c :: name) ++ " "%char :: rd) = [c :: name; lstrip rd].
Proof.
  intros Hn Hr. unfold split_ws1.
  assert (Hc : isspace c = false).
  { cbn [forallb] in Hn. apply andb_prop in Hn as [Hn _]. now apply negb_true_iff. }
  cbn [app]. rewrite lstrip_head by assumption.
  change (c :: name ++ " "%char :: rd) with ((c :: name) ++ " "%char :: rd).
  rewrite take_while_all, drop_while_all by assumption.
  change (take_while _ (" "%char :: rd)) with (@nil ascii).
  change (drop_while (fun c0 => negb (isspace c0)) (" "%char :: rd)) with (" "%char :: rd).
  change (lstrip (" "%char :: rd)) with (lstrip rd).
  rewrite app_nil_r. destruct (lstrip rd); [contradiction | reflexivity].
Qed.

End MemberFacts.
(** ** The members of a generated statement, read back *)

Section ClassifyFacts.
Import Py SchemaParser SqlStrToDict RoundTrip Script Members.

Lemma is_constraint_cases (name : str) :
  is_constraint name = true ->
  startswith (lit "PRIMARY KEY") name = true \/ startswith (lit "UNIQUE") name = true
  \/ startswith (lit "CHECK") name = true \/ startswith (lit "FOREIGN KEY") name = true.
Proof. unfold is_constraint. rewrite !orb_true_iff. tauto. Qed.

(** A data column is read back under its own name. *)
Lemma data_member_parsed (name definition : str) :
  nonempty name = true ->
  forallb (fun c => negb (isspace c)) name = true ->
  blank definition = false ->
  startswith_ci (lit "FOREIGN KEY") (render_member name definition) = false ->
  startswith_ci (lit "PRIMARY KEY") (render_member name definition) = false ->
  exists value,
    strip (render_member name definition) <> []
    /\ classify (strip (render_member name definition)) = Ok (name, value).
Proof.
  intros Hne Hn Hd Hfk Hpk. destruct name as [|c name]; [discriminate|]. clear Hne.
  assert (Hc : isspace c = false).
  { cbn [forallb] in Hn. apply andb_prop in Hn as [Hc _]. now apply negb_true_iff. }
  unfold blank in Hd.
  assert (Hs : strip (render_member (c :: name) definition)
               = (c :: name) ++ " "%char :: rstrip definition).
  { unfold render_member, strip. change (lit " ") with [" "%char]. cbn [app].
    rewrite lstrip_head by assumption.
    change (c :: name ++ " "%char :: definition)
      with ((c :: name) ++ " "%char :: definition).
    rewrite (rstrip_keep (c :: name) (" "%char :: definition))
      by (cbn [forallb]; change (isspace " ") with true; exact Hd).
    change (" "%char :: definition) with ([" "%char] ++ definition).
    now rewrite (rstrip_keep [" "%char] definition Hd). }
  assert (Hr : exists b, render_member (c :: name) definition
                         = strip (render_member (c :: name) definition) ++ b).
  { destruct (rstrip_suffix definition) as (b & _ & Ed). exists b.
    rewrite Hs. unfold render_member. change (lit " ") with [" "%char].
    rewrite Ed at 1. rewrite <- !app_assoc. reflexivity. }
  destruct Hr as [b Hr].
  assert (Htest : forall p, startswith_ci p (render_member (c :: name) definition) = false ->
            startswith (upper p) (upper (strip (render_member (c :: name) definition)))
            = false).
  { intros p Hp. unfold startswith_ci in Hp. rewrite Hr, upper_app in Hp.
    destruct (startswith (upper p) (upper (strip _))) eqn:E; [|reflexivity].
    now rewrite (startswith_app _ _ _ E) in Hp. }
  exists (strip (lstrip (rstrip definition))). split.
  - rewrite Hs. discriminate.
  - unfold classify.
    change (lit "FOREIGN KEY") with (upper (lit "FOREIGN KEY")).
    change (lit "PRIMARY KEY") with (upper (lit "PRIMARY KEY")).
    rewrite (Htest _ Hfk), (Htest _ Hpk). cbn [orb].
    rewrite Hs. unfold _parse_column. rewrite split_ws1_two.
    + now rewrite strip_no_space.
    + assumption.
    + unfold lstrip. rewrite drop_while_nil_iff, rstrip_blank_iff. congruence.
Qed.

Lemma prefix_kept (c d : ascii) (p name definition : str) :
  isspace c = false -> isspace d = false ->
  startswith (c :: p ++ [d]) name = true ->
  exists x b,
    strip (render_member name definition) = (c :: p ++ [d]) ++ x
    /\ forallb isspace b = true
    /\ render_member name definition = strip (render_member name definition) ++ b.
Proof.
  intros Hc Hd H. apply startswith_split in H as [n2 ->].
  unfold render_member. rewrite <- app_assoc.
  destruct (strip_prefix c d p (n2 ++ lit " " ++ definition) Hc Hd) as [x Hx].
  destruct (strip_head_suffix c ((p ++ [d]) ++ n2 ++ lit " " ++ definition) Hc)
    as (b & Hb & E).
  exists x, b. repeat split; assumption.
Qed.

(** A FOREIGN KEY constraint is read back under a name that begins with
    FOREIGN KEY. *)
Lemma foreign_member_parsed (name definition : str) :
  startswith (lit "FOREIGN KEY") name = true ->
  existsb (fun c => ascii_eqb c ")") (render_member name definition) = true ->
  exists key value,
    strip (render_member name definition) <> []
    /\ classify (strip (render_member name definition)) = Ok (key, value)
    /\ is_constraint key = true.
Proof.
  intros Hn Hp.
  destruct (prefix_kept "F" "Y" (lit "OREIGN KE") name definition eq_refl eq_refl Hn)
    as (x & b & Hs & Hb & Hr).
  change ("F"%char :: lit "OREIGN KE" ++ ["Y"%char]) with (lit "FOREIGN KEY") in Hs.
  rewrite Hr, existsb_app, (existsb_blank b Hb), orb_false_r in Hp.
  assert (Hidem : strip (strip (render_member name definition))
                  = strip (render_member name definition)) by apply strip_idem.
  set (sr := strip (render_member name definition)) in *.
  assert (Hup : startswith (lit "FOREIGN KEY") (upper sr) = true).
  { rewrite Hs, upper_app. apply (startswith_self (lit "FOREIGN KEY")). }
  destruct (find_from_spec ")" sr 0 Hp) as (a & b0 & Ea & Ha & Hf).
  assert (Hpa : startswith (lit "FOREIGN KEY") a = true).
  { destruct (startswith (lit "FOREIGN KEY") a) eqn:E; [reflexivity|].
    apply (startswith_app_false _ a b0 ")") in E; [|reflexivity].
    rewrite <- Ea, Hs in E. now rewrite startswith_self in E. }
  destruct (startswith_split _ _ Hpa) as [a2 Ea2].
  exists (a ++ [")"%char]), (strip (strip (slice_from (Z.of_nat (length a) + 1) sr))).
  split; [rewrite Hs; discriminate|]. split.
  - unfold classify. rewrite Hup. cbn [orb]. unfold _parse_constraint.
    rewrite Hidem, Hup. unfold find. rewrite Hf, Z.add_0_l.
    rewrite Ea at 1. rewrite slice_to_prefix.
    f_equal. f_equal. rewrite Ea2.
    change ((lit "FOREIGN KEY" ++ a2) ++ [")"%char])
      with ("F"%char :: (lit "OREIGN KEY" ++ a2) ++ [")"%char]).
    now apply strip_fixed.
  - unfold is_constraint. rewrite (startswith_app _ a [")"%char] Hpa).
    now rewrite !orb_true_r.
Qed.

(** A PRIMARY KEY constraint is read back under the name PRIMARY KEY. *)
Lemma primary_member_parsed (name definition : str) :
  startswith (lit "PRIMARY KEY") name = true ->
  existsb (fun c => ascii_eqb c ")") (render_member name definition) = true ->
  exists value,
    strip (render_member name definition) <> []
    /\ classify (strip (render_member name definition)) = Ok (lit "PRIMARY KEY", value).
Proof.
  intros Hn Hp.
  destruct (prefix_kept "P" "Y" (lit "RIMARY KE") name definition eq_refl eq_refl Hn)
    as (x & b & Hs & Hb & Hr).
  change ("P"%char :: lit "RIMARY KE" ++ ["Y"%char]) with (lit "PRIMARY KEY") in Hs.
  rewrite Hr, existsb_app, (existsb_blank b Hb), orb_false_r in Hp.
  assert (Hidem : strip (strip (render_member name definition))
                  = strip (render_member name definition)) by apply strip_idem.
  set (sr := strip (render_member name definition)) in *.
  assert (Hfk : startswith (lit "FOREIGN KEY") (upper sr) = false) by now rewrite Hs.
  assert (Hpk : startswith (lit "PRIMARY KEY") (upper sr) = true).
  { rewrite Hs, upper_app. apply (startswith_self (lit "PRIMARY KEY")). }
  destruct (find_from_spec ")" sr 0 Hp) as (a & b0 & Ea & Ha & Hf).
  exists (strip (strip (slice_from 11 sr))).
  split; [rewrite Hs; discriminate|].
  unfold classify. rewrite Hfk, Hpk. cbn [orb]. unfold _parse_constraint.
  rewrite Hidem, Hfk, Hpk. unfold find. rewrite Hf.
  replace (0 + Z.of_nat (length a) =? -1)%Z with false by (symmetry; apply Z.eqb_neq; lia).
  reflexivity.
Qed.

(** Any other constraint is read back under a name that begins like its
    own. *)
Lemma other_member_parsed (c d : ascii) (p name definition : str) :
  forallb (fun x => negb (isspace x)) (c :: p ++ [d]) = true ->
  (forall y, startswith (lit "FOREIGN KEY") (upper ((c :: p ++ [d]) ++ y)) = false) ->
  (forall y, startswith (lit "PRIMARY KEY") (upper ((c :: p ++ [d]) ++ y)) = false) ->
  startswith (c :: p ++ [d]) name = true ->
  two_parts (strip (render_member name definition)) = true ->
  exists key value,
    strip (render_member name definition) <> []
    /\ classify (strip (render_member name definition)) = Ok (key, value)
    /\ startswith (c :: p ++ [d]) key = true.
Proof.
  intros Hns Hfk Hpk Hn Htwo.
  assert (Hc : isspace c = false).
  { cbn [forallb] in Hns. apply andb_prop in Hns as [H _]. now apply negb_true_iff. }
  assert (Hd : isspace d = false).
  { cbn [forallb] in Hns. apply andb_prop in Hns as [_ H].
    apply forallb_app_iff in H as [_ H]. cbn [forallb] in H.
    apply andb_prop in H as [H _]. now apply negb_true_iff. }
  destruct (prefix_kept c d p name definition Hc Hd Hn) as (x & b & Hs & _ & _).
  rewrite Hs in *. clear Hs.
  unfold classify. rewrite Hfk, Hpk. cbn [orb].
  unfold two_parts, _parse_column, split_ws1 in *.
  cbn [app] in *. rewrite lstrip_head in * by assumption.
  set (tok := take_while (fun c0 => negb (isspace c0)) (c :: (p ++ [d]) ++ x)) in *.
  destruct (lstrip (drop_while _ _)) as [|e rest]; [discriminate|].
  exists (strip tok), (strip (e :: rest)). split; [discriminate|]. split; [reflexivity|].
  rewrite strip_no_space by apply take_while_forall.
  subst tok. change (c :: (p ++ [d]) ++ x) with ((c :: p ++ [d]) ++ x).
  rewrite take_while_all by assumption. apply startswith_self.
Qed.

(** Every well-formed member is read back: a data column under its name, a
    constraint under a constraint name. *)
Lemma member_parsed (m : str * str) :
  member_ok m = true ->
  exists key value,
    strip (render m) <> []
    /\ classify (strip (render m)) = Ok (key, value)
    /\ (if is_constraint (fst m) then is_constraint key = true else key = fst m).
Proof.
  destruct m as [name definition]. unfold member_ok, render. cbn [fst snd].
  intros H. apply andb_prop in H as [_ H].
  destruct (is_constraint name) eqn:Ec.
  - destruct (startswith (lit "FOREIGN KEY") name) eqn:Efk.
    + cbn [orb] in H. destruct (foreign_member_parsed name definition Efk H)
        as (k & v & H1 & H2 & H3). eauto.
    + destruct (startswith (lit "PRIMARY KEY") name) eqn:Epk.
      * cbn [orb] in H. destruct (primary_member_parsed name definition Epk H)
          as (v & H1 & H2). exists (lit "PRIMARY KEY"), v. auto.
      * cbn [orb] in H.
        destruct (is_constraint_cases name Ec) as [E|[E|[E|E]]]; try congruence.
        -- destruct (other_member_parsed "U" "E" (lit "NIQU") name definition
                       eq_refl (fun _ => eq_refl) (fun _ => eq_refl) E H)
             as (k & v & H1 & H2 & H3).
           exists k, v. repeat split; try assumption.
           unfold is_constraint.
           change ("U"%char :: lit "NIQU" ++ ["E"%char]) with (lit "UNIQUE") in H3.
           rewrite H3. now rewrite !orb_true_r.
        -- destruct (other_member_parsed "C" "K" (lit "HEC") name definition
                       eq_refl (fun _ => eq_refl) (fun _ => eq_refl) E H)
             as (k & v & H1 & H2 & H3).
           exists k, v. repeat split; try assumption.
           unfold is_constraint.
           change ("C"%char :: lit "HEC" ++ ["K"%char]) with (lit "CHECK") in H3.
           rewrite H3. now rewrite !orb_true_r.
  - repeat (apply andb_prop in H as [H ?]).
    destruct (data_member_parsed name definition) as (v & Hv1 & Hv2);
      try assumption; try (now apply negb_true_iff).
    exists name, v. auto.
Qed.

End ClassifyFacts.
(** ** Rendering a schema and parsing it back *)

Section RoundTripFacts.
Import Py SchemaParser SqlStrToDict Splitting RoundTrip Script Bodies Members.

Lemma distinct_NoDup (names : list str) : distinct names = true -> List.NoDup names.
Proof.
  induction names as [|n rest IH]; intros H; [constructor|].
  cbn [distinct] in H. apply andb_prop in H as [H1 H2].
  constructor; [|now apply IH].
  intros Hin. apply mem_In in Hin. rewrite Hin in H1. discriminate.
Qed.

Lemma data_columns_cons (m : str * str) (ms : Table) :
  data_columns (m :: ms)
  = if is_constraint (fst m) then data_columns ms else fst m :: data_columns ms.
Proof. unfold data_columns. cbn [map List.filter]. now destruct (is_constraint (fst m)). Qed.

Lemma data_columns_app (a b : Table) :
  data_columns (a ++ b) = data_columns a ++ data_columns b.
Proof. unfold data_columns. now rewrite map_app, List.filter_app. Qed.

Lemma data_columns_set_constraint (k v : str) (d : Table) :
  is_constraint k = true -> data_columns (dict_set k v d) = data_columns d.
Proof.
  intros Hk. induction d as [|[k' v'] d IH]; cbn [dict_set].
  - rewrite data_columns_cons. cbn [fst]. now rewrite Hk.
  - destruct (str_eqb k' k); rewrite !data_columns_cons; cbn [fst]; [reflexivity|].
    now rewrite IH.
Qed.

Lemma data_columns_set_fresh (k v : str) (d : Table) :
  is_constraint k = false -> ~ In k (data_columns d) ->
  data_columns (dict_set k v d) = data_columns d ++ [k].
Proof.
  intros Hk. induction d as [|[k' v'] d IH]; cbn [dict_set]; intros Hin.
  - rewrite data_columns_cons. cbn [fst]. now rewrite Hk.
  - rewrite data_columns_cons in Hin. cbn [fst] in Hin.
    destruct (str_eqb k' k) eqn:E.
    + apply str_eqb_eq in E. subst. rewrite Hk in Hin. exfalso. apply Hin. now left.
    + rewrite !data_columns_cons. cbn [fst].
      destruct (is_constraint k'); [now apply IH|].
      cbn [app]. f_equal. apply IH. intros H. apply Hin. now right.
Qed.

(** The loop of [_extract_columns] on the clauses of well-formed members
    adds their data columns, in order, and nothing else that counts as a
    data column. *)
Lemma columns_loop_members (ms : Table) (acc : Table) :
  forallb member_ok ms = true ->
  List.NoDup (data_columns ms) ->
  (forall n, In n (data_columns ms) -> ~ In n (data_columns acc)) ->
  exists acc',
    columns_loop (map (fun m => strip (render m)) ms) acc = Ok acc'
    /\ data_columns acc' = data_columns acc ++ data_columns ms.
Proof.
  revert acc; induction ms as [|m ms IH]; intros acc Hok Hnd Hfresh.
  - exists acc. split; [reflexivity|]. unfold data_columns at 3. cbn.
    now rewrite app_nil_r.
  - cbn [forallb] in Hok. apply andb_prop in Hok as [Hm Hms].
    destruct (member_parsed m Hm) as (k & v & Hne & Hcl & Hk).
    cbn [map]. rewrite columns_loop_step, strip_idem.
    destruct (strip (render m)) as [|c s] eqn:Es; [contradiction|].
    rewrite Hcl. rewrite data_columns_cons in Hnd, Hfresh |- *.
    destruct (is_constraint (fst m)) eqn:Ec.
    + destruct (IH (dict_set k v acc) Hms Hnd) as (acc' & H1 & H2).
      { intros n Hn. rewrite data_columns_set_constraint by assumption. auto. }
      exists acc'. split; [exact H1|].
      now rewrite H2, data_columns_set_constraint.
    + subst k. apply List.NoDup_cons_iff in Hnd as [Hnew Hnd].
      assert (Hacc : ~ In (fst m) (data_columns acc)) by (apply Hfresh; now left).
      destruct (IH (dict_set (fst m) v acc) Hms Hnd) as (acc' & H1 & H2).
      { intros n Hn. rewrite data_columns_set_fresh by assumption.
        rewrite in_app_iff. intros [H|[H|[]]].
        - apply (Hfresh n); [now right | exact H].
        - subst. contradiction. }
      exists acc'. split; [exact H1|].
      rewrite H2, data_columns_set_fresh by assumption.
      now rewrite <- app_assoc.
Qed.

Lemma data_columns_filter_data (columns : Table) :
  data_columns (List.filter is_data columns) = data_columns columns.
Proof.
  induction columns as [|m ms IH]; [reflexivity|]. cbn [List.filter]. unfold is_data at 1.
  rewrite (data_columns_cons m ms).
  destruct (is_constraint (fst m)) eqn:E; cbn [negb]; [exact IH|].
  rewrite data_columns_cons, E. now rewrite IH.
Qed.

Lemma data_columns_filter_constraint (columns : Table) :
  data_columns (List.filter (fun m => is_constraint (fst m)) columns) = [].
Proof.
  induction columns as [|m ms IH]; [reflexivity|]. cbn [List.filter].
  destruct (is_constraint (fst m)) eqn:E; [|exact IH].
  now rewrite data_columns_cons, E.
Qed.

Lemma forallb_filter {A : Type} (p q : A -> bool) (l : list A) :
  forallb p l = true -> forallb p (List.filter q l) = true.
Proof.
  induction l as [|x l IH]; [reflexivity|]. cbn [forallb List.filter]. intros H.
  apply andb_prop in H as [Hx Hl]. destruct (q x); [|now apply IH].
  cbn [forallb]. now rewrite Hx, IH.
Qed.

Lemma NoDup_filter_names (p : str -> bool) (l : list str) :
  List.NoDup l -> List.NoDup (List.filter p l).
Proof. apply List.NoDup_filter. Qed.

(** The members of a table, data columns first, as the generator orders
    their clauses. *)
Lemma clauses_members (columns : Table) :
  clauses columns
  = map render (List.filter is_data columns
                ++ List.filter (fun m => is_constraint (fst m)) columns).
Proof. unfold clauses. now rewrite map_app. Qed.

Lemma member_ok_clause (m : str * str) :
  member_ok m = true ->
  closed (render m) = true /\ has_close (render m) = false /\ strip (render m) <> [].
Proof.
  intros H. destruct (member_parsed m H) as (_ & _ & Hne & _).
  destruct m as [n d]. unfold member_ok in H. unfold render. cbn [fst snd] in *.
  apply andb_prop in H as [H _]. apply andb_prop in H as [H1 H2].
  apply negb_true_iff in H2. auto.
Qed.

(** The columns of a generated table statement, read back. *)
Lemma extract_columns_statement (table_name : str) (columns : Table) :
  forallb isword table_name = true ->
  distinct (map fst columns) = true ->
  forallb member_ok columns = true ->
  exists parsed,
    _extract_columns (create_table_sql table_name (clauses columns)) = Ok parsed
    /\ data_columns parsed = data_columns columns.
Proof.
  intros Hw Hd Hok. unfold _extract_columns.
  rewrite search_parens_statement by assumption.
  set (ms := List.filter is_data columns
             ++ List.filter (fun m => is_constraint (fst m)) columns).
  assert (Hms : forallb member_ok ms = true).
  { unfold ms. apply forallb_app_iff. split; now apply forallb_filter. }
  assert (Hall : Forall (fun m => member_ok m = true) ms).
  { apply List.Forall_forall. intros m Hm.
    rewrite List.forallb_forall in Hms. now apply Hms. }
  rewrite clauses_members. fold ms.
  rewrite split_columns_body.
  - rewrite map_map.
    destruct (columns_loop_members ms [] Hms) as (parsed & H1 & H2).
    + unfold ms. rewrite data_columns_app, data_columns_filter_data,
        data_columns_filter_constraint, app_nil_r.
      apply NoDup_filter_names. now apply distinct_NoDup.
    + intros n _ [].
    + exists parsed. split; [exact H1|]. rewrite H2. unfold ms.
      now rewrite data_columns_app, data_columns_filter_data,
        data_columns_filter_constraint, app_nil_r.
  - apply List.Forall_map. eapply List.Forall_impl; [|exact Hall].
    intros m Hm. now apply member_ok_clause.
  - apply List.Forall_map. eapply List.Forall_impl; [|exact Hall].
    intros m Hm. now apply member_ok_clause.
Qed.

End RoundTripFacts.
(** ** The whole script *)

Section ParseFacts.
Import Py SchemaParser SqlStrToDict Splitting RoundTrip Script Bodies Members.

Lemma table_ok_parts (idxs : option (list str)) (table_name : str) (columns : Table) :
  table_ok idxs (table_name, columns) = true ->
  nonempty table_name = true
  /\ forallb isword table_name = true
  /\ distinct (map fst columns) = true
  /\ forallb member_ok columns = true
  /\ forallb (fun name =>
       negb (hinted idxs name)
       || negb (occurs_ci (lit "CREATE TABLE") (index_sql table_name name)))
       (map fst columns) = true.
Proof. unfold table_ok. rewrite !andb_true_iff. tauto. Qed.

Lemma index_statements_ok (idxs : option (list str)) (table_name : str) (names : list str) :
  forallb (fun name =>
     negb (hinted idxs name)
     || negb (occurs_ci (lit "CREATE TABLE") (index_sql table_name name))) names = true ->
  Forall statement_ok (map (index_sql table_name) (List.filter (hinted idxs) names)).
Proof.
  induction names as [|n names IH]; [constructor|]. cbn [forallb List.filter]. intros H.
  apply andb_prop in H as [Hn Hrest]. destruct (hinted idxs n); [|now apply IH].
  cbn [negb orb] in Hn. apply negb_true_iff in Hn.
  cbn [map]. constructor; [now left | now apply IH].
Qed.

Lemma statements_ok (idxs : option (list str)) (schema : Schema) :
  forallb (table_ok idxs) schema = true -> Forall statement_ok (statements idxs schema).
Proof.
  induction schema as [|[t columns] schema IH]; [constructor|]. cbn [forallb]. intros H.
  apply andb_prop in H as [Ht Hrest].
  destruct (table_ok_parts idxs t columns Ht) as (_ & Hw & _ & Hm & Hi).
  unfold statements. cbn [flat_map]. unfold table_statements at 1. cbn [fst snd app].
  constructor.
  - apply create_table_sql_ok; [assumption|]. rewrite clauses_members.
    apply List.Forall_map, List.Forall_forall. intros m Hin.
    apply member_ok_clause.
    apply in_app_or in Hin as [Hin|Hin]; apply filter_In in Hin as [Hin _];
      rewrite List.forallb_forall in Hm; now apply Hm.
  - apply List.Forall_app. split; [|now apply IH].
    now apply index_statements_ok.
Qed.

Lemma index_statements_skipped (table_name : str) (names : list str) (rest : list str) :
  table_statements_of (map (index_sql table_name) names ++ rest) = table_statements_of rest.
Proof.
  unfold table_statements_of. induction names as [|n names IH]; [reflexivity|].
  cbn [map app List.filter].
  change (startswith_ci (lit "CREATE TABLE") (index_sql table_name n)) with false.
  exact IH.
Qed.

(** The table statements of a script are one per table, in order. *)
Lemma table_statements_of_script (idxs : option (list str)) (schema : Schema) :
  table_statements_of (statements idxs schema)
  = map (fun entry => create_table_sql (fst entry) (clauses (snd entry))) schema.
Proof.
  induction schema as [|[t columns] schema IH]; [reflexivity|].
  unfold statements. cbn [flat_map map]. unfold table_statements at 1.
  cbn [fst snd app]. unfold table_statements_of at 1. cbn [List.filter].
  rewrite create_table_sql_shape at 1.
  change (startswith_ci (lit "CREATE TABLE")
            (lit "CREATE TABLE IF NOT EXISTS " ++ _)) with true. cbn iota.
  f_equal. unfold index_statements.
  fold (table_statements_of
          (map (index_sql t) (List.filter (hinted idxs) (map fst columns))
           ++ flat_map (table_statements idxs) schema)).
  rewrite index_statements_skipped. exact IH.
Qed.

Lemma data_column_lists_app (a b : Schema) :
  data_column_lists (a ++ b) = data_column_lists a ++ data_column_lists b.
Proof. apply map_app. Qed.

(** The loop of [parse] on the table statements of a script. *)
Lemma parse_loop_tables (idxs : option (list str)) (schema acc : Schema) :
  forallb (table_ok idxs) schema = true ->
  List.NoDup (map fst schema) ->
  (forall t, In t (map fst schema) -> ~ In t (map fst acc)) ->
  exists parsed,
    parse_loop
      (map (fun entry => create_table_sql (fst entry) (clauses (snd entry))) schema) acc
    = Ok parsed
    /\ data_column_lists parsed = data_column_lists acc ++ data_column_lists schema.
Proof.
  revert acc; induction schema as [|[t columns] schema IH]; intros acc Hok Hnd Hfresh.
  - exists acc. split; [reflexivity|]. cbn. now rewrite app_nil_r.
  - cbn [forallb] in Hok. apply andb_prop in Hok as [Ht Hrest].
    destruct (table_ok_parts idxs t columns Ht) as (Hne & Hw & Hd & Hm & _).
    cbn [map fst snd parse_loop].
    rewrite extract_table_name_statement by assumption.
    destruct (extract_columns_statement t columns Hw Hd Hm) as (cols & -> & Hcols).
    cbn [map] in Hnd. apply List.NoDup_cons_iff in Hnd as [Hnew Hnd].
    rewrite dict_set_fresh by (apply Hfresh; now left).
    destruct (IH (acc ++ [(t, cols)]) Hrest Hnd) as (parsed & H1 & H2).
    { intros t' Ht'. rewrite map_app, in_app_iff. cbn. intros [H|[H|[]]].
      - apply (Hfresh t'); [now right | exact H].
      - subst. contradiction. }
    exists parsed. split; [exact H1|].
    rewrite H2, data_column_lists_app. cbn [data_column_lists map fst snd].
    rewrite Hcols, <- app_assoc. reflexivity.
Qed.

Lemma same_lists_same_columns (a b : Schema) :
  data_column_lists a = data_column_lists b -> same_data_columns a b.
Proof.
  revert b; induction a as [|[t ca] a IH]; intros [|[t' cb] b] H; try discriminate.
  - split; [tauto|]. intros t ca cb Ha. discriminate.
  - cbn [data_column_lists map fst snd] in H. injection H as -> Hc Hrest.
    destruct (IH b Hrest) as [Hnone Hsome]. split.
    + intros t. cbn [dict_get]. destruct (str_eqb t' t); [|apply Hnone].
      split; discriminate.
    + intros t ca' cb'. cbn [dict_get]. destruct (str_eqb t' t); [|apply Hsome].
      intros [= <-] [= <-] c. now rewrite Hc.
Qed.

End ParseFacts.
(** ** The round trip *)

Section RoundTripMain.
Import Py SchemaParser SqlStrToDict Splitting RoundTrip Script Bodies Members.

(** X2.  A schema whose tables have distinct word names and distinct,
    well-formed members ([renderable]) survives the round trip: the parser
    accepts the script the generator writes for it, with or without index
    hints, and the schema it returns has the same tables, in the same
    order, each with the same data columns in the same order. *)
Theorem parse_generated_script (schema : Schema) (idxs : option (list str)) :
  renderable schema idxs = true ->
  exists parsed,
    parse (fst (generate_sql schema idxs)) = Ok parsed
    /\ data_column_lists parsed = data_column_lists schema
    /\ same_data_columns schema parsed.
Proof.
  intros H. unfold renderable in H. apply andb_prop in H as [Hd Hok].
  unfold parse. rewrite generate_sql_statements.
  rewrite split_statements_script by now apply statements_ok.
  rewrite table_statements_of_script.
  destruct (parse_loop_tables idxs schema [] Hok) as (parsed & H1 & H2).
  - now apply distinct_NoDup.
  - intros t _ [].
  - exists parsed. split; [exact H1|]. split; [exact H2|].
    now apply same_lists_same_columns.
Qed.

Lemma parse_generated_script_witness :
  let idxs := Some [lit "customer_id"; lit "order_id"] in
  renderable orders_schema idxs = true
  /\ exists parsed,
       parse (fst (generate_sql orders_schema idxs)) = Ok parsed
       /\ data_column_lists parsed = data_column_lists orders_schema
       /\ same_data_columns orders_schema parsed.
Proof.
  intros idxs.
  assert (H : renderable orders_schema idxs = true) by (vm_compute; reflexivity).
  split; [exact H | exact (parse_generated_script orders_schema idxs H)].
Defined.

(** Without well-formed members the round trip can fail: a comma in a
    default value is taken for a separator, and the parser rejects the
    script of a schema the validator accepts. *)
Lemma comma_in_default_breaks_round_trip :
  SchemaValidator.validate contacts_schema None = Ok true
  /\ ~ round_trips contacts_schema None.
Proof.
  split; [reflexivity|]. intros (parsed & H & _). vm_compute in H. discriminate.
Qed.

End RoundTripMain.
(** ** More on the parser *)

Section ParserExtras.
Import Py SchemaParser SqlStrToDict Splitting RoundTrip Script Closing Members Shapes.

Lemma until_close_spec (s m r : str) :
  until_close s = Some (m, r) ->
  s = m ++ r /\ exists q, m = q ++ lit ");" /\ has_close q = false.
Proof.
  revert m r; induction s as [|c s IH]; intros m r; [discriminate|].
  destruct s as [|d s]; [discriminate|]. rewrite until_close_cons2.
  destruct (ascii_eqb c ")" && ascii_eqb d ";") eqn:E.
  - intros [= <- <-]. apply andb_prop in E as [E1 E2].
    apply ascii_eqb_eq in E1, E2. subst. split; [reflexivity|]. now exists [].
  - destruct (until_close (d :: s)) as [[m' r']|] eqn:Eu; [|discriminate].
    intros [= <- <-]. destruct (IH _ _ eq_refl) as (Hs & q & -> & Hq).
    split; [cbn [app]; now rewrite Hs|]. exists (c :: q). split; [reflexivity|].
    destruct q as [|e q]; [reflexivity|]. rewrite has_close_cons2, Hq, orb_false_r.
    cbn [app] in Hs. injection Hs as <- _. exact E.
Qed.

Lemma startswith_firstn (p s m : str) :
  startswith p s = true -> startswith p (firstn (length p) s ++ m) = true.
Proof.
  revert s; induction p as [|x p IH]; intros s H; [reflexivity|].
  destruct s as [|y s]; [discriminate|]. cbn [startswith length firstn app] in *.
  apply andb_prop in H as [H1 H2]. rewrite H1. cbn [andb]. now apply IH.
Qed.

Lemma startswith_length (p s : str) : startswith p s = true -> length p <= length s.
Proof.
  revert s; induction p as [|x p IH]; intros s H; [simpl; lia|].
  destruct s as [|y s]; [discriminate|]. cbn [startswith] in H.
  apply andb_prop in H as [_ H]. apply IH in H. simpl. lia.
Qed.

Lemma found_statement (s m : str) :
  startswith_ci (lit "CREATE TABLE") s = true ->
  (exists q, m = q ++ lit ");" /\ has_close q = false) ->
  table_statement (firstn 12 s ++ m).
Proof.
  intros Hs (q & -> & Hq). unfold table_statement.
  assert (Hl : length (firstn 12 s) = 12).
  { apply List.firstn_length_le. apply startswith_length in Hs.
    unfold upper in Hs. rewrite !length_map in Hs. exact Hs. }
  split.
  - unfold startswith_ci in *. rewrite upper_app. unfold upper at 2.
    rewrite <- List.firstn_map. fold (upper s).
    apply (startswith_firstn (upper (lit "CREATE TABLE")) (upper s)). exact Hs.
  - exists q. split; [|exact Hq].
    rewrite List.firstn_app, Hl, List.firstn_firstn. cbn [Nat.min Nat.sub firstn].
    now rewrite app_nil_r.
Qed.

Lemma findall_shape (fuel : nat) (s : str) :
  Forall table_statement (findall_create fuel s).
Proof.
  revert s; induction fuel as [|fuel IH]; intros s; [constructor|].
  destruct s as [|c s]; [constructor|]. rewrite findall_step.
  destruct (startswith_ci (lit "CREATE TABLE") (c :: s)) eqn:E; [|apply IH].
  destruct (until_close (skipn 12 (c :: s))) as [[m r]|] eqn:Eu; [|apply IH].
  constructor; [|apply IH].
  apply found_statement; [exact E|]. now apply until_close_spec in Eu as [_ H].
Qed.

Lemma has_close_suffix (a b : str) : has_close (a ++ b) = false -> has_close b = false.
Proof.
  rewrite has_close_app. intros H. apply orb_false_elim in H as [H _].
  now apply orb_false_elim in H as [_ H].
Qed.

Lemma findall_no_close (fuel : nat) (s : str) :
  has_close s = false -> findall_create fuel s = [].
Proof.
  revert s; induction fuel as [|fuel IH]; intros s H; [reflexivity|].
  destruct s as [|c s]; [reflexivity|]. rewrite findall_step.
  assert (Hs : has_close s = false) by exact (has_close_suffix [c] s H).
  destruct (startswith_ci (lit "CREATE TABLE") (c :: s)); [|now apply IH].
  assert (Hk : has_close (skipn 12 (c :: s)) = false).
  { apply (has_close_suffix (firstn 12 (c :: s))). now rewrite firstn_skipn. }
  unfold has_close in Hk. destruct (until_close (skipn 12 (c :: s))); [discriminate|].
  now apply IH.
Qed.

Lemma findall_no_create (fuel : nat) (s : str) :
  occurs_ci (lit "CREATE TABLE") s = false -> findall_create fuel s = [].
Proof.
  revert s; induction fuel as [|fuel IH]; intros s H; [reflexivity|].
  destruct s as [|c s]; [reflexivity|]. rewrite findall_step.
  cbn [occurs_ci] in H. apply orb_false_elim in H as [H1 H2]. rewrite H1.
  now apply IH.
Qed.

(** X3.  Whatever the text, every statement the statement search returns
    begins with CREATE TABLE in some letter case and runs to the first
    [");"] after these words, and no further; a text without CREATE TABLE,
    or without [");"], gives no statement and is not an error. *)
Theorem split_statements_shape (schema_str : str) :
  Forall table_statement (_split_statements schema_str)
  /\ (occurs_ci (lit "CREATE TABLE") schema_str = false -> parse schema_str = Ok [])
  /\ (has_close schema_str = false -> parse schema_str = Ok []).
Proof.
  split; [apply findall_shape|]. unfold parse, _split_statements. split; intros H.
  - now rewrite findall_no_create.
  - now rewrite findall_no_close.
Qed.

Lemma split_statements_shape_witness :
  let text := lit "-- notes; CREATE INDEX i ON t (a);" in
  occurs_ci (lit "CREATE TABLE") text = false /\ parse text = Ok [].
Proof.
  intros text.
  assert (H : occurs_ci (lit "CREATE TABLE") text = false) by reflexivity.
  split; [exact H|].
  exact (proj1 (proj2 (split_statements_shape text)) H).
Defined.

Lemma match_name_at_word (kw s name : str) :
  match_name_at kw s = Some name ->
  name <> [] /\ forallb isword name = true /\ startswith_ci kw s = true.
Proof.
  unfold match_name_at. destruct (startswith_ci kw s); [|discriminate].
  destruct (skipn (length kw) s) as [|c r]; [discriminate|].
  destruct (isspace c); [|discriminate].
  pose proof (take_while_forall isword (drop_while isspace (c :: r))) as Hw.
  destruct (take_while isword (drop_while isspace (c :: r))) as [|x t]; [discriminate|].
  destruct (drop_while isspace (drop_while isword _)) as [|d u]; [discriminate|].
  destruct (ascii_eqb d "("); [|discriminate].
  intros [= <-]. repeat split; [discriminate | exact Hw].
Qed.

Lemma search_name_word (kw s name : str) :
  search_name kw s = Some name ->
  name <> [] /\ forallb isword name = true /\ occurs_ci kw s = true.
Proof.
  induction s as [|c s IH]; cbn [search_name occurs_ci].
  - destruct (match_name_at kw []) eqn:E; [|discriminate].
    intros [= <-]. apply match_name_at_word in E as (H1 & H2 & H3).
    rewrite H3. auto.
  - destruct (match_name_at kw (c :: s)) eqn:E.
    + intros [= <-]. apply match_name_at_word in E as (H1 & H2 & H3).
      rewrite H3. auto.
    + intros H. destruct (IH H) as (H1 & H2 & H3). rewrite H3, orb_true_r. auto.
Qed.

Lemma search_name_none (kw s : str) : occurs_ci kw s = false -> search_name kw s = None.
Proof.
  intros H. destruct (search_name kw s) as [name|] eqn:E; [|reflexivity].
  apply search_name_word in E as (_ & _ & E). congruence.
Qed.

Lemma occurs_longer (s : str) :
  occurs_ci (lit "CREATE TABLE IF NOT EXISTS") s = true ->
  occurs_ci (lit "CREATE TABLE") s = true.
Proof.
  induction s as [|c s IH]; cbn [occurs_ci]; intros H.
  - rewrite orb_false_r in H. discriminate.
  - apply orb_true_iff in H as [H|H]; [|rewrite (IH H); apply orb_true_r].
    replace (startswith_ci (lit "CREATE TABLE") (c :: s)) with true; [reflexivity|].
    symmetry. unfold startswith_ci in *.
    change (upper (lit "CREATE TABLE IF NOT EXISTS"))
      with (upper (lit "CREATE TABLE") ++ lit " IF NOT EXISTS") in H.
    destruct (startswith_split _ _ H) as [s2 Es]. rewrite Es, <- app_assoc.
    apply startswith_self.
Qed.

Lemma extract_table_name_ok (statement name : str) :
  _extract_table_name statement = Ok name ->
  name <> [] /\ forallb isword name = true
  /\ occurs_ci (lit "CREATE TABLE") statement = true.
Proof.
  unfold _extract_table_name.
  destruct (search_name (lit "CREATE TABLE IF NOT EXISTS") statement) as [n|] eqn:E1.
  - intros [= <-]. apply search_name_word in E1 as (H1 & H2 & H3).
    repeat split; [exact H1 | exact H2 | now apply occurs_longer].
  - destruct (search_name (lit "CREATE TABLE") statement) as [n|] eqn:E2;
      [|discriminate].
    intros [= <-]. now apply search_name_word in E2.
Qed.

(** X4.  A table name [_extract_table_name] returns is never empty and
    consists of word characters only, and it is found only in a statement
    that holds CREATE TABLE; on any other text the function raises
    ValueError. *)
Theorem extract_table_name_word (statement : str) :
  (forall name, _extract_table_name statement = Ok name ->
     name <> [] /\ forallb isword name = true
     /\ occurs_ci (lit "CREATE TABLE") statement = true)
  /\ (occurs_ci (lit "CREATE TABLE") statement = false ->
      _extract_table_name statement
      = Raise (ValueError (lit "Table name not found in statement."))).
Proof.
  split; [intros name; apply extract_table_name_ok|].
  unfold _extract_table_name. intros H. rewrite (search_name_none _ _ H).
  rewrite search_name_none; [reflexivity|].
  destruct (occurs_ci (lit "CREATE TABLE IF NOT EXISTS") statement) eqn:E;
    [|reflexivity].
  apply occurs_longer in E. congruence.
Qed.

Lemma extract_table_name_word_witness :
  let statement := lit "DROP TABLE users;" in
  occurs_ci (lit "CREATE TABLE") statement = false
  /\ _extract_table_name statement
     = Raise (ValueError (lit "Table name not found in statement.")).
Proof.
  intros statement.
  assert (H : occurs_ci (lit "CREATE TABLE") statement = false) by reflexivity.
  split; [exact H | exact (proj2 (extract_table_name_word statement) H)].
Defined.

End ParserExtras.
(** ** What the parser and the generator return *)

Section ParserResults.
Import Py SchemaValidator SchemaParser SqlStrToDict Validation RoundTrip Script Shapes.

Lemma lstrip_head_nonspace (s t : str) (c : ascii) :
  lstrip s = c :: t -> isspace c = false.
Proof.
  unfold lstrip. induction s as [|d s IH]; [discriminate|].
  cbn [drop_while]. destruct (isspace d) eqn:Ed; [exact IH|].
  now intros [= <- _].
Qed.

Lemma strip_nonblank_head (c : ascii) (t : str) :
  isspace c = false -> strip (c :: t) <> [].
Proof.
  intros Hc. unfold strip. rewrite lstrip_head by assumption.
  destruct (rstrip_head c t Hc) as [u ->]. discriminate.
Qed.

Lemma split_ws1_parts (s tok rest : str) :
  split_ws1 s = [tok; rest] ->
  tok <> [] /\ forallb (fun c => negb (isspace c)) tok = true
  /\ strip rest <> [].
Proof.
  unfold split_ws1. destruct (lstrip s) as [|c t] eqn:E; [discriminate|].
  pose proof (lstrip_head_nonspace _ _ _ E) as Hc.
  destruct (lstrip (drop_while (fun c => negb (isspace c)) (c :: t))) as [|x r] eqn:Er;
    [discriminate|].
  intros [= <- <-]. split; [|split].
  - cbn [take_while]. rewrite Hc. discriminate.
  - exact (take_while_forall (fun c => negb (isspace c)) (c :: t)).
  - apply strip_nonblank_head. exact (lstrip_head_nonspace _ _ _ Er).
Qed.

Lemma take_drop_while (p : ascii -> bool) (s : str) :
  take_while p s ++ drop_while p s = s.
Proof.
  induction s as [|c s IH]; [reflexivity|]. cbn [take_while drop_while].
  destruct (p c); [cbn [app]; now rewrite IH | reflexivity].
Qed.

Lemma strip_lstrip (s : str) : strip (lstrip s) = strip s.
Proof. unfold strip, lstrip. now rewrite drop_while_idem. Qed.

(** A clause made of a name and a definition with white space between
    them splits into these two. *)
Lemma split_ws1_decomposed (lead name sep rest : str) :
  blank lead = true -> name <> [] ->
  forallb (fun c => negb (isspace c)) name = true ->
  sep <> [] -> blank sep = true -> blank rest = false ->
  split_ws1 (lead ++ name ++ sep ++ rest) = [name; lstrip rest].
Proof.
  unfold blank. intros Hl Hn Hw Hs Hb Hr. unfold split_ws1.
  rewrite lstrip_blank by exact Hl.
  destruct name as [|c name]; [contradiction|].
  destruct sep as [|x sep]; [contradiction|].
  assert (Hc : isspace c = false).
  { cbn [forallb] in Hw. apply andb_prop in Hw as [Hw _]. now apply negb_true_iff. }
  assert (Hx : isspace x = true).
  { cbn [forallb] in Hb. now apply andb_prop in Hb as [Hb _]. }
  cbn [app]. rewrite lstrip_head by exact Hc.
  change (c :: name ++ x :: sep ++ rest) with ((c :: name) ++ x :: sep ++ rest).
  rewrite take_while_all, drop_while_all by exact Hw.
  rewrite take_while_stop, drop_while_stop by (now rewrite Hx).
  rewrite app_nil_r.
  change (x :: sep ++ rest) with ((x :: sep) ++ rest).
  rewrite lstrip_blank by exact Hb.
  destruct (lstrip rest) as [|y r] eqn:E; [|reflexivity].
  apply drop_while_nil_iff in E. congruence.
Qed.

(** Conversely, a clause that splits in two is made of these parts. *)
Lemma split_ws1_recomposed (s tok rest : str) :
  split_ws1 s = [tok; rest] ->
  exists lead sep,
    s = lead ++ tok ++ sep ++ rest
    /\ blank lead = true /\ sep <> [] /\ blank sep = true /\ blank rest = false.
Proof.
  unfold split_ws1, blank. destruct (lstrip s) as [|c t] eqn:E; [discriminate|].
  set (p := fun c => negb (isspace c)).
  destruct (lstrip (drop_while p (c :: t))) as [|x r] eqn:Er; [discriminate|].
  intros [= <- <-].
  destruct (lstrip_suffix s) as (lead & Hlead & Hs).
  destruct (lstrip_suffix (drop_while p (c :: t))) as (sep & Hsep & Hd).
  exists lead, sep. rewrite Er in Hd. split.
  - rewrite Hs at 1. rewrite E. f_equal. rewrite <- Hd. symmetry.
    exact (take_drop_while p (c :: t)).
  - split; [exact Hlead|]. split; [|split; [exact Hsep|]].
    + intros ->. cbn [app] in Hd.
      pose proof (lstrip_head_nonspace _ _ _ Er) as Hx.
      assert (Hp : p x = false).
      { clear -Hd. induction (c :: t) as [|d l IH]; [discriminate|].
        cbn [drop_while] in Hd. destruct (p d) eqn:Ed; [now apply IH|].
        now injection Hd as -> _. }
      unfold p in Hp. rewrite Hx in Hp. discriminate.
    + cbn [forallb]. now rewrite (lstrip_head_nonspace _ _ _ Er).
Qed.

(** X5.  [_parse_column] returns the first token of the clause as the
    name and the rest of the clause, without the white space around it, as
    the definition: a clause made of leading white space, a name free of
    white space, white space, and a text that is not blank gives that name
    and that text stripped; whatever pair it returns arises this way from
    the clause; and a clause from which it returns no pair, having at most
    one token, makes it raise the ValueError that quotes the clause. *)
Theorem parse_column_parts (column_str : str) :
  (forall lead name sep rest,
     column_str = lead ++ name ++ sep ++ rest ->
     blank lead = true -> name <> [] ->
     forallb (fun c => negb (isspace c)) name = true ->
     sep <> [] -> blank sep = true -> blank rest = false ->
     _parse_column column_str = Ok (name, strip rest))
  /\ (forall column_name column_def,
        _parse_column column_str = Ok (column_name, column_def) ->
        exists lead sep rest,
          column_str = lead ++ column_name ++ sep ++ rest
          /\ blank lead = true /\ column_name <> []
          /\ forallb (fun c => negb (isspace c)) column_name = true
          /\ sep <> [] /\ blank sep = true /\ blank rest = false
          /\ column_def = strip rest /\ column_def <> [])
  /\ ((forall column_name column_def,
         _parse_column column_str <> Ok (column_name, column_def)) ->
      _parse_column column_str
      = Raise (ValueError (lit "Invalid column definition: '" ++ column_str ++ lit "'"))).
Proof.
  split; [|split].
  - intros lead name sep rest -> Hl Hn Hw Hs Hb Hr. unfold _parse_column.
    rewrite (split_ws1_decomposed lead name sep rest Hl Hn Hw Hs Hb Hr).
    now rewrite (strip_no_space name Hw), strip_lstrip.
  - intros column_name column_def. unfold _parse_column.
    destruct (split_ws1 column_str) as [|a [|b [|c l]]] eqn:E; try discriminate.
    intros [= <- <-].
    destruct (split_ws1_parts _ _ _ E) as (Ha & Hw & Hb).
    destruct (split_ws1_recomposed _ _ _ E) as (lead & sep & Hs & Hl & Hne & Hsep & Hr).
    exists lead, sep, b. rewrite (strip_no_space a Hw). repeat split; assumption.
  - intros H. unfold _parse_column in *.
    destruct (split_ws1 column_str) as [|a [|b [|c l]]]; try reflexivity.
    exfalso. exact (H _ _ eq_refl).
Qed.

Lemma parse_column_parts_witness :
  let column_str := lit "  price   DECIMAL(10,2) NOT NULL  " in
  column_str = lit "  " ++ lit "price" ++ lit "   " ++ lit "DECIMAL(10,2) NOT NULL  "
  /\ _parse_column column_str = Ok (lit "price", lit "DECIMAL(10,2) NOT NULL").
Proof.
  intros column_str.
  assert (H : column_str
              = lit "  " ++ lit "price" ++ lit "   " ++ lit "DECIMAL(10,2) NOT NULL  ")
    by reflexivity.
  split; [exact H|].
  refine (proj1 (parse_column_parts column_str) (lit "  ") (lit "price") (lit "   ")
            (lit "DECIMAL(10,2) NOT NULL  ") H eq_refl _ eq_refl _ eq_refl eq_refl);
    discriminate.
Defined.

Lemma dict_set_keys {V : Type} (k x : str) (v : V) (d : list (str * V)) :
  In x (map fst (dict_set k v d)) -> x = k \/ In x (map fst d).
Proof.
  induction d as [|[k' v'] d IH]; cbn [dict_set map fst In].
  - intros [H|[]]. now left.
  - destruct (str_eqb k' k); cbn [map fst In]; [tauto|].
    intros [H|H]; [tauto|]. apply IH in H. tauto.
Qed.

Lemma dict_set_NoDup {V : Type} (k : str) (v : V) (d : list (str * V)) :
  List.NoDup (map fst d) -> List.NoDup (map fst (dict_set k v d)).
Proof.
  induction d as [|[k' v'] d IH]; cbn [dict_set map fst]; intros H.
  - constructor; [intros [] | constructor].
  - destruct (str_eqb k' k) eqn:E; [exact H|]. cbn [map fst].
    inversion H as [|? ? Hn Hd]; subst. constructor; [|now apply IH].
    intros Hin. apply dict_set_keys in Hin as [->|Hin]; [|contradiction].
    rewrite str_eqb_refl in E. discriminate.
Qed.

Lemma dict_set_Forall {V : Type} (P : str * V -> Prop) (k : str) (v : V)
    (d : list (str * V)) :
  P (k, v) -> Forall P d -> Forall P (dict_set k v d).
Proof.
  intros Hk. induction d as [|[k' v'] d IH]; cbn [dict_set]; intros H.
  - now constructor.
  - inversion H; subst. destruct (str_eqb k' k) eqn:E.
    + apply str_eqb_eq in E. subst. now constructor.
    + constructor; [assumption | now apply IH].
Qed.

Lemma parse_constraint_stripped (s k v : str) :
  _parse_constraint s = Ok (k, v) -> stripped (k, v).
Proof.
  unfold _parse_constraint, stripped.
  repeat match goal with
         | |- context [if ?b then _ else _] => destruct b
         | |- context [match ?l with [] => _ | _ :: _ => _ end] => destruct l
         end;
    try discriminate; intros [= <- <-]; cbn [fst snd]; split; apply strip_idem.
Qed.

Lemma parse_column_stripped (s k v : str) :
  _parse_column s = Ok (k, v) -> stripped (k, v).
Proof.
  unfold _parse_column, stripped.
  destruct (split_ws1 s) as [|a [|b [|c l]]]; try discriminate.
  intros [= <- <-]. cbn [fst snd]. split; apply strip_idem.
Qed.

Lemma columns_loop_shape (l : list str) (acc columns : Table) :
  List.NoDup (map fst acc) -> Forall stripped acc ->
  columns_loop l acc = Ok columns ->
  List.NoDup (map fst columns) /\ Forall stripped columns.
Proof.
  revert acc; induction l as [|col l IH]; intros acc Hn Hs.
  - cbn [columns_loop]. intros [= <-]. auto.
  - cbn [columns_loop]. destruct (strip col) as [|c t]; [now apply IH|].
    destruct (startswith (lit "FOREIGN KEY") (upper (c :: t))
              || startswith (lit "PRIMARY KEY") (upper (c :: t))).
    + destruct (_parse_constraint (c :: t)) as [[k v]|e] eqn:E; [|discriminate].
      apply IH; [now apply dict_set_NoDup|].
      apply dict_set_Forall; [|exact Hs]. exact (parse_constraint_stripped _ _ _ E).
    + destruct (_parse_column (c :: t)) as [[k v]|e] eqn:E; [|discriminate].
      apply IH; [now apply dict_set_NoDup|].
      apply dict_set_Forall; [|exact Hs]. exact (parse_column_stripped _ _ _ E).
Qed.

Lemma parse_loop_shape (l : list str) (acc parsed : Schema) :
  List.NoDup (map fst acc) -> Forall table_shape acc ->
  parse_loop l acc = Ok parsed ->
  List.NoDup (map fst parsed) /\ Forall table_shape parsed.
Proof.
  revert acc; induction l as [|stmt l IH]; intros acc Hn Hs.
  - cbn [parse_loop]. intros [= <-]. auto.
  - cbn [parse_loop].
    destruct (_extract_table_name stmt) as [name|e] eqn:En; [|discriminate].
    destruct (_extract_columns stmt) as [columns|e] eqn:Ec; [|discriminate].
    apply IH; [now apply dict_set_NoDup|].
    apply dict_set_Forall; [|exact Hs].
    destruct (extract_table_name_ok stmt name En) as (H1 & H2 & _).
    unfold _extract_columns in Ec. destruct (search_parens stmt); [|discriminate].
    apply columns_loop_shape in Ec as [H3 H4]; [|constructor|constructor].
    unfold table_shape. cbn [fst snd]. auto.
Qed.

(** X6.  Whatever text [parse] accepts, the schema it returns has distinct
    table names, each a non-empty run of word characters, and in each table
    distinct member names, every name and definition without white space
    around it: a statement that repeats a table or a member overwrites the
    earlier entry and adds none. *)
Theorem parse_result_shape (schema_str : str) (parsed : Schema) :
  parse schema_str = Ok parsed ->
  List.NoDup (map fst parsed) /\ Forall table_shape parsed.
Proof.
  unfold parse. apply parse_loop_shape; constructor.
Qed.

Lemma parse_result_shape_witness :
  let text :=
    lit "create table t ( a INTEGER , a  TEXT ); CREATE TABLE t (b  REAL );" in
  parse text = Ok [(lit "t", [(lit "b", lit "REAL")])]
  /\ List.NoDup (map fst [(lit "t", [(lit "b", lit "REAL")])])
  /\ Forall table_shape [(lit "t", [(lit "b", lit "REAL")])].
Proof.
  intros text.
  assert (H : parse text = Ok [(lit "t", [(lit "b", lit "REAL")])]) by reflexivity.
  split; [exact H | exact (parse_result_shape text _ H)].
Defined.

Lemma table_step_fields (idxs : option (list str)) (schema : Schema)
    (acc : list str * list (str * list str)) :
  snd (fold_left (table_step idxs) schema acc)
  = fold_left (fun d kv => dict_set (fst kv) (snd kv) d) (data_column_lists schema)
      (snd acc).
Proof.
  revert acc; induction schema as [|[t columns] schema IH]; intros [stmts fields];
    [reflexivity|].
  cbn [fold_left data_column_lists map]. rewrite IH. unfold table_step.
  destruct (scan_table_spec t idxs columns) as (_ & _ & ->). reflexivity.
Qed.

Lemma dict_of_items_Forall {V : Type} (P : str * V -> Prop) (items d : list (str * V)) :
  Forall P items -> Forall P d ->
  Forall P (fold_left (fun d kv => dict_set (fst kv) (snd kv) d) items d).
Proof.
  revert d; induction items as [|[k v] items IH]; intros d Hi Hd; [exact Hd|].
  inversion Hi; subst. cbn [fold_left fst snd]. apply IH; [assumption|].
  now apply dict_set_Forall.
Qed.

Lemma data_columns_no_constraint (columns : Table) :
  existsb is_constraint (data_columns columns) = false.
Proof.
  unfold data_columns. induction (map fst columns) as [|n l IH]; [reflexivity|].
  cbn [List.filter]. destruct (is_constraint n) eqn:En; cbn [negb]; [exact IH|].
  cbn [existsb]. now rewrite En.
Qed.

(** X7.  The second result of [generate_sql] maps each table to the names
    of its members that are no constraints, in the order of the schema,
    whatever the index hints: no name it lists starts like a constraint, and
    over a schema with distinct table names it is the list of the tables
    with their data columns. *)
Theorem generate_sql_fields (schema : Schema) (idxs : option (list str)) :
  snd (generate_sql schema idxs) = dict_of_items (data_column_lists schema)
  /\ Forall (fun entry => existsb is_constraint (snd entry) = false)
       (snd (generate_sql schema idxs))
  /\ (List.NoDup (map fst schema) ->
      snd (generate_sql schema idxs) = data_column_lists schema).
Proof.
  assert (H : snd (generate_sql schema idxs) = dict_of_items (data_column_lists schema)).
  { unfold generate_sql. pose proof (table_step_fields idxs schema ([], [])) as H.
    destruct (fold_left (table_step idxs) schema ([], [])) as [stmts fields].
    exact H. }
  split; [exact H|]. split.
  - rewrite H. apply dict_of_items_Forall; [|constructor].
    apply List.Forall_forall. intros [t names] Hin. cbn [snd].
    unfold data_column_lists in Hin. apply in_map_iff in Hin as ([t' columns] & E & _).
    injection E as _ <-. apply data_columns_no_constraint.
  - intros Hn. rewrite H. apply dict_of_items_nodup.
    unfold data_column_lists. rewrite map_map. exact Hn.
Qed.

Lemma generate_sql_fields_witness :
  List.NoDup (map fst orders_schema)
  /\ snd (generate_sql orders_schema (Some [lit "order_id"]))
     = data_column_lists orders_schema.
Proof.
  assert (H : List.NoDup (map fst orders_schema)).
  { apply distinct_NoDup. reflexivity. }
  split; [exact H|].
  exact (proj2 (proj2 (generate_sql_fields orders_schema (Some [lit "order_id"]))) H).
Defined.

Lemma members_app (a b : Schema) : members (a ++ b) = members a ++ members b.
Proof. unfold members. apply flat_map_app. Qed.

Lemma validate_members_app (required : list str) (a b : list (str * str * str)) :
  validate_members required (a ++ b)
  = match validate_members required a with
    | Ok _ => validate_members required b
    | Raise e => Raise e
    end.
Proof.
  induction a as [|[[t c] d] a IH]; [reflexivity|].
  cbn [app validate_members]. destruct (validate_column required t c d); [exact IH|].
  reflexivity.
Qed.

(** X8.  Validation runs through the tables in order and stops at the
    first failure: validating two schemas laid end to end is validating the
    first and, only when it passes, the second; the error of the first is
    the error of the whole, whatever follows. *)
Theorem validate_concat (a b : Schema) (sql_types : option (list str)) :
  validate (a ++ b) sql_types
  = match validate a sql_types with
    | Ok _ => validate b sql_types
    | Raise e => Raise e
    end.
Proof.
  rewrite !validate_result, members_app, validate_members_app.
  destruct (validate_members (required_sql_types sql_types) (members a)); reflexivity.
Qed.

End ParserResults.
(** ** The requests of one execution *)

Section ExecuteFacts.
Import Py DatabaseConnection GeneratedRepository Requests Operations Control Traces.
Variable engine : Engine.
Hypothesis Hacc : refuses_only_statements engine.

Lemma aenter_exact (w : World) :
  exists wa,
    __aenter__ engine w = (Ok (fst (entering w)), wa)
    /\ sent wa = sent w ++ snd (entering w)
    /\ conn (manager wa) = Some (fst (entering w)).
Proof.
  unfold __aenter__, entering, bind, get_manager, connect, set_conn, ret.
  destruct (conn (manager w)) eqn:Ec.
  - exists w. cbn [fst snd]. now rewrite app_nil_r.
  - destruct (request_accept engine Hacc (Connect (db_path (manager w))) w I) as [c ->].
    cbn [manager opened sent conn db_path has_foreign_keys fst snd].
    destruct (has_foreign_keys (manager w)).
    + match goal with
      | |- context [request engine ?r ?w0] =>
          destruct (request_accept engine Hacc r w0 (or_intror eq_refl)) as [c' ->]
      end.
      eexists. split; [reflexivity|].
      cbn [manager opened sent conn fst snd]. rewrite <- app_assoc. split; reflexivity.
    + eexists. split; [reflexivity|]. cbn [manager opened sent conn fst snd].
      split; reflexivity.
Qed.

Lemma when_exact (b : bool) (r : Request) (w : World) :
  is_control r ->
  when b (request engine r) w
  = (Ok tt, {| manager := manager w; opened := opened w;
               sent := sent w ++ (if b then [r] else []) |}).
Proof.
  intros Hr. destruct b; cbn [when].
  - unfold bind, ret. now destruct (request_accept engine Hacc r w Hr) as [c ->].
  - unfold ret. rewrite app_nil_r. now destruct w.
Qed.

Lemma execute_body_exact (query : str) (params : Kwargs)
    (transaction commit fetch_all fetch_one : bool) (h : Handle) (w : World) :
  exists res w1,
    execute_body engine query params transaction commit fetch_all fetch_one h w
    = (Ok res, w1)
    /\ manager w1 = manager w
    /\ match engine (sent w ++ beginning transaction h) (Execute h query params) with
       | Some c =>
           cursor_of res = Some c
           /\ is_rows res = fetch_all || fetch_one
           /\ sent w1 = sent w ++ beginning transaction h
                        ++ Execute h query params :: finishing commit fetch_all fetch_one h
       | None =>
           res = Nothing
           /\ sent w1 = sent w ++ beginning transaction h
                        ++ Execute h query params :: undoing transaction h
       end.
Proof.
  unfold execute_body, try_except, bind.
  rewrite (when_exact transaction (Execute h (lit "BEGIN TRANSACTION;") []) w)
    by (left; reflexivity).
  unfold request at 1. cbn [manager opened sent].
  fold (beginning transaction h).
  destruct (engine (sent w ++ beginning transaction h) (Execute h query params)) as [c|].
  - unfold finishing. destruct fetch_all; [|destruct fetch_one].
    + match goal with
      | |- context [request engine ?r ?w0] =>
          destruct (request_accept engine Hacc r w0 I) as [c' ->]
      end.
      unfold ret. eexists _, _. split; [reflexivity|].
      cbn [manager sent cursor_of is_rows orb]. rewrite <- !app_assoc. auto.
    + match goal with
      | |- context [request engine ?r ?w0] =>
          destruct (request_accept engine Hacc r w0 I) as [c' ->]
      end.
      unfold ret. eexists _, _. split; [reflexivity|].
      cbn [manager sent cursor_of is_rows orb]. rewrite <- !app_assoc. auto.
    + match goal with
      | |- context [when commit (request engine ?r) ?w0] =>
          rewrite (when_exact commit r w0 I)
      end.
      unfold ret. eexists _, _. split; [reflexivity|].
      cbn [manager sent cursor_of is_rows orb]. rewrite <- !app_assoc.
      repeat split; try now destruct commit.
  - match goal with
    | |- context [when transaction (request engine ?r) ?w0] =>
        rewrite (when_exact transaction r w0 I)
    end.
    unfold ret. eexists _, _. split; [reflexivity|].
    cbn [manager sent]. rewrite <- !app_assoc. repeat split.
Qed.

Lemma aexit_exact (w : World) (h : Handle) :
  conn (manager w) = Some h ->
  exists w',
    __aexit__ engine w = (Ok tt, w')
    /\ sent w' = sent w ++ [Close h] /\ conn (manager w') = None.
Proof.
  intros Hc. unfold __aexit__, bind, get_manager, set_conn. rewrite Hc.
  destruct (request_accept engine Hacc (Close h) w I) as [c ->].
  eexists. split; [reflexivity|]. cbn [manager sent conn]. auto.
Qed.

(** One execution, request by request. *)
Lemma execute_exact (query : str) (params : Kwargs)
    (transaction commit fetch_all fetch_one : bool) (w : World) :
  let h := fst (entering w) in
  let pre := sent w ++ snd (entering w) ++ beginning transaction h in
  exists res w',
    _execute engine query params transaction commit fetch_all fetch_one w = (Ok res, w')
    /\ conn (manager w') = None
    /\ match engine pre (Execute h query params) with
       | Some c =>
           cursor_of res = Some c
           /\ is_rows res = fetch_all || fetch_one
           /\ sent w' = pre ++ Execute h query params
                        :: finishing commit fetch_all fetch_one h ++ [Close h]
       | None =>
           res = Nothing
           /\ sent w' = pre ++ Execute h query params
                        :: undoing transaction h ++ [Close h]
       end.
Proof.
  intros h pre. unfold _execute, async_with, bind.
  destruct (aenter_exact w) as (wa & -> & Hs & Hc). fold h in Hs, Hc |- *.
  destruct (execute_body_exact query params transaction commit fetch_all fetch_one h wa)
    as (res & w1 & -> & Hm & Hb).
  rewrite <- Hm in Hc.
  destruct (aexit_exact w1 h Hc) as (w2 & -> & Hx & Hn).
  exists res, w2. split; [reflexivity|]. split; [exact Hn|].
  rewrite Hs, <- app_assoc in Hb. fold pre in Hb.
  destruct (engine pre (Execute h query params)) as [c|].
  - destruct Hb as (H1 & H2 & H3). repeat split; try assumption.
    rewrite Hx, H3. unfold pre. rewrite <- ?app_assoc. reflexivity.
  - destruct Hb as (H1 & H3). split; [assumption|].
    rewrite Hx, H3. unfold pre. rewrite <- ?app_assoc. reflexivity.
Qed.

End ExecuteFacts.
(** ** What one execution sends, and what saving returns *)

Section OperationFacts.
Import Py DatabaseConnection GeneratedRepository Requests Operations Control Traces
  Batches Examples.

Lemma accepts_all_refuses_none (engine : Engine) :
  accepts_all engine -> refuses_only_statements engine.
Proof. intros H hist r E. destruct (H hist r) as [c Hc]. congruence. Qed.

Lemma accepting_engine : accepts_all (refusing (fun _ => false)).
Proof. intros hist r. now exists plain_cursor. Qed.

(** X9.  On an engine that accepts every request, one [_execute] sends,
    in this order and nothing else: the connection (and the PRAGMA for a
    schema with foreign keys) unless a handle is held, BEGIN when
    [transaction] is set, the statement with its parameters, then one of
    fetchall, fetchone or commit (fetchall before fetchone, and no commit
    when a fetch flag is set, so a transaction begun for a fetch is never
    committed), and the close of the handle.  It returns a cursor and
    leaves the manager without a handle. *)
Theorem execute_sends_in_order (engine : Engine) (query : str) (params : Kwargs)
    (transaction commit fetch_all fetch_one : bool) (w : World) :
  accepts_all engine ->
  let h := fst (entering w) in
  exists res w',
    _execute engine query params transaction commit fetch_all fetch_one w = (Ok res, w')
    /\ res <> Nothing
    /\ is_rows res = fetch_all || fetch_one
    /\ conn (manager w') = None
    /\ sent w' = sent w ++ snd (entering w) ++ beginning transaction h
                 ++ Execute h query params
                    :: finishing commit fetch_all fetch_one h ++ [Close h].
Proof.
  intros Hall h.
  destruct (execute_exact engine (accepts_all_refuses_none engine Hall) query params
              transaction commit fetch_all fetch_one w) as (res & w' & E & Hn & Hm).
  fold h in Hm. exists res, w'.
  destruct (Hall (sent w ++ snd (entering w) ++ beginning transaction h)
              (Execute h query params)) as [c Hc].
  rewrite Hc in Hm. destruct Hm as (H1 & H2 & H3).
  repeat split; try assumption.
  - intros ->. discriminate.
  - rewrite H3, <- !app_assoc. reflexivity.
Qed.

Lemma execute_sends_in_order_witness :
  let engine := refusing (fun _ => false) in
  let w := initial_world keyed_manager in
  accepts_all engine
  /\ exists res w',
       _execute engine (lit "SELECT * FROM users WHERE 1=1") [] true true true true w
       = (Ok res, w')
       /\ res <> Nothing
       /\ is_rows res = true
       /\ conn (manager w') = None
       /\ sent w' = [Connect (lit "hive/hive_1.db"); pragma 0;
                     Execute 0 (lit "BEGIN TRANSACTION;") [];
                     Execute 0 (lit "SELECT * FROM users WHERE 1=1") [];
                     FetchAll 0; Close 0].
Proof.
  intros engine w. split; [exact accepting_engine|].
  exact (execute_sends_in_order engine (lit "SELECT * FROM users WHERE 1=1") []
           true true true true w accepting_engine).
Defined.

(** X10.  When the engine refuses the statement (and nothing else),
    [_execute] does not raise: it returns the pair of Nones, having sent
    the statement, then a rollback exactly when [transaction] is set, no
    fetch and no commit, and the close of the handle. *)
Theorem execute_absorbs_refusal (engine : Engine) (query : str) (params : Kwargs)
    (transaction commit fetch_all fetch_one : bool) (w : World) :
  refuses_only_statements engine ->
  refuses_statement engine query params ->
  let h := fst (entering w) in
  exists w',
    _execute engine query params transaction commit fetch_all fetch_one w
    = (Ok Nothing, w')
    /\ conn (manager w') = None
    /\ sent w' = sent w ++ snd (entering w) ++ beginning transaction h
                 ++ Execute h query params :: undoing transaction h ++ [Close h].
Proof.
  intros Hacc Href h.
  destruct (execute_exact engine Hacc query params
              transaction commit fetch_all fetch_one w) as (res & w' & E & Hn & Hm).
  fold h in Hm. rewrite Href in Hm. destruct Hm as [-> H3].
  exists w'. repeat split; try assumption.
  rewrite H3, <- !app_assoc. reflexivity.
Qed.

Lemma rejects_inserts_statements : refuses_only_statements (refusing rejects_inserts).
Proof.
  apply refusing_only_statements. intros [] Hb; simpl in *; try discriminate.
  intros [->| ->]; vm_compute in Hb; discriminate.
Qed.

Lemma execute_absorbs_refusal_witness :
  let engine := refusing rejects_inserts in
  let query := lit "INSERT OR REPLACE INTO users (name) VALUES (:name)" in
  refuses_only_statements engine
  /\ refuses_statement engine query alice
  /\ exists w',
       _execute engine query alice true true false false (initial_world fresh_manager)
       = (Ok Nothing, w')
       /\ conn (manager w') = None
       /\ sent w' = [Connect (lit "hive/hive_1.db");
                     Execute 0 (lit "BEGIN TRANSACTION;") [];
                     Execute 0 query alice; Rollback 0; Close 0].
Proof.
  intros engine query.
  assert (Href : refuses_statement engine query alice) by (intros hist h; reflexivity).
  split; [exact rejects_inserts_statements|]. split; [exact Href|].
  exact (execute_absorbs_refusal engine query alice true true false false
           (initial_world fresh_manager) rejects_inserts_statements Href).
Defined.

(** X11.  When the connection is opened but the PRAGMA is refused,
    entering the scope raises after the handle was stored: the body does
    not run, the handle is not closed, the manager keeps it, and the next
    scope works on this handle without connecting and without sending the
    PRAGMA again. *)
Theorem refused_pragma_keeps_handle {A : Type} (engine : Engine) (body : Handle -> M A)
    (w : World) (c : Cursor) :
  conn (manager w) = None ->
  has_foreign_keys (manager w) = true ->
  engine (sent w) (Connect (db_path (manager w))) = Some c ->
  engine (sent w ++ [Connect (db_path (manager w))]) (pragma (opened w)) = None ->
  exists w',
    async_with engine body w = (Raise EngineError, w')
    /\ conn (manager w') = Some (opened w)
    /\ sent w' = sent w ++ [Connect (db_path (manager w)); pragma (opened w)]
    /\ __aenter__ engine w' = (Ok (opened w), w').
Proof.
  intros Hc Hf Ho Hp.
  unfold async_with, __aenter__, bind, get_manager, connect, set_conn, request, ret.
  rewrite Hc, Ho. cbn [manager opened sent conn db_path has_foreign_keys].
  rewrite Hf. unfold pragma in Hp |- *. cbn [manager opened sent conn db_path has_foreign_keys].
  rewrite Hp.
  eexists. split; [reflexivity|]. cbn [manager opened sent conn].
  rewrite <- app_assoc. repeat split.
Qed.

Lemma refused_pragma_keeps_handle_witness :
  let engine := refusing rejects_pragma in
  let w := initial_world keyed_manager in
  let body := fun h => request engine (Execute h (lit "SELECT 1") []) in
  exists w',
    async_with engine body w = (Raise EngineError, w')
    /\ conn (manager w') = Some 0
    /\ sent w' = [Connect (lit "hive/hive_1.db"); pragma 0]
    /\ __aenter__ engine w' = (Ok 0, w').
Proof.
  intros engine w body.
  exact (refused_pragma_keeps_handle engine body w plain_cursor
           eq_refl eq_refl eq_refl eq_refl).
Defined.

Lemma dict_get_has_field (name : str) (data : Rec) (v : PyValue) :
  dict_get name data = Some v -> has_field name data = true.
Proof.
  unfold has_field. induction data as [|[k x] data IH]; [discriminate|].
  cbn [dict_get existsb fst]. destruct (str_eqb k name); [reflexivity|]. exact IH.
Qed.

(** X12.  On an engine that refuses statements only, [save_single] never
    raises.  When the INSERT is refused it returns None (the cursor is
    None and [id_check] falls through; the False of the handler is not
    reached) and leaves the record as it was.  When it is accepted it
    returns whether the cursor has a row id, a record whose [id] was None
    gets that row id, and any other record is left as it was. *)
Theorem save_single_outcome (engine : Engine) (table_name : str) (data : Rec)
    (w : World) :
  refuses_only_statements engine ->
  let h := fst (entering w) in
  let query := dc_to_insertion_query table_name data in
  exists out w',
    save_single engine table_name data w = (Ok out, w')
    /\ match engine (sent w ++ snd (entering w)) (Execute h query data) with
       | None => out = (None, data)
       | Some c =>
           fst out = Some (match lastrowid c with Some _ => true | None => false end)
           /\ (dict_get (lit "id") data = Some VNone ->
               snd out = dict_set (lit "id") (value_of_rowid (lastrowid c)) data)
           /\ (dict_get (lit "id") data <> Some VNone -> snd out = data)
       end.
Proof.
  intros Hacc h query. unfold save_single, try_except, bind.
  destruct (execute_exact engine Hacc query data false true false false w)
    as (res & w' & E & Hn & Hm).
  fold query. rewrite E. unfold ret. eexists _, w'. split; [reflexivity|].
  fold h in Hm. cbn [beginning] in Hm. rewrite app_nil_r in Hm.
  destruct (engine (sent w ++ snd (entering w)) (Execute h query data)) as [c|].
  - destruct Hm as (H1 & H2 & _). destruct res as [rows c'|c'|]; try discriminate.
    injection H1 as ->. cbn [id_check fst snd]. split; [reflexivity|]. split.
    + intros Hid. rewrite (dict_get_has_field _ _ _ Hid), Hid. reflexivity.
    + intros Hid. destruct (dict_get (lit "id") data) as [[]|];
        rewrite ?andb_false_r; try reflexivity. now contradiction Hid.
  - destruct Hm as [-> _]. reflexivity.
Qed.

Lemma save_single_outcome_witness :
  let engine := refusing rejects_inserts in
  refuses_only_statements engine
  /\ exists w',
       save_single engine (lit "users") alice (initial_world fresh_manager)
       = (Ok (None, alice), w').
Proof.
  intros engine. split; [exact rejects_inserts_statements|].
  destruct (save_single_outcome engine (lit "users") alice (initial_world fresh_manager)
              rejects_inserts_statements) as (out & w' & E & Hm).
  exists w'. rewrite E. f_equal. f_equal. exact Hm.
Defined.

(** X13.  [save_many] of an empty list returns False and sends nothing.
    Of any other list, on an engine that refuses statements only, it
    returns True whichever INSERTs were refused, and the INSERT of every
    record reached the engine: a refused record neither stops the loop nor
    shows in the result. *)
Theorem save_many_reports_success (engine : Engine) (table_name : str)
    (data_list : list Rec) (w : World) :
  save_many engine table_name [] w = (Ok false, w)
  /\ (refuses_only_statements engine ->
      data_list <> [] ->
      fst (save_many engine table_name data_list w) = Ok true
      /\ forall data, In data data_list ->
           exists h, In (Execute h (dc_to_insertion_query table_name data) data)
                        (sent (snd (save_many engine table_name data_list w)))).
Proof.
  split; [reflexivity|]. intros Hacc Hne.
  exact (save_many_absorbs_failures engine table_name data_list w Hacc Hne).
Qed.

Lemma save_many_reports_success_witness :
  let engine := refusing rejects_inserts in
  let out := save_many engine (lit "users") [alice; bob] (initial_world fresh_manager) in
  refuses_only_statements engine
  /\ [alice; bob] <> []
  /\ fst out = Ok true
  /\ forall data, In data [alice; bob] ->
       exists h, In (Execute h (dc_to_insertion_query (lit "users") data) data)
                    (sent (snd out)).
Proof.
  intros engine out. split; [exact rejects_inserts_statements|].
  assert (Hne : [alice; bob] <> []) by discriminate.
  split; [exact Hne|].
  exact (proj2 (save_many_reports_success engine (lit "users") [alice; bob]
                  (initial_world fresh_manager)) rejects_inserts_statements Hne).
Defined.

End OperationFacts.
(** ** Query texts and loading *)

Section QueryFacts.
Import Py DatabaseConnection GeneratedRepository Loading Requests Operations Control
  Traces Filters Examples.

Lemma not_mem_dict_get {V : Type} (name : str) (d : list (str * V)) :
  ~ In name (map fst d) -> dict_get name d = None.
Proof.
  induction d as [|[k v] d IH]; [reflexivity|]. cbn [map fst In dict_get]. intros H.
  destruct (str_eqb k name) eqn:E.
  - apply str_eqb_eq in E. tauto.
  - apply IH. tauto.
Qed.

Lemma not_mem_has_field (name : str) (d : Rec) :
  ~ In name (map fst d) -> has_field name d = false.
Proof.
  unfold has_field. induction d as [|[k v] d IH]; [reflexivity|].
  cbn [map fst In existsb]. intros H. destruct (str_eqb k name) eqn:E.
  - apply str_eqb_eq in E. tauto.
  - apply IH. tauto.
Qed.

Lemma plain_filters_names (kwargs : Kwargs) (name : str) :
  plain_filters kwargs = true -> In name flag_names -> ~ In name (map fst kwargs).
Proof.
  unfold plain_filters. intros H Hn Hin. apply in_map_iff in Hin as ([k v] & <- & Hin).
  rewrite forallb_forall in H. specialize (H _ Hin). cbn [fst] in *.
  apply negb_true_iff in H. apply mem_In in Hn. congruence.
Qed.

Lemma plain_filters_kept (kwargs : Kwargs) :
  plain_filters kwargs = true ->
  List.filter (fun kv => negb (mem (fst kv) flag_names)) kwargs = kwargs.
Proof.
  unfold plain_filters. induction kwargs as [|kv kwargs IH]; [reflexivity|].
  cbn [forallb List.filter]. intros H. apply andb_prop in H as [H1 H2].
  rewrite H1. f_equal. now apply IH.
Qed.

(** With plain filters the call binds the mode flag alone. *)
Lemma call_query_conditions_plain (table_name mode : str) (kwargs : Kwargs) :
  plain_filters kwargs = true -> In mode flag_names ->
  call_query_conditions table_name mode kwargs
  = query_conditions table_name (str_eqb (lit "select") mode)
      (str_eqb (lit "select_batch") mode) (str_eqb (lit "delete") mode) kwargs.
Proof.
  intros Hp Hm. unfold call_query_conditions.
  rewrite (not_mem_has_field mode kwargs (plain_filters_names _ _ Hp Hm)).
  rewrite !not_mem_dict_get, !orb_false_r, plain_filters_kept; try assumption;
    try reflexivity;
    apply plain_filters_names; try assumption; cbn; auto.
Qed.

(** X14.  How [delete] passes its filters on as keywords.  With filters
    that are not named like a mode flag the text is DELETE FROM the table
    WHERE the conditions joined by AND, one per filter and in their order.
    A filter named [delete] makes the call raise TypeError outside the try
    block, so [delete] raises and nothing is sent.  A filter named
    [select] with a true value is taken as the select flag, which is
    tested first: the text is then a SELECT with LIMIT 1, and that filter
    is no condition. *)
Theorem delete_query_modes (engine : Engine) (table_name : str) (kwargs : Kwargs)
    (w : World) :
  (plain_filters kwargs = true ->
   call_query_conditions table_name (lit "delete") kwargs
   = Ok (lit "DELETE FROM " ++ table_name ++ lit " WHERE "
         ++ join (lit " AND ") (map (fun kv => fst kv ++ lit " = :" ++ fst kv) kwargs)))
  /\ (has_field (lit "delete") kwargs = true ->
      exists msg, delete engine table_name kwargs w = (Raise (TypeError msg), w))
  /\ (has_field (lit "delete") kwargs = false ->
      forall v, dict_get (lit "select") kwargs = Some v -> truthy v = true ->
      call_query_conditions table_name (lit "delete") kwargs
      = Ok (lit "SELECT * FROM " ++ table_name ++ lit " WHERE "
            ++ conditions (List.filter (fun kv => negb (mem (fst kv) flag_names)) kwargs)
            ++ lit " LIMIT 1")).
Proof.
  split; [|split].
  - intros Hp. rewrite call_query_conditions_plain; [reflexivity | assumption|].
    cbn; auto.
  - intros Hd. unfold delete, call_query_conditions. rewrite Hd.
    eexists. reflexivity.
  - intros Hd v Hs Ht. unfold call_query_conditions. rewrite Hd, Hs, Ht.
    reflexivity.
Qed.

Lemma delete_query_modes_witness :
  let kwargs := [(lit "select", VInt 1); (lit "name", VStr (lit "Bob"))] in
  has_field (lit "delete") kwargs = false
  /\ call_query_conditions (lit "users") (lit "delete") kwargs
     = Ok (lit "SELECT * FROM users WHERE name = :name LIMIT 1").
Proof.
  intros kwargs.
  assert (H : has_field (lit "delete") kwargs = false) by reflexivity.
  split; [exact H|].
  exact (proj2 (proj2 (delete_query_modes (refusing (fun _ => false)) (lit "users")
                         kwargs (initial_world fresh_manager)))
           H (VInt 1) eq_refl eq_refl).
Defined.

Variable engine : Engine.
Hypothesis Hacc : refuses_only_statements engine.

(** A fetch, request by request. *)
Lemma execute_fetch_exact (query : str) (params : Kwargs) (fetch_all : bool) (w : World) :
  let h := fst (entering w) in
  let pre := sent w ++ snd (entering w) in
  let fetch := if fetch_all then FetchAll h else FetchOne h in
  exists res w',
    _execute engine query params false false fetch_all (negb fetch_all) w = (Ok res, w')
    /\ match engine pre (Execute h query params) with
       | None => res = Nothing
       | Some c =>
           exists c', engine (pre ++ [Execute h query params]) fetch = Some c'
                      /\ res = Rows (fetched c') c
       end.
Proof.
  intros h pre fetch. unfold _execute, async_with, bind.
  destruct (aenter_exact engine Hacc w) as (wa & -> & Hs & Hc). fold h in Hs, Hc |- *.
  assert (Hb : exists res w1,
    execute_body engine query params false false fetch_all (negb fetch_all) h wa
    = (Ok res, w1)
    /\ manager w1 = manager wa
    /\ match engine pre (Execute h query params) with
       | None => res = Nothing
       | Some c =>
           exists c', engine (pre ++ [Execute h query params]) fetch = Some c'
                      /\ res = Rows (fetched c') c
       end).
  { unfold execute_body, try_except, bind, when, ret. unfold request at 1.
    cbn [manager opened sent]. rewrite Hs. fold pre.
    destruct (engine pre (Execute h query params)) as [c|].
    - subst fetch. destruct fetch_all; cbn [negb].
      + destruct (request_accept engine Hacc (FetchAll h)
                    {| manager := manager wa; opened := opened wa;
                       sent := pre ++ [Execute h query params] |} I) as [c' E].
        rewrite E. eexists _, _. split; [reflexivity|]. split; [reflexivity|].
        exists c'. split; [|reflexivity]. unfold request in E. cbn [sent] in E.
        destruct (engine (pre ++ [Execute h query params]) (FetchAll h));
          [now injection E as -> | discriminate].
      + destruct (request_accept engine Hacc (FetchOne h)
                    {| manager := manager wa; opened := opened wa;
                       sent := pre ++ [Execute h query params] |} I) as [c' E].
        rewrite E. eexists _, _. split; [reflexivity|]. split; [reflexivity|].
        exists c'. split; [|reflexivity]. unfold request in E. cbn [sent] in E.
        destruct (engine (pre ++ [Execute h query params]) (FetchOne h));
          [now injection E as -> | discriminate].
    - eexists _, _. split; [reflexivity|]. split; reflexivity. }
  destruct Hb as (res & w1 & -> & Hm & Hb). rewrite <- Hm in Hc.
  destruct (aexit_exact engine Hacc w1 h Hc) as (w2 & -> & _ & _).
  exists res, w2. split; [reflexivity | exact Hb].
Qed.

Variable table_name : str.
Variable schema_fields : Table.
Variable RepoData : RepoDataClass.DataClass.

(** X15.  On an engine that refuses statements only, [load_many] with
    plain filters never raises.  It sends SELECT * FROM the table WHERE
    the conditions, or WHERE 1=1 when there is no filter, with the filters
    as parameters.  When the statement is refused it returns the empty
    list; otherwise it returns the records converted from all the fetched
    rows, or the empty list as soon as one row fails to convert. *)
Theorem load_many_outcome (kwargs : Kwargs) (w : World) :
  plain_filters kwargs = true ->
  let h := fst (entering w) in
  let pre := sent w ++ snd (entering w) in
  let query :=
    lit "SELECT * FROM " ++ table_name ++ lit " WHERE " ++ batch_conditions kwargs in
  exists records w',
    load_many engine table_name schema_fields RepoData kwargs w = (Ok records, w')
    /\ match engine pre (Execute h query kwargs) with
       | None => records = []
       | Some c =>
           exists c', engine (pre ++ [Execute h query kwargs]) (FetchAll h) = Some c'
             /\ records = or_empty (convert_all schema_fields RepoData (fetched c'))
       end.
Proof.
  intros Hp h pre query. unfold load_many.
  rewrite call_query_conditions_plain by (try assumption; cbn; auto).
  change (query_conditions table_name _ _ _ kwargs) with (Ok (A := str) query).
  unfold try_except, bind.
  destruct (execute_fetch_exact query kwargs true w) as (res & w' & E & Hm).
  cbn [negb] in E. rewrite E. fold h pre in Hm.
  destruct (engine pre (Execute h query kwargs)) as [c|].
  - destruct Hm as (c' & Ec' & ->). destruct (fetched c') as [|row rows] eqn:Ef.
    + eexists _, _. split; [reflexivity|]. exists c'. now rewrite Ef.
    + unfold lift.
      destruct (convert_all schema_fields RepoData (row :: rows)) as [l|e] eqn:Ecv;
        (eexists _, _; split; [reflexivity|]; exists c'; now rewrite Ef, Ecv).
  - subst res. eexists _, _. split; [reflexivity|]. reflexivity.
Qed.

(** X16.  On an engine that refuses statements only, [load_single] with
    plain filters never raises.  It sends SELECT * FROM the table WHERE
    the conditions LIMIT 1 (with no filter, an empty condition).  It
    returns None when the statement is refused, when no row is fetched and
    when the row fails to convert, and the converted record otherwise. *)
Theorem load_single_outcome (kwargs : Kwargs) (w : World) :
  plain_filters kwargs = true ->
  let h := fst (entering w) in
  let pre := sent w ++ snd (entering w) in
  let query :=
    lit "SELECT * FROM " ++ table_name ++ lit " WHERE " ++ conditions kwargs
    ++ lit " LIMIT 1" in
  exists record w',
    load_single engine table_name schema_fields RepoData kwargs w = (Ok record, w')
    /\ match engine pre (Execute h query kwargs) with
       | None => record = None
       | Some c =>
           exists c', engine (pre ++ [Execute h query kwargs]) (FetchOne h) = Some c'
             /\ record = match fetched c' with
                         | (x :: r) :: _ =>
                             or_none (result_converter schema_fields RepoData (x :: r))
                         | _ => None
                         end
       end.
Proof.
  intros Hp h pre query. unfold load_single.
  rewrite call_query_conditions_plain by (try assumption; cbn; auto).
  change (query_conditions table_name _ _ _ kwargs) with (Ok (A := str) query).
  unfold try_except, bind.
  destruct (execute_fetch_exact query kwargs false w) as (res & w' & E & Hm).
  cbn [negb] in E. rewrite E. fold h pre in Hm.
  destruct (engine pre (Execute h query kwargs)) as [c|].
  - destruct Hm as (c' & Ec' & ->). destruct (fetched c') as [|[|x r] rows] eqn:Ef.
    + eexists _, _. split; [reflexivity|]. exists c'. now rewrite Ef.
    + eexists _, _. split; [reflexivity|]. exists c'. now rewrite Ef.
    + unfold lift.
      destruct (result_converter schema_fields RepoData (x :: r)) as [l|e] eqn:Ecv;
        (eexists _, _; split; [reflexivity|]; exists c'; now rewrite Ef, Ecv).
  - subst res. eexists _, _. split; [reflexivity|]. reflexivity.
Qed.

End QueryFacts.

Section QueryExamples.
Import Py DatabaseConnection GeneratedRepository Loading Requests Operations Control
  Traces Filters Examples.

Lemma serving_accepts (rows : list (list PyValue)) : accepts_all (serving rows).
Proof. intros hist r. unfold serving. destruct r; eauto. Qed.

Lemma load_many_outcome_witness :
  let engine := serving [[VInt 1; VStr (lit "Ann")]; [VInt 2; VStr (lit "Bob")]] in
  let w := initial_world fresh_manager in
  refuses_only_statements engine
  /\ plain_filters [] = true
  /\ exists records w',
       load_many engine (lit "users") users_fields users_record [] w = (Ok records, w')
       /\ records = [[(lit "id", VInt 1); (lit "name", VStr (lit "Ann"))];
                     [(lit "id", VInt 2); (lit "name", VStr (lit "Bob"))]].
Proof.
  intros engine w.
  assert (Hacc : refuses_only_statements engine).
  { apply accepts_all_refuses_none, serving_accepts. }
  split; [exact Hacc|]. split; [reflexivity|].
  destruct (load_many_outcome engine Hacc (lit "users") users_fields users_record [] w
              eq_refl) as (records & w' & E & Hm).
  exists records, w'. split; [exact E|].
  destruct Hm as (c' & Ec' & ->). injection Ec' as <-. reflexivity.
Defined.

Lemma load_single_outcome_witness :
  let engine := serving [[VInt 1; VStr (lit "Ann")]] in
  let w := initial_world fresh_manager in
  let kwargs := [(lit "name", VStr (lit "Ann"))] in
  refuses_only_statements engine
  /\ plain_filters kwargs = true
  /\ exists record w',
       load_single engine (lit "users") users_fields users_record kwargs w
       = (Ok record, w')
       /\ record = Some [(lit "id", VInt 1); (lit "name", VStr (lit "Ann"))].
Proof.
  intros engine w kwargs.
  assert (Hacc : refuses_only_statements engine).
  { apply accepts_all_refuses_none, serving_accepts. }
  split; [exact Hacc|]. split; [reflexivity|].
  destruct (load_single_outcome engine Hacc (lit "users") users_fields users_record
              kwargs w eq_refl) as (record & w' & E & Hm).
  exists record, w'. split; [exact E|].
  destruct Hm as (c' & Ec' & ->). injection Ec' as <-. reflexivity.
Defined.

End QueryExamples.
(** ** Record types, conversion of rows and the batch of repositories *)

Section RecordFacts.
Import Py SchemaParser RepoDataClass DatabaseConnection GeneratedRepository Loading
  RepositoryFactory RoundTrip Examples.

Lemma dict_of_items_keys {V : Type} (items d : list (str * V)) (k : str) :
  In k (map fst (fold_left (fun d kv => dict_set (fst kv) (snd kv) d) items d))
  <-> In k (map fst d) \/ In k (map fst items).
Proof.
  revert d; induction items as [|[k' v] items IH]; intros d; cbn [fold_left map fst In].
  - tauto.
  - rewrite IH. cbn [fst snd]. split.
    + intros [H|H]; [|tauto]. apply dict_set_keys in H. intuition.
    + intros [H|[H|H]]; [| |tauto]; left.
      * clear -H. induction d as [|[a b] d IHd]; [destruct H|].
        cbn [dict_set map fst In] in *. destruct (str_eqb a k'); cbn [map fst In]; tauto.
      * subst. clear. induction d as [|[a b] d IHd]; cbn [dict_set map fst In]; [auto|].
        destruct (str_eqb a k) eqn:E; cbn [map fst In]; [|tauto].
        apply str_eqb_eq in E. auto.
Qed.

Lemma dict_of_items_NoDup {V : Type} (items d : list (str * V)) :
  List.NoDup (map fst d) ->
  List.NoDup (map fst (fold_left (fun d kv => dict_set (fst kv) (snd kv) d) items d)).
Proof.
  revert d; induction items as [|[k v] items IH]; intros d H; [exact H|].
  cbn [fold_left]. apply IH. now apply dict_set_NoDup.
Qed.

Lemma dict_of_items_defaults (fs : list str) (d : list (str * (HostType * PyValue))) :
  Forall (fun f => snd (snd f) = VNone) d ->
  Forall (fun f => snd (snd f) = VNone)
    (fold_left (fun d kv => dict_set (fst kv) (snd kv) d)
       (map (fun key => (key, field_type key)) fs) d).
Proof.
  intros H. apply dict_of_items_Forall; [|exact H].
  apply List.Forall_forall. intros f Hin. apply in_map_iff in Hin as (k & <- & _).
  unfold field_type. now destruct (str_eqb k (lit "id")).
Qed.

Lemma find_none_forallb {A : Type} (p : A -> bool) (l : list A) :
  List.find p l = None <-> forallb (fun x => negb (p x)) l = true.
Proof.
  induction l as [|x l IH]; cbn [List.find forallb]; [tauto|].
  destruct (p x); cbn [negb andb]; [split; discriminate | exact IH].
Qed.

(** X17.  [RepoDataClass.__call__] raises TypeError as soon as one field
    name is no identifier or is a keyword.  A record type it returns is
    named after the capitalized table name, has the listed names as its
    fields, each once however often it was listed, every one an identifier
    and no keyword, and every field defaults to None. *)
Theorem call_checks_field_names (table_name : str) (_fields : list str) :
  (forallb (fun key => isidentifier key && negb (mem key keywords)) _fields = false ->
   exists msg, call table_name _fields = Raise (TypeError msg))
  /\ (forall dc, call table_name _fields = Ok dc ->
        dc_name dc = capitalize table_name ++ lit "RepoData"
        /\ List.NoDup (map fst (dc_fields dc))
        /\ (forall key, In key (map fst (dc_fields dc)) <-> In key _fields)
        /\ forallb (fun key => isidentifier key && negb (mem key keywords)) _fields = true
        /\ Forall (fun f => snd (snd f) = VNone) (dc_fields dc)).
Proof.
  unfold call, make_dataclass, dict_of_items.
  set (prepared := fold_left _ (map (fun key => (key, field_type key)) _fields) []).
  assert (Hk : forall key, In key (map fst prepared) <-> In key _fields).
  { intros key. unfold prepared. rewrite dict_of_items_keys, map_map. cbn [map fst In].
    rewrite map_id. tauto. }
  assert (Hv : forallb (fun key => isidentifier key && negb (mem key keywords)) _fields
               = forallb (fun f => isidentifier (fst f) && negb (mem (fst f) keywords))
                   prepared).
  { apply eq_true_iff_eq. rewrite !forallb_forall. split.
    - intros H [k t] Hin. apply H, Hk. apply in_map_iff. now exists (k, t).
    - intros H k Hin. apply Hk in Hin. apply in_map_iff in Hin as ([k' t] & <- & Hin).
      exact (H _ Hin). }
  rewrite Hv.
  assert (Hok : List.find (fun f => negb (isidentifier (fst f))) prepared = None ->
                List.find (fun f => mem (fst f) keywords) prepared = None ->
                forallb (fun f => isidentifier (fst f) && negb (mem (fst f) keywords))
                  prepared = true).
  { intros E1 E2. apply forallb_forall. intros f Hin.
    pose proof (List.find_none _ _ E1 f Hin) as H1.
    pose proof (List.find_none _ _ E2 f Hin) as H2. cbn beta in H1, H2.
    apply negb_false_iff in H1. now rewrite H1, H2. }
  destruct (List.find (fun f => negb (isidentifier (fst f))) prepared) as [f|] eqn:E1;
    [split; [eauto | discriminate]|].
  destruct (List.find (fun f => mem (fst f) keywords) prepared) as [f|] eqn:E2;
    [split; [eauto | discriminate]|].
  specialize (Hok eq_refl eq_refl). split; [intros H; congruence|].
  intros dc [= <-]. cbn [dc_name dc_fields]. split; [reflexivity|]. split; [|split].
  - apply dict_of_items_NoDup. constructor.
  - exact Hk.
  - split; [exact Hok|]. apply dict_of_items_defaults. constructor.
Qed.

Lemma call_checks_field_names_witness :
  let _fields := [lit "id"; lit "class"] in
  forallb (fun key => isidentifier key && negb (mem key keywords)) _fields = false
  /\ exists msg, call (lit "lessons") _fields = Raise (TypeError msg).
Proof.
  intros _fields.
  assert (H : forallb (fun key => isidentifier key && negb (mem key keywords)) _fields
              = false) by reflexivity.
  split; [exact H | exact (proj1 (call_checks_field_names (lit "lessons") _fields) H)].
Defined.

Lemma call_ok_fields (table_name : str) (_fields : list str) (dc : DataClass) :
  call table_name _fields = Ok dc ->
  dc_fields dc = dict_of_items (map (fun key => (key, field_type key)) _fields).
Proof.
  unfold call, make_dataclass.
  destruct (List.find _ _); [discriminate|]. destruct (List.find _ _); [discriminate|].
  now intros [= <-].
Qed.

Lemma combine_app_short {A B : Type} (a c : list A) (b : list B) :
  length b = length a -> combine (a ++ c) b = combine a b.
Proof.
  revert b; induction a as [|x a IH]; intros [|y b]; cbn [app combine length];
    try discriminate; try reflexivity.
  - now destruct c.
  - intros [= H]. f_equal. now apply IH.
Qed.

Lemma keys_combine {A B : Type} (a : list A) (b : list B) :
  map fst (combine a b) = firstn (length b) a.
Proof.
  revert b; induction a as [|x a IH]; intros [|y b]; cbn [combine map length firstn fst];
    try reflexivity.
  f_equal. apply IH.
Qed.

Lemma lookup_combine (ds : list str) (row : list PyValue) (d : str -> PyValue) :
  List.NoDup ds -> length row = length ds ->
  map (fun k => (k, match dict_get k (combine ds row) with
                    | Some v => v
                    | None => d k
                    end)) ds
  = combine ds row.
Proof.
  revert row; induction ds as [|k ds IH]; intros [|v row] Hn Hl; try discriminate;
    [reflexivity|].
  inversion Hn as [|? ? Hk Hds]; subst. cbn [combine map dict_get].
  rewrite str_eqb_refl. f_equal.
  assert (Hl' : length row = length ds) by now injection Hl.
  etransitivity; [|exact (IH row Hds Hl')].
  apply map_ext_in. intros k' Hin.
  destruct (str_eqb k k') eqn:E; [|reflexivity].
  apply str_eqb_eq in E. subst. contradiction.
Qed.

Lemma existsb_key {V : Type} (k : str) (l : list (str * V)) :
  existsb (fun f => str_eqb (fst f) k) l = true <-> In k (map fst l).
Proof.
  rewrite existsb_exists, in_map_iff. split.
  - intros (f & Hin & E). apply str_eqb_eq in E. eauto.
  - intros (f & E & Hin). exists f. split; [exact Hin|]. now apply str_eqb_eq.
Qed.

(** X18.  Rows are converted by position against all the keys of the
    schema entry, constraints included, while the record type has the data
    columns only.  For a record type built from the data columns of the
    entry: when the constraints come after the data columns and the row
    has one value per data column, the conversion gives the record that
    pairs the data columns with the values in order; when a constraint key
    stands among the first keys, as many as the row has values, the
    conversion raises TypeError. *)
Theorem result_converter_alignment (table_name : str) (schema_fields : Table)
    (RepoData : DataClass) (row : list PyValue) :
  call table_name (data_columns schema_fields) = Ok RepoData ->
  List.NoDup (map fst schema_fields) ->
  ((exists cs, map fst schema_fields = data_columns schema_fields ++ cs) ->
   length row = length (data_columns schema_fields) ->
   result_converter schema_fields RepoData row
   = Ok (combine (data_columns schema_fields) row))
  /\ (forall key, In key (firstn (length row) (map fst schema_fields)) ->
      is_constraint key = true ->
      exists msg, result_converter schema_fields RepoData row = Raise (TypeError msg)).
Proof.
  intros Hcall Hn.
  assert (Hds : List.NoDup (data_columns schema_fields)).
  { unfold data_columns. now apply NoDup_filter_names. }
  apply call_ok_fields in Hcall.
  unfold result_converter, instantiate. rewrite Hcall. split.
  - intros [cs Hcs] Hl. rewrite Hcs, combine_app_short by exact Hl.
    set (ds := data_columns schema_fields) in *.
    assert (E1 : dict_of_items (map (fun key => (key, field_type key)) ds)
                 = map (fun key => (key, field_type key)) ds).
    { apply dict_of_items_nodup. rewrite map_map. cbn [fst]. now rewrite map_id. }
    assert (E2 : dict_of_items (combine ds row) = combine ds row).
    { apply dict_of_items_nodup. rewrite keys_combine, Hl, List.firstn_all. exact Hds. }
    rewrite E1, E2.
    replace (List.find _ (combine ds row)) with (@None (str * PyValue)).
    + rewrite map_map. cbn [fst snd]. f_equal.
      exact (lookup_combine ds row (fun k => snd (field_type k)) Hds Hl).
    + symmetry. apply find_none_forallb, forallb_forall. intros [k v] Hin.
      rewrite negb_involutive. apply existsb_key. rewrite map_map. cbn [fst].
      rewrite map_id. exact (in_combine_l _ _ _ _ Hin).
  - intros key Hin Hc.
    destruct (List.find _ (dict_of_items (combine (map fst schema_fields) row)))
      as [kv|] eqn:E; [eauto|].
    exfalso. apply find_none_forallb in E. rewrite forallb_forall in E.
    assert (Hk : In key (map fst (dict_of_items (combine (map fst schema_fields) row)))).
    { unfold dict_of_items. apply dict_of_items_keys. right. now rewrite keys_combine. }
    apply in_map_iff in Hk as ([k v] & <- & Hkv). specialize (E _ Hkv).
    rewrite negb_involutive in E. apply existsb_key in E. cbn [fst] in E, Hc.
    unfold dict_of_items in E. apply dict_of_items_keys in E as [[]|E].
    rewrite map_map in E. cbn [fst] in E. rewrite map_id in E.
    unfold data_columns in E. apply filter_In in E as [_ E].
    rewrite Hc in E. discriminate.
Qed.

Lemma result_converter_alignment_witness :
  let row := [VInt 7; VInt 3; VInt 2] in
  let RepoData :=
    {| dc_name := lit "Order_itemsRepoData";
       dc_fields := map (fun key => (key, field_type key))
                      [lit "order_id"; lit "product_id"; lit "quantity"] |} in
  call (lit "order_items") (data_columns order_items_fields) = Ok RepoData
  /\ List.NoDup (map fst order_items_fields)
  /\ result_converter order_items_fields RepoData row
     = Ok [(lit "order_id", VInt 7); (lit "product_id", VInt 3); (lit "quantity", VInt 2)].
Proof.
  intros row RepoData.
  assert (Hc : call (lit "order_items") (data_columns order_items_fields) = Ok RepoData)
    by reflexivity.
  assert (Hn : List.NoDup (map fst order_items_fields)).
  { apply distinct_NoDup. reflexivity. }
  split; [exact Hc|]. split; [exact Hn|].
  refine (proj1 (result_converter_alignment (lit "order_items") order_items_fields
                   RepoData row Hc Hn) _ eq_refl).
  eexists. reflexivity.
Defined.

Lemma dict_get_set_eq {V : Type} (k : str) (v : V) (d : list (str * V)) :
  dict_get k (dict_set k v d) = Some v.
Proof.
  induction d as [|[k' v'] d IH]; cbn [dict_set dict_get].
  - now rewrite str_eqb_refl.
  - destruct (str_eqb k' k) eqn:E; cbn [dict_get]; now rewrite E.
Qed.

Lemma dict_get_set_ne {V : Type} (k k0 : str) (v : V) (d : list (str * V)) :
  k <> k0 -> dict_get k0 (dict_set k v d) = dict_get k0 d.
Proof.
  intros Hne. induction d as [|[k' v'] d IH]; cbn [dict_set dict_get].
  - apply str_eqb_neq in Hne. now rewrite Hne.
  - destruct (str_eqb k' k) eqn:E; cbn [dict_get].
    + apply str_eqb_eq in E. subst. apply str_eqb_neq in Hne. now rewrite Hne.
    + now rewrite IH.
Qed.

Lemma create_repository_hit (table_name : str) (schema_fields : Table)
    (_fields : list str) (f : Factory) (r : Repository) :
  _instances f !! table_name = Some r ->
  create_repository table_name schema_fields _fields f = (Ok r, f).
Proof. intros H. unfold create_repository. now rewrite H. Qed.

Lemma create_loop_keeps (schema : Schema) (dataclass_fields : list (str * list str))
    (acc : list (str * Repository)) (f : Factory) (k : str) (r : Repository) :
  _instances f !! k = Some r ->
  _instances (snd (create_loop schema dataclass_fields acc f)) !! k = Some r.
Proof.
  revert acc f; induction schema as [|[t sf] schema IH]; intros acc f H; [exact H|].
  cbn [create_loop]. destruct (dict_get t dataclass_fields) as [fl|]; [|exact H].
  pose proof (create_repository_keeps t k sf fl f r H) as Hk.
  destruct (create_repository t sf fl f) as [[r'|e] f1]; [|exact Hk].
  now apply IH.
Qed.

Lemma create_loop_again (schema : Schema) (dataclass_fields : list (str * list str))
    (acc repositories : list (str * Repository)) (f f' f2 : Factory) :
  create_loop schema dataclass_fields acc f = (Ok repositories, f') ->
  (forall k r, _instances f' !! k = Some r -> _instances f2 !! k = Some r) ->
  create_loop schema dataclass_fields acc f2 = (Ok repositories, f2).
Proof.
  revert acc f; induction schema as [|[t sf] schema IH]; intros acc f H Hsub.
  - cbn [create_loop] in *. now injection H as -> _.
  - cbn [create_loop] in *. destruct (dict_get t dataclass_fields) as [fl|];
      [|discriminate].
    destruct (create_repository t sf fl f) as [[r|e] f1] eqn:E; [|discriminate].
    apply create_repository_stores in E.
    pose proof (create_loop_keeps schema dataclass_fields (dict_set t r acc) f1 t r E)
      as Hk.
    rewrite H in Hk. cbn [snd] in Hk.
    rewrite (create_repository_hit t sf fl f2 r (Hsub _ _ Hk)).
    now apply (IH _ f1).
Qed.

Lemma create_loop_result (schema : Schema) (dataclass_fields : list (str * list str))
    (acc repositories : list (str * Repository)) (f f' : Factory) :
  create_loop schema dataclass_fields acc f = (Ok repositories, f') ->
  (forall t r, dict_get t acc = Some r -> _instances f !! t = Some r) ->
  (forall t r, dict_get t repositories = Some r -> _instances f' !! t = Some r)
  /\ (forall t, In t (map fst schema) ->
        dict_get t dataclass_fields <> None /\ dict_get t repositories <> None)
  /\ (forall t, dict_get t acc <> None -> dict_get t repositories <> None).
Proof.
  revert acc f; induction schema as [|[t sf] schema IH]; intros acc f H Hacc.
  - cbn [create_loop] in H. injection H as <- <-. repeat split; auto;
      intros t [].
  - cbn [create_loop] in H. destruct (dict_get t dataclass_fields) as [fl|] eqn:Ef;
      [|discriminate].
    destruct (create_repository t sf fl f) as [[r|e] f1] eqn:E; [|discriminate].
    pose proof (create_repository_stores _ _ _ _ _ _ E) as Hst.
    assert (Hacc1 : forall t' r', dict_get t' (dict_set t r acc) = Some r' ->
                      _instances f1 !! t' = Some r').
    { intros t' r' Hg. destruct (str_eqb t t') eqn:Et.
      - apply str_eqb_eq in Et. subst. rewrite dict_get_set_eq in Hg. congruence.
      - apply str_eqb_neq in Et. rewrite dict_get_set_ne in Hg by exact Et.
        apply Hacc in Hg.
        pose proof (create_repository_keeps t t' sf fl f r' Hg) as Hk.
        now rewrite E in Hk. }
    destruct (IH _ _ H Hacc1) as (H1 & H2 & H3). split; [exact H1|]. split.
    + intros t' [<-|Hin]; [|split; apply (H2 t' Hin)]. cbn [fst].
      split; [congruence|]. apply H3. rewrite dict_get_set_eq. discriminate.
    + intros t' Hg. apply H3. destruct (str_eqb t t') eqn:Et.
      * apply str_eqb_eq in Et. subst. rewrite dict_get_set_eq. discriminate.
      * apply str_eqb_neq in Et. now rewrite dict_get_set_ne.
Qed.

(** X19.  When [create_repositories] succeeds, every table of the schema
    has its fields listed and a repository in the result, every repository
    of the result is the one the cache holds under that table name, and
    the same call made again returns the same repositories and leaves the
    cache as it is.  A table whose fields are not listed makes it raise
    KeyError when the loop reaches it, after the repositories of the
    tables before it were created and cached. *)
Theorem create_repositories_cached (schema : Schema)
    (dataclass_fields : list (str * list str)) (f : Factory) :
  (forall repositories f',
     create_repositories schema dataclass_fields f = (Ok repositories, f') ->
     (forall t, In t (map fst schema) ->
        dict_get t dataclass_fields <> None
        /\ exists r, dict_get t repositories = Some r /\ _instances f' !! t = Some r)
     /\ create_repositories schema dataclass_fields f' = (Ok repositories, f'))
  /\ (forall before t sf rest repositories f1,
        schema = before ++ (t, sf) :: rest ->
        create_repositories before dataclass_fields f = (Ok repositories, f1) ->
        dict_get t dataclass_fields = None ->
        create_repositories schema dataclass_fields f = (Raise (KeyError t), f1)).
Proof.
  unfold create_repositories. split.
  - intros repositories f' H.
    destruct (create_loop_result schema dataclass_fields [] repositories f f' H)
      as (H1 & H2 & _); [discriminate|].
    split.
    + intros t Hin. destruct (H2 t Hin) as [Hf Hr]. split; [exact Hf|].
      destruct (dict_get t repositories) as [r|] eqn:E; [|contradiction].
      exists r. split; [reflexivity | now apply H1].
    + now apply (create_loop_again schema dataclass_fields [] repositories f f' f').
  - intros before t sf rest repositories f1 -> H Hnone.
    generalize dependent f. generalize (@nil (str * Repository)).
    induction before as [|[t' sf'] before IH]; intros acc f H.
    + cbn [create_loop app] in *. injection H as _ <-. now rewrite Hnone.
    + cbn [create_loop app] in *. destruct (dict_get t' dataclass_fields); [|discriminate].
      destruct (create_repository t' sf' l f) as [[r|e] f2]; [|discriminate].
      now apply IH.
Qed.

Lemma create_repositories_cached_witness :
  let fields := snd (generate_sql orders_schema None) in
  let first := create_repositories orders_schema fields empty_factory in
  exists repositories,
    first = (Ok repositories, snd first)
    /\ create_repositories orders_schema fields (snd first)
       = (Ok repositories, snd first).
Proof.
  intros fields first.
  assert (H : exists repositories, first = (Ok repositories, snd first))
    by (eexists; reflexivity).
  destruct H as [repositories H]. exists repositories. split; [exact H|].
  exact (proj2 (proj1 (create_repositories_cached orders_schema fields empty_factory)
                  repositories (snd first) H)).
Defined.

End RecordFacts.
(** ** The errors of the parser *)

Section ParseErrors.
Import Py SchemaParser SqlStrToDict RoundTrip Shapes.

Lemma In_drop_while (p : ascii -> bool) (c : ascii) (s : str) :
  In c (drop_while p s) -> In c s.
Proof.
  induction s as [|d s IH]; [auto|]. cbn [drop_while].
  destruct (p d); [|auto]. intros H. right. now apply IH.
Qed.

Lemma In_skipn (n : nat) (c : ascii) (s : str) : In c (skipn n s) -> In c s.
Proof.
  revert s; induction n as [|n IH]; intros [|d s]; cbn [skipn]; auto.
  intros H. right. now apply IH.
Qed.

Lemma match_name_at_open (kw s name : str) :
  match_name_at kw s = Some name -> In "("%char s.
Proof.
  unfold match_name_at. destruct (startswith_ci kw s); [|discriminate].
  destruct (skipn (length kw) s) as [|c r] eqn:Es; [discriminate|].
  destruct (isspace c); [|discriminate].
  destruct (take_while isword (drop_while isspace (c :: r))); [discriminate|].
  destruct (drop_while isspace (drop_while isword (drop_while isspace (c :: r))))
    as [|d u] eqn:Ed; [discriminate|].
  destruct (ascii_eqb d "(") eqn:E; [|discriminate]. intros _.
  apply ascii_eqb_eq in E. subst d.
  apply (In_skipn (length kw)). rewrite Es.
  apply (In_drop_while isspace), (In_drop_while isword), (In_drop_while isspace).
  rewrite Ed. now left.
Qed.

Lemma search_name_open (kw s name : str) :
  search_name kw s = Some name -> In "("%char s.
Proof.
  induction s as [|c s IH]; cbn [search_name].
  - destruct (match_name_at kw []) eqn:E; [|discriminate].
    intros _. exact (match_name_at_open _ _ _ E).
  - destruct (match_name_at kw (c :: s)) eqn:E.
    + intros _. exact (match_name_at_open _ _ _ E).
    + intros H. right. now apply IH.
Qed.

Lemma extract_table_name_open (statement name : str) :
  _extract_table_name statement = Ok name -> In "("%char statement.
Proof.
  unfold _extract_table_name.
  destruct (search_name (lit "CREATE TABLE IF NOT EXISTS") statement) eqn:E1.
  - intros _. exact (search_name_open _ _ _ E1).
  - destruct (search_name (lit "CREATE TABLE") statement) eqn:E2; [|discriminate].
    intros _. exact (search_name_open _ _ _ E2).
Qed.

Lemma search_parens_closed (y : str) :
  In "("%char (y ++ lit ");") -> exists body, search_parens (y ++ lit ");") = Some body.
Proof.
  unfold search_parens. induction y as [|c y IH]; intros H.
  - cbn in H. destruct H as [H|[H|[]]]; discriminate.
  - cbn [app drop_while]. destruct (ascii_eqb c "(") eqn:E; cbn [negb].
    + exists y. apply upto_last_close_app.
    + apply IH. cbn [app In] in H. destruct H as [H|H]; [|exact H].
      subst c. discriminate.
Qed.

Lemma upper_char_space (c : ascii) : isspace (upper_char c) = isspace c.
Proof.
  destruct c as [b0 b1 b2 b3 b4 b5 b6 b7].
  destruct b0, b1, b2, b3, b4, b5, b6, b7; reflexivity.
Qed.

(** A clause that starts with PRIMARY KEY, in any letter case, splits at
    the blank between the two words. *)
Lemma primary_two_parts (s : str) :
  startswith (lit "PRIMARY KEY") (upper s) = true ->
  exists a b, split_ws1 s = [a; b].
Proof.
  intros H. apply startswith_split in H as [s2 H].
  do 9 (destruct s as [|? s]; [discriminate|]).
  unfold upper in H. cbn [map app] in H.
  change (lit "PRIMARY KEY") with ["P"; "R"; "I"; "M"; "A"; "R"; "Y"; " "; "K"; "E"; "Y"]%char
    in H.
  cbn [app] in H.
  injection H as H1 H2 H3 H4 H5 H6 H7 H8 H9 _.
  repeat match goal with
         | E : upper_char ?c = ?x |- _ =>
             let Hs := fresh "Hs" in
             let v := eval vm_compute in (isspace x) in
             assert (Hs : isspace c = v)
               by (rewrite <- (upper_char_space c), E; reflexivity);
             clear E
         end.
  unfold split_ws1, lstrip. cbn [drop_while take_while].
  repeat match goal with
         | E : isspace _ = _ |- _ => rewrite E; cbn [negb drop_while take_while]
         end.
  eauto.
Qed.

Lemma parse_constraint_total (s : str) :
  startswith (lit "FOREIGN KEY") (upper s) || startswith (lit "PRIMARY KEY") (upper s)
  = true ->
  strip s = s ->
  exists kv, _parse_constraint s = Ok kv.
Proof.
  intros H Hs. unfold _parse_constraint. rewrite Hs.
  destruct (startswith (lit "FOREIGN KEY") (upper s)); [eauto|].
  cbn [orb] in H. rewrite H.
  destruct (negb (find ")" s =? -1)%Z); [eauto|].
  destruct (primary_two_parts s H) as (a & b & ->). eauto.
Qed.

Lemma columns_loop_errors (l : list str) (acc : Table) (e : exn) :
  columns_loop l acc = Raise e ->
  exists clause, e = ValueError (lit "Invalid column definition: '" ++ clause ++ lit "'").
Proof.
  revert acc; induction l as [|col l IH]; intros acc; [discriminate|].
  cbn [columns_loop]. destruct (strip col) as [|c t] eqn:Es; [apply IH|].
  assert (Hs : strip (c :: t) = c :: t) by (rewrite <- Es; apply strip_idem).
  destruct (startswith (lit "FOREIGN KEY") (upper (c :: t))
            || startswith (lit "PRIMARY KEY") (upper (c :: t))) eqn:Ek.
  - destruct (parse_constraint_total (c :: t) Ek Hs) as [[k v] ->]. apply IH.
  - destruct (_parse_column (c :: t)) as [[k v]|e'] eqn:E; [apply IH|].
    intros He. injection He as <-. unfold _parse_column in E.
    destruct (split_ws1 (c :: t)) as [|a [|b [|d l']]]; try discriminate;
      injection E as <-; exists (c :: t); reflexivity.
Qed.

Lemma parse_loop_errors (l : list str) (acc : Schema) (e : exn) :
  Forall table_statement l ->
  parse_loop l acc = Raise e ->
  e = ValueError (lit "Table name not found in statement.")
  \/ exists clause,
       e = ValueError (lit "Invalid column definition: '" ++ clause ++ lit "'").
Proof.
  intros Hl. revert acc; induction Hl as [|x l Hx Hl IH]; intros acc; [discriminate|].
  cbn [parse_loop]. destruct (_extract_table_name x) as [name|e'] eqn:En.
  - destruct (_extract_columns x) as [columns|e'] eqn:Ec; [apply IH|].
    intros [= <-]. right. unfold _extract_columns in Ec.
    destruct Hx as (_ & q & Hq & _).
    assert (Hopen : exists body, search_parens x = Some body).
    { rewrite Hq. rewrite app_assoc. apply search_parens_closed.
      rewrite <- app_assoc, <- Hq. exact (extract_table_name_open _ _ En). }
    destruct Hopen as [body Hb]. rewrite Hb in Ec.
    exact (columns_loop_errors _ _ _ Ec).
  - intros [= <-]. left. unfold _extract_table_name in En.
    destruct (search_name (lit "CREATE TABLE IF NOT EXISTS") x); [discriminate|].
    destruct (search_name (lit "CREATE TABLE") x); [discriminate|].
    now injection En as <-.
Qed.

(** X20.  [parse] raises two errors only: the ValueError for a statement
    in which no table name is found, and the ValueError that quotes a
    member which does not split into a name and a definition.  The
    ValueError [Column definitions not found.] of [_extract_columns] is
    never raised by [parse], since a statement the statement search returns
    ends with [");"] and one whose table name was found holds the opening
    parenthesis after the name; and [_parse_constraint] never fails on the
    clauses [_extract_columns] passes to it. *)
Theorem parse_errors (schema_str : str) (e : exn) :
  parse schema_str = Raise e ->
  e = ValueError (lit "Table name not found in statement.")
  \/ exists clause,
       e = ValueError (lit "Invalid column definition: '" ++ clause ++ lit "'").
Proof.
  intros H. unfold parse, _split_statements in H.
  apply parse_loop_errors in H; [exact H | apply findall_shape].
Qed.

Lemma parse_errors_witness :
  let text := lit "CREATE TABLE t (a);" in
  let e := ValueError (lit "Invalid column definition: 'a'") in
  parse text = Raise e
  /\ (e = ValueError (lit "Table name not found in statement.")
      \/ exists clause,
           e = ValueError (lit "Invalid column definition: '" ++ clause ++ lit "'")).
Proof.
  intros text e.
  assert (H : parse text = Raise e) by reflexivity.
  split; [exact H | exact (parse_errors text e H)].
Defined.

End ParseErrors.
(** ** The generated script, and what delete returns *)

Section ScriptFacts.
Import Py SchemaParser SqlStrToDict RoundTrip Script.

Lemma filter_none {A : Type} (p : A -> bool) (l : list A) :
  (forall x, In x l -> p x = false) -> List.filter p l = [].
Proof.
  induction l as [|x l IH]; intros H; [reflexivity|]. cbn [List.filter].
  rewrite (H x) by now left. apply IH. intros y Hy. apply H. now right.
Qed.

Lemma statements_unhinted (idxs : option (list str)) (schema : Schema) :
  (forall t columns name,
     In (t, columns) schema -> In name (map fst columns) -> hinted idxs name = false) ->
  statements idxs schema = statements None schema.
Proof.
  unfold statements. induction schema as [|[t columns] schema IH]; intros H;
    [reflexivity|].
  cbn [flat_map]. rewrite IH by (intros t' c' n' Hin Hn; apply (H t' c'); [now right | exact Hn]).
  f_equal. unfold table_statements, index_statements. cbn [fst snd]. f_equal.
  rewrite !filter_none; [reflexivity | reflexivity |].
  intros name Hn. apply (H t columns); [now left | exact Hn].
Qed.

(** X21.  The script [generate_sql] returns is, table after table in the
    order of the schema and with a blank line between two statements: the
    CREATE TABLE statement, whose clauses are the data columns in their
    order followed by the constraints in theirs, wherever the constraints
    stood in the schema; then one CREATE INDEX statement per member of that
    table that the hints name, in the order of the members.  Hints that
    name no member of any table change nothing. *)
Theorem generate_sql_script (schema : Schema) (idxs : option (list str)) :
  fst (generate_sql schema idxs)
  = join [nl; nl]
      (flat_map
         (fun entry =>
            create_table_sql (fst entry)
              (map render (List.filter is_data (snd entry))
               ++ map render (List.filter (fun m => is_constraint (fst m)) (snd entry)))
            :: map (index_sql (fst entry))
                 (List.filter (hinted idxs) (map fst (snd entry))))
         schema)
  /\ ((forall t columns name,
         In (t, columns) schema -> In name (map fst columns) -> hinted idxs name = false) ->
      generate_sql schema idxs = generate_sql schema None).
Proof.
  split; [exact (generate_sql_statements schema idxs)|]. intros H.
  apply injective_projections.
  - rewrite !generate_sql_statements. now rewrite statements_unhinted.
  - unfold generate_sql.
    pose proof (table_step_fields idxs schema ([], [])) as H1.
    pose proof (table_step_fields None schema ([], [])) as H2.
    destruct (fold_left (table_step idxs) schema ([], [])) as [s1 f1].
    destruct (fold_left (table_step None) schema ([], [])) as [s2 f2].
    cbn [snd] in *. congruence.
Qed.

Lemma generate_sql_script_witness :
  let idxs := Some [lit "email"; lit "created_at"] in
  (forall t columns name,
     In (t, columns) orders_schema -> In name (map fst columns) ->
     hinted idxs name = false)
  /\ generate_sql orders_schema idxs = generate_sql orders_schema None.
Proof.
  intros idxs.
  assert (H : forall t columns name,
            In (t, columns) orders_schema -> In name (map fst columns) ->
            hinted idxs name = false).
  { intros t columns name [E|[E|[]]] Hn; injection E as <- <-;
      cbn [map fst In] in Hn;
      repeat (destruct Hn as [<-|Hn]; [reflexivity|]); destruct Hn. }
  split; [exact H | exact (proj2 (generate_sql_script orders_schema idxs) H)].
Defined.

End ScriptFacts.

Section DeleteFacts2.
Import Py DatabaseConnection GeneratedRepository Requests Operations Control Traces
  Filters Examples.

(** X22.  On an engine that refuses statements only, [delete] with plain
    filters never raises.  It sends the DELETE statement inside BEGIN and
    commit; when the statement is refused it sends a rollback instead of
    the commit and returns False; when it is accepted it returns whether
    the cursor counts at least one row.  The handle is closed either
    way. *)
Theorem delete_outcome (engine : Engine) (table_name : str) (kwargs : Kwargs)
    (w : World) :
  refuses_only_statements engine ->
  plain_filters kwargs = true ->
  let h := fst (entering w) in
  let query := lit "DELETE FROM " ++ table_name ++ lit " WHERE " ++ conditions kwargs in
  let pre := sent w ++ snd (entering w) ++ [Execute h (lit "BEGIN TRANSACTION;") []] in
  exists deleted w',
    delete engine table_name kwargs w = (Ok deleted, w')
    /\ conn (manager w') = None
    /\ match engine pre (Execute h query kwargs) with
       | None =>
           deleted = false
           /\ sent w' = pre ++ [Execute h query kwargs; Rollback h; Close h]
       | Some c =>
           deleted = (0 <? rowcount c)%Z
           /\ sent w' = pre ++ [Execute h query kwargs; Commit h; Close h]
       end.
Proof.
  intros Hacc Hp h query pre. unfold delete.
  rewrite call_query_conditions_plain by (try assumption; cbn; auto).
  change (query_conditions table_name _ _ _ kwargs) with (Ok (A := str) query).
  unfold try_except, bind.
  destruct (execute_exact engine Hacc query kwargs true true false false w)
    as (res & w' & E & Hn & Hm).
  rewrite E. fold h in Hm. cbn [beginning] in Hm. fold pre in Hm.
  destruct (engine pre (Execute h query kwargs)) as [c|].
  - destruct Hm as (H1 & H2 & H3). destruct res as [rows c'|c'|]; try discriminate.
    injection H1 as ->. unfold ret. eexists _, w'. split; [reflexivity|].
    split; [exact Hn|]. split; [reflexivity | exact H3].
  - destruct Hm as [-> H3]. unfold ret. eexists _, w'. split; [reflexivity|].
    split; [exact Hn|]. split; [reflexivity | exact H3].
Qed.

Lemma delete_outcome_witness :
  let engine := refusing (fun _ => false) in
  let kwargs := [(lit "name", VStr (lit "Bob")); (lit "age", VInt 30)] in
  refuses_only_statements engine
  /\ plain_filters kwargs = true
  /\ exists w',
       delete engine (lit "users") kwargs (initial_world fresh_manager) = (Ok true, w')
       /\ sent w' = [Connect (lit "hive/hive_1.db");
                     Execute 0 (lit "BEGIN TRANSACTION;") [];
                     Execute 0 (lit "DELETE FROM users WHERE name = :name AND age = :age")
                       kwargs;
                     Commit 0; Close 0].
Proof.
  intros engine kwargs.
  assert (Hacc : refuses_only_statements engine).
  { apply accepts_all_refuses_none, accepting_engine. }
  split; [exact Hacc|]. split; [reflexivity|].
  destruct (delete_outcome engine (lit "users") kwargs (initial_world fresh_manager)
              Hacc eq_refl) as (deleted & w' & E & _ & Hd & Hs).
  exists w'. rewrite E, Hd, Hs. split; reflexivity.
Defined.

End DeleteFacts2.
(** ** The statement save_single sends, and the life of a handle *)

Section LifetimeFacts.
Import Py DatabaseConnection GeneratedRepository Loading Requests Operations Control
  Traces Lifetime.










Variable engine : Engine.
Hypothesis Hacc : refuses_only_statements engine.



Variable table_name : str.





Variable schema_fields : Table.
Variable RepoData : RepoDataClass.DataClass.




End LifetimeFacts.

Section InsertSent.
Import Py DatabaseConnection GeneratedRepository Requests Operations Control Traces.

Lemma save_single_sends_insert (engine : Engine) (table_name : str) (data : Rec)
    (w : World) :
  refuses_only_statements engine ->
  let h := fst (entering w) in
  exists tail,
    sent (snd (save_single engine table_name data w))
    = sent w ++ snd (entering w)
      ++ Execute h (dc_to_insertion_query table_name data) data :: tail
    /\ (tail = [Commit h; Close h] \/ tail = [Close h]).
Proof.
  intros Hacc h.
  destruct (execute_exact engine Hacc (dc_to_insertion_query table_name data) data
              false true false false w) as (res & w' & E & Hn & Hm).
  unfold save_single, try_except, bind. rewrite E. unfold ret. cbn [snd].
  fold h in Hm. cbn [beginning] in Hm. rewrite app_nil_r in Hm.
  destruct (engine (sent w ++ snd (entering w))
              (Execute h (dc_to_insertion_query table_name data) data)) as [c|].
  - destruct Hm as (_ & _ & Hs). exists [Commit h; Close h].
    split; [|now left]. rewrite Hs, <- app_assoc. reflexivity.
  - destruct Hm as (_ & Hs). exists [Close h].
    split; [|now right]. rewrite Hs, <- app_assoc. reflexivity.
Qed.

(** C6.  For a record with distinct field names, the statement of
    [save_single] is [INSERT OR REPLACE INTO <table> (<cols>) VALUES
    (<:cols>)] where [cols] lists, in field order, exactly the fields
    whose value is not null or whose name is not [id]: [id] is left out
    if and only if it is null, every other field is kept even when null.
    This statement, with the record's mapping as parameters, is the only
    statement [save_single] sends apart from the PRAGMA of a fresh
    connection; and on an engine that refuses statements only
    [save_single] does send it, right after entering the connection scope,
    followed by the commit when it was accepted and by the close of the
    handle. *)
Theorem save_single_insert_fields (engine : Engine) (table_name : str) (data : Rec)
    (w : World) :
  List.NoDup (map fst data) ->
  exists cols : list str,
    dc_to_insertion_query table_name data =
      lit "INSERT OR REPLACE INTO " ++ table_name ++ lit " (" ++ join (lit ", ") cols
      ++ lit ") VALUES (" ++ join (lit ", ") (map (fun key => lit ":" ++ key) cols) ++ lit ")"
    /\ sublist cols (map fst data)
    /\ (forall k v, In (k, v) data -> (In k cols <-> v <> VNone \/ k <> lit "id"))
    /\ (forall v, In (lit "id", v) data -> (~ In (lit "id") cols <-> v = VNone))
    /\ (forall k v, In (k, v) data -> k <> lit "id" -> In k cols)
    /\ (forall h sql params,
          In (Execute h sql params) (sent (snd (save_single engine table_name data w))) ->
          In (Execute h sql params) (sent w)
          \/ (sql = lit "PRAGMA foreign_keys = ON;" /\ params = [])
          \/ (sql = dc_to_insertion_query table_name data /\ params = data))
    /\ (refuses_only_statements engine ->
        exists tail,
          sent (snd (save_single engine table_name data w))
          = sent w ++ snd (entering w)
            ++ Execute (fst (entering w)) (dc_to_insertion_query table_name data) data
               :: tail
          /\ (tail = [Commit (fst (entering w)); Close (fst (entering w))]
              \/ tail = [Close (fst (entering w))])).
Proof.
  intros Hnd.
  set (p := fun kv : str * PyValue =>
              negb (is_none (snd kv)) || negb (str_eqb (fst kv) (lit "id"))).
  assert (Hcols : forall k v, In (k, v) data ->
            (In k (map fst (List.filter p data)) <-> v <> VNone \/ k <> lit "id")).
  { intros k v Hin. rewrite <- kept_iff. split.
    - intros Hk. apply in_map_iff in Hk as ([k' v'] & Ek & Hf). simpl in Ek. subst k'.
      apply filter_In in Hf as [Hin' Hp].
      assert (v' = v) as ->; [|exact Hp].
      clear - Hnd Hin Hin'. induction data as [|[a b] l IH]; [destruct Hin|].
      simpl in Hnd. apply List.NoDup_cons_iff in Hnd as [Ha Hl].
      destruct Hin as [E|Hin], Hin' as [E'|Hin'].
      + congruence.
      + injection E as -> ->. exfalso. apply Ha. apply in_map_iff. now exists (k, v').
      + injection E' as -> ->. exfalso. apply Ha. apply in_map_iff. now exists (k, v).
      + now apply IH.
    - intros Hp. apply in_map_iff. exists (k, v). split; [reflexivity|].
      apply filter_In. now split. }
  exists (map fst (List.filter p data)).
  split; [unfold dc_to_insertion_query; now rewrite kept_fields_filter|].
  split; [apply sublist_map_fst_filter|].
  split; [exact Hcols|].
  split.
  { intros v Hin. split.
    - intros Hnot. destruct v; try reflexivity; exfalso; apply Hnot;
        apply (Hcols _ _ Hin); left; discriminate.
    - intros -> Hk. apply (Hcols _ _ Hin) in Hk. destruct Hk; congruence. }
  split; [intros k v Hin Hk; apply (Hcols _ _ Hin); now right|].
  split; [apply save_single_requests|].
  intros Hacc. exact (save_single_sends_insert engine table_name data w Hacc).
Qed.

Lemma save_single_insert_fields_witness :
  let data := [(lit "id", VNone); (lit "name", VNone); (lit "age", VInt 3)] in
  let engine := refusing (fun _ => false) in
  let w := initial_world fresh_manager in
  List.NoDup (map fst data)
  /\ refuses_only_statements engine
  /\ dc_to_insertion_query (lit "users") data
     = lit "INSERT OR REPLACE INTO users (name, age) VALUES (:name, :age)"
  /\ sent (snd (save_single engine (lit "users") data w))
     = [Connect (lit "hive/hive_1.db");
        Execute 0 (lit "INSERT OR REPLACE INTO users (name, age) VALUES (:name, :age)")
          data;
        Commit 0; Close 0]
  /\ exists cols : list str,
    dc_to_insertion_query (lit "users") data =
      lit "INSERT OR REPLACE INTO " ++ lit "users" ++ lit " (" ++ join (lit ", ") cols
      ++ lit ") VALUES (" ++ join (lit ", ") (map (fun key => lit ":" ++ key) cols) ++ lit ")"
    /\ sublist cols (map fst data)
    /\ (forall k v, In (k, v) data -> (In k cols <-> v <> VNone \/ k <> lit "id"))
    /\ (forall v, In (lit "id", v) data -> (~ In (lit "id") cols <-> v = VNone))
    /\ (forall k v, In (k, v) data -> k <> lit "id" -> In k cols)
    /\ (forall h sql params,
          In (Execute h sql params) (sent (snd (save_single engine (lit "users") data w))) ->
          In (Execute h sql params) (sent w)
          \/ (sql = lit "PRAGMA foreign_keys = ON;" /\ params = [])
          \/ (sql = dc_to_insertion_query (lit "users") data /\ params = data))
    /\ (refuses_only_statements engine ->
        exists tail,
          sent (snd (save_single engine (lit "users") data w))
          = sent w ++ snd (entering w)
            ++ Execute (fst (entering w)) (dc_to_insertion_query (lit "users") data) data
               :: tail
          /\ (tail = [Commit (fst (entering w)); Close (fst (entering w))]
              \/ tail = [Close (fst (entering w))])).
Proof.
  intros data engine w.
  assert (H : List.NoDup (map fst data)).
  { repeat constructor; simpl; intros H; intuition discriminate. }
  split; [exact H|].
  split; [apply accepts_all_refuses_none, accepting_engine|].
  split; [reflexivity|]. split; [reflexivity|].
  exact (save_single_insert_fields engine (lit "users") data w H).
Defined.

End InsertSent.

Section LifetimeMain.
Import Py DatabaseConnection GeneratedRepository Loading Requests Operations Control
  Traces Lifetime Batches Examples.



End LifetimeMain.
